(** * DeepAgent: replay memories, epsilon schedule, TD target and training cadence

    A shallow embedding of

    - [DeepAgent/utils/buffer.py]: [ExperienceReplay] and
      [PrioritizedExperienceReplay];
    - [unit_test (informal way)/Bin/dqn_v2.py]: [Agent.get_eps],
      [Agent.update_main_q_network] and [Agent.train].

    Conventions.  Python integers are [Z].  NumPy / TensorFlow floating point
    values (priorities, rewards, Q-values, exploration rates) are modelled by
    the exact rationals [Q]: the properties below are about order, copying and
    field identities, not about rounding.  An object attribute that a method
    may assign is a record field and a method is a function of the object;
    exceptions are the [Raise] results.  The global NumPy random generator is
    an explicit [RandomState] threaded through every method that draws from
    it. *)

From Stdlib Require Import ZArith QArith Qabs Qround Qpower Lqa Lia List Bool.
From stdpp Require Import base list.
Import ListNotations.

Open Scope Z_scope.

(** ** Exceptions and results *)

Inductive exn : Type :=
| ValueError
| IndexError
| ZeroDivisionError
| FuelExhausted.   (* not a Python exception: a bounded loop ran out of fuel *)

Inductive result (A : Type) : Type :=
| Ok (a : A)
| Raise (e : exn).

Arguments Ok {A} a.
Arguments Raise {A} e.

Definition is_ok {A} (r : result A) : bool :=
  match r with Ok _ => true | Raise _ => false end.

(** ** The random generator

    [entropy] is the sequence of raw words the generator will produce and
    [cursor] the number of words consumed so far. *)

Record RandomState : Type := mkRandomState {
  entropy : nat -> N;
  cursor : nat
}.

Definition next_raw (g : RandomState) : N * RandomState :=
  (entropy g (cursor g), mkRandomState (entropy g) (S (cursor g))).

(** ** Methods: state, randomness and exceptions

    A method of an object of type [Self] returning an [A].  A raised exception
    leaves the object and the generator as they were at the raise. *)

Definition Method (Self A : Type) : Type :=
  Self -> RandomState -> result A * (Self * RandomState).

Definition ret {Self A} (a : A) : Method Self A :=
  fun s g => (Ok a, (s, g)).

Definition raise {Self A} (e : exn) : Method Self A :=
  fun s g => (Raise e, (s, g)).

Definition bind {Self A B} (m : Method Self A) (k : A -> Method Self B) : Method Self B :=
  fun s g =>
    match m s g with
    | (Ok a, (s', g')) => k a s' g'
    | (Raise e, w) => (Raise e, w)
    end.

Definition get_self {Self} : Method Self Self :=
  fun s g => (Ok s, (s, g)).

Definition put_self {Self} (s' : Self) : Method Self unit :=
  fun _ g => (Ok tt, (s', g)).

Definition lift_result {Self A} (r : result A) : Method Self A :=
  fun s g => (r, (s, g)).

Declare Scope method_scope.
Delimit Scope method_scope with method.
Notation "x <- m ;; k" := (bind m (fun x => k))
  (at level 100, m at next level, right associativity) : method_scope.
Notation "m ;;; k" := (bind m (fun _ => k))
  (at level 100, right associativity) : method_scope.

Definition outcome {Self A} (r : result A * (Self * RandomState)) : result A := fst r.
Definition self_after {Self A} (r : result A * (Self * RandomState)) : Self := fst (snd r).
Definition rng_after {Self A} (r : result A * (Self * RandomState)) : RandomState :=
  snd (snd r).

(** ** NumPy and Python primitives *)

Definition int32_min : Z := - 2 ^ 31.
Definition int32_max : Z := 2 ^ 31 - 1.

(** [np.random.randint(low, high, dtype=np.int32)]: one integer in
    [[low, high)].  Raises [ValueError] when the range is empty or does not
    fit the dtype. *)
Definition np_random_randint {Self} (low high : Z) : Method Self Z :=
  fun s g =>
    if (high <=? low) || (low <? int32_min) || (int32_max + 1 <? high)
    then (Raise ValueError, (s, g))
    else let (r, g') := next_raw g in
         (Ok (low + Z.of_N r mod (high - low)), (s, g')).

(** Python indexing of a sequence of length [n]: a negative index counts
    from the end; anything outside [[-n, n)] is an [IndexError]. *)
Definition py_index (n : nat) (i : Z) : option nat :=
  let j := if i <? 0 then i + Z.of_nat n else i in
  if (0 <=? j) && (j <? Z.of_nat n) then Some (Z.to_nat j) else None.

Definition py_getitem {A} (l : list A) (i : Z) : result A :=
  match py_index (length l) i with
  | Some k => match l !! k with Some x => Ok x | None => Raise IndexError end
  | None => Raise IndexError
  end.

Definition Qltb (x y : Q) : bool := negb (Qle_bool y x).

(** [a.max()] of a one-dimensional array; [ValueError] on an empty array. *)
Definition Qmaxb (m y : Q) : Q := if Qltb m y then y else m.

Definition np_max (a : list Q) : result Q :=
  match a with
  | [] => Raise ValueError
  | x :: xs => Ok (fold_left Qmaxb xs x)
  end.

(** [np.argmin(a)]: the first index holding the minimum. *)
Fixpoint argmin_from (xs : list Q) (i : nat) (best : nat) (m : Q) : nat :=
  match xs with
  | [] => best
  | y :: ys => if Qltb y m then argmin_from ys (S i) i y
               else argmin_from ys (S i) best m
  end.

Definition np_argmin (a : list Q) : result nat :=
  match a with
  | [] => Raise ValueError
  | x :: xs => Ok (argmin_from xs 1 0 x)
  end.

(** ** Transitions *)

Definition Frame : Type := list Z.

Module Transition.

Record t : Type := mk {
  state : Frame;
  action : Z;
  reward : Q;
  done : bool;
  new_state : Frame
}.

End Transition.

(** The five stacked tensors returned by [get_sample]. *)
Record Batch : Type := mkBatch {
  states : list Frame;
  actions : list Z;
  rewards : list Q;
  dones : list bool;
  new_states : list Frame
}.

(** ** [collections.deque(maxlen=...)] *)

(** [deque.append] on a bounded deque: the item goes to the right end and,
    when the bound is exceeded, the leftmost item is dropped. *)
Definition deque_append {A} (maxlen : Z) (d : list A) (x : A) : list A :=
  let d' := d ++ [x] in
  if maxlen <? Z.of_nat (length d') then tail d' else d'.

(** ** The base class of the memories *)

Module IBaseBuffer.

Record t : Type := mk {
  size : Z;
  batch_size : Z;
  current_size : Z
}.

(** Modelled from the spec: the class [IBaseBuffer] is not among the
    sources.  A buffer is created once with a fixed capacity and batch
    size, and [current_size] tracks the live count: none at creation. *)
Definition __init__ (size batch_size : Z) : t := mk size batch_size 0.

End IBaseBuffer.

(** ** The uniform replay memory *)

Module ExperienceReplay.

Record t : Type := mk {
  size : Z;
  batch_size : Z;
  current_size : Z;
  _buffer : list Transition.t
}.

(** [deque(maxlen=size)] raises [ValueError] for a negative bound. *)
Definition __init__ (size batch_size : Z) : result t :=
  let base := IBaseBuffer.__init__ size batch_size in
  if size <? 0 then Raise ValueError
  else Ok (mk (IBaseBuffer.size base) (IBaseBuffer.batch_size base)
              (IBaseBuffer.current_size base) []).

Definition append (self : t) (transition : Transition.t) : t :=
  let buffer' := deque_append (size self) (_buffer self) transition in
  mk (size self) (batch_size self) (Z.of_nat (length buffer')) buffer'.

(** The [while len(indices) < self.batch_size] loop of
    [get_sample_indices]. *)
Fixpoint sample_loop (fuel : nat) (indices : list Z) : Method t (list Z) :=
  match fuel with
  | O => raise FuelExhausted
  | S fuel' =>
      (self <- get_self ;;
       if Z.of_nat (length indices) <? batch_size self then
         index <- np_random_randint 0 (size self) ;;
         sample_loop fuel' (indices ++ [index])
       else ret indices)%method
  end.

Definition get_sample_indices : Method t (list Z) :=
  (self <- get_self ;;
   sample_loop (S (Z.to_nat (batch_size self))) [])%method.

(** The gathering loop of [get_sample], shared with the prioritized
    memory, which inherits the method. *)
Fixpoint gather (buffer : list Transition.t) (indices : list Z) (acc : Batch)
  : result Batch :=
  match indices with
  | [] => Ok acc
  | index :: rest =>
      match py_getitem buffer index with
      | Raise e => Raise e
      | Ok item =>
          gather buffer rest
            (mkBatch (states acc ++ [Transition.state item])
                     (actions acc ++ [Transition.action item])
                     (rewards acc ++ [Transition.reward item])
                     (dones acc ++ [Transition.done item])
                     (new_states acc ++ [Transition.new_state item]))
      end
  end.

Definition get_sample (indices : list Z) : Method t Batch :=
  (self <- get_self ;;
   lift_result (gather (_buffer self) indices (mkBatch [] [] [] [] [])))%method.

Definition __len__ (self : t) : Z := Z.of_nat (length (_buffer self)).

Definition __getitem__ (self : t) (i : Z) : result Transition.t :=
  py_getitem (_buffer self) i.

End ExperienceReplay.

(** ** More NumPy: sums, searches and weighted choice *)

Definition np_sum (a : list Q) : Q := fold_right Qplus 0%Q a.

Fixpoint cumsum_from (acc : Q) (a : list Q) : list Q :=
  match a with
  | [] => []
  | x :: xs => (acc + x)%Q :: cumsum_from (acc + x)%Q xs
  end.

Definition np_cumsum (a : list Q) : list Q := cumsum_from 0%Q a.

(** [a.searchsorted(v, side='right')] on a sorted array: the number of
    leading entries that are [<= v]. *)
Fixpoint searchsorted_right (a : list Q) (v : Q) : nat :=
  match a with
  | [] => O
  | c :: a' => if Qle_bool c v then S (searchsorted_right a' v) else O
  end.

(** [np.unique(new, return_index=True)], the indices sorted, then [take]:
    the distinct values of [new] in order of first appearance. *)
Fixpoint unique_in_order (seen new : list nat) : list nat :=
  match new with
  | [] => []
  | i :: rest =>
      if existsb (Nat.eqb i) seen then unique_in_order seen rest
      else i :: unique_in_order (i :: seen) rest
  end.

(** [p[found] = 0]. *)
Definition zero_at (found : list nat) (p : list Q) : list Q :=
  fold_left (fun q i => <[i := 0%Q]> q) found p.

(** One draw of [RandomState.rand]: a float in [[0, 1)] with 53 random
    bits. *)
Definition uniform01 (r : N) : Q := (Z.of_N (r mod 2 ^ 53) # 2 ^ 53)%Q.

Fixpoint rand_from (k : nat) (g : RandomState) : list Q * RandomState :=
  match k with
  | O => ([], g)
  | S k' => let (r, g') := next_raw g in
            let (xs, g'') := rand_from k' g' in
            (uniform01 r :: xs, g'')
  end.

Definition np_random_rand {Self} (k : nat) : Method Self (list Q) :=
  fun s g => let (xs, g') := rand_from k g in (Ok xs, (s, g')).

(** The tolerance of [choice] on the sum of [p]: the square root of the
    double precision machine epsilon. *)
Definition choice_atol : Q := (1 # 2 ^ 26)%Q.

Definition count_positive (p : list Q) : nat :=
  length (List.filter (Qltb 0%Q) p).

(** The rejection loop of [RandomState.choice(a, size, replace=False, p=p)]:
    draw the missing number of uniforms, zero the weights already found,
    invert the renormalised cumulative sums and keep the new distinct
    indices. *)
Fixpoint choice_loop {Self} (fuel : nat) (size : nat) (p : list Q)
    (found : list nat) : Method Self (list nat) :=
  match fuel with
  | O => raise FuelExhausted
  | S fuel' =>
      if (length found <? size)%nat then
        (x <- np_random_rand (size - length found) ;;
         let p := if (0 <? length found)%nat then zero_at found p else p in
         let cdf := np_cumsum p in
         let cdf := map (fun c => (c / List.last cdf 0)%Q) cdf in
         let new := map (searchsorted_right cdf) x in
         let new := unique_in_order [] new in
         choice_loop fuel' size p (found ++ new))%method
      else ret found
  end.

(** [np.random.choice(a, size, p=p, replace=False)] for an integer
    population [a]. *)
Definition np_random_choice {Self} (a size : Z) (p : list Q) : Method Self (list Z) :=
  if (a <=? 0) && negb (size =? 0) then raise ValueError
  else if negb (Z.of_nat (length p) =? a) then raise ValueError
  else if existsb (fun x => Qltb x 0%Q) p then raise ValueError
  else if Qltb choice_atol (Qabs (np_sum p - 1)) then raise ValueError
  else if a <? size then raise ValueError
  else if size <? 0 then raise ValueError
  else if Z.of_nat (count_positive p) <? size then raise ValueError
  else (found <- choice_loop (S (Z.to_nat size)) (Z.to_nat size) p [] ;;
        ret (map Z.of_nat found))%method.

(** [a[indices] = values] for one-dimensional arrays: [values] has the
    length of [indices] or length one (broadcast); every index is checked
    before anything is stored; the assignments then happen in order, so the
    last one wins on a repeated index. *)
Fixpoint resolve_indices (n : nat) (indices : list Z) : result (list nat) :=
  match indices with
  | [] => Ok []
  | i :: rest =>
      match py_index n i with
      | None => Raise IndexError
      | Some k =>
          match resolve_indices n rest with
          | Raise e => Raise e
          | Ok ks => Ok (k :: ks)
          end
      end
  end.

Definition broadcast_to {A} (n : nat) (values : list A) : result (list A) :=
  if (length values =? n)%nat then Ok values
  else match values with
       | [v] => Ok (repeat v n)
       | _ => Raise ValueError
       end.

Fixpoint assign_all {A} (a : list A) (ks : list nat) (vs : list A) : list A :=
  match ks, vs with
  | k :: ks', v :: vs' => assign_all (<[k := v]> a) ks' vs'
  | _, _ => a
  end.

Definition np_setitem {A} (a : list A) (indices : list Z) (values : list A)
  : result (list A) :=
  match broadcast_to (length indices) values with
  | Raise e => Raise e
  | Ok vs =>
      match resolve_indices (length a) indices with
      | Raise e => Raise e
      | Ok ks => Ok (assign_all a ks vs)
      end
  end.

(** ** The prioritized replay memory *)

Module PrioritizedExperienceReplay.

Record t : Type := mk {
  size : Z;
  batch_size : Z;
  current_size : Z;
  _buffer : list Transition.t;
  priorities : list Q;
  prob_alpha : Q;
  epsilon : Q
}.

(** [super().__init__] is [ExperienceReplay.__init__]; its attributes are
    kept, [_buffer] is replaced by an empty list and [size] by
    [int(size)]. *)
Definition __init__ (size batch_size : Z) (prob_alpha epsilon : Q)
  : result t :=
  match ExperienceReplay.__init__ size batch_size with
  | Raise e => Raise e
  | Ok base =>
      Ok (mk size (ExperienceReplay.batch_size base)
             (ExperienceReplay.current_size base) [] [] prob_alpha epsilon)
  end.

(** No path of [append] raises after having assigned: the only calls that
    can raise are [np.argmin] and the store into [_buffer], both before
    the first assignment of the second branch. *)
Definition append (self : t) (transition : Transition.t) : result t :=
  if current_size self <? size self then
    let buffer' := _buffer self ++ [transition] in
    match (if (length (priorities self) =? 0)%nat then Ok (epsilon self)
           else np_max (priorities self)) with
    | Raise e => Raise e
    | Ok p =>
        Ok (mk (size self) (batch_size self) (Z.of_nat (length buffer'))
               buffer' (priorities self ++ [p])
               (prob_alpha self) (epsilon self))
    end
  else
    match np_argmin (priorities self) with
    | Raise e => Raise e
    | Ok idx =>
        if (idx <? length (_buffer self))%nat then
          let buffer' := <[idx := transition]> (_buffer self) in
          match np_max (priorities self) with
          | Raise e => Raise e
          | Ok m =>
              Ok (mk (size self) (batch_size self)
                     (Z.of_nat (length buffer')) buffer'
                     (<[idx := m]> (priorities self))
                     (prob_alpha self) (epsilon self))
          end
        else Raise IndexError
    end.

Definition update_priorities (self : t) (indices : list Z)
    (abs_errors : list Q) : result t :=
  match np_setitem (priorities self) indices
          (map (fun e => (e + epsilon self)%Q) abs_errors) with
  | Raise e => Raise e
  | Ok priorities' =>
      Ok (mk (size self) (batch_size self) (current_size self)
             (_buffer self) priorities' (prob_alpha self) (epsilon self))
  end.

Section Sampling.

(** NumPy's elementwise [x ** a] on floats. *)
Variable float_power : Q -> Q -> Q.

(** [probs] after [probs /= probs.sum()]. *)
Definition sampling_probs (self : t) : list Q :=
  let probs := map (fun p => float_power p (prob_alpha self))
                   (priorities self) in
  map (fun w => (w / np_sum probs)%Q) probs.

(** [**] allocates the array [probs]; the in-place division acts on that
    fresh array, not on [self.priorities]. *)
Definition get_sample_indices : Method t (list Z) :=
  (self <- get_self ;;
   let probs := sampling_probs self in
   np_random_choice (Z.of_nat (length (_buffer self))) (batch_size self)
                    probs)%method.

End Sampling.

(** Inherited from [ExperienceReplay]. *)
Definition get_sample (indices : list Z) : Method t Batch :=
  (self <- get_self ;;
   lift_result
     (ExperienceReplay.gather (_buffer self) indices
        (mkBatch [] [] [] [] [])))%method.

Definition __len__ (self : t) : Z := Z.of_nat (length (_buffer self)).

Definition __getitem__ (self : t) (i : Z) : result Transition.t :=
  py_getitem (_buffer self) i.

End PrioritizedExperienceReplay.

(** ** TensorFlow primitives used by the agent

    A row of per-action values is never empty: it is its first entry and
    the list of the others. *)

Definition Row : Type := (Q * list Q)%type.

Definition row_list (row : Row) : list Q := fst row :: snd row.

(** [tf.math.reduce_max(q, axis=1)] on one row. *)
Definition reduce_max (row : Row) : Q := fold_left Qmaxb (snd row) (fst row).

(** [tf.math.argmax(q, axis=1)] on one row: the first maximal index. *)
Fixpoint argmax_from (xs : list Q) (i best : nat) (m : Q) : nat :=
  match xs with
  | [] => best
  | y :: ys => if Qltb m y then argmax_from ys (S i) i y
               else argmax_from ys (S i) best m
  end.

Definition tf_argmax (row : Row) : Z :=
  Z.of_nat (argmax_from (snd row) 1 0 (fst row)).

(** [tf.one_hot(index, depth, 1.0, 0.0)]. *)
Definition one_hot (index depth : Z) : list Q :=
  map (fun k => if Z.of_nat k =? index then 1%Q else 0%Q)
      (seq 0 (Z.to_nat depth)).

(** [tf.reduce_sum(a * b, axis=1)] on one row. *)
Fixpoint reduce_sum_mul (a b : list Q) : Q :=
  match a, b with
  | x :: a', y :: b' => (x * y + reduce_sum_mul a' b')%Q
  | _, _ => 0%Q
  end.

(** [tf.cast(done, tf.float32)]. *)
Definition cast_bool (b : bool) : Q := if b then 1%Q else 0%Q.

(** [rewards + gamma * next_state_max_q * (1.0 - tf.cast(dones, tf.float32))],
    elementwise over the batch. *)
Fixpoint bootstrap (gamma : Q) (rewards next_state_max_q : list Q)
    (dones : list bool) : list Q :=
  match rewards, next_state_max_q, dones with
  | r :: rs, m :: ms, d :: ds =>
      (r + gamma * m * (1 - cast_bool d))%Q :: bootstrap gamma rs ms ds
  | _, _, _ => []
  end.

(** ** The agent of [dqn_v2.py] *)

Module Agent.

(** One entry per completed iteration of the inner loop of [train]: the
    value of [total_step] during the iteration, the number of stored
    transitions after the store, and whether [update_main_q_network] and
    [update_target_network] were called.  The entries are only observed by
    the theorems; the loop never reads them. *)
Record StepRecord : Type := mkStepRecord {
  at_step : Z;
  stored : Z;
  learned : bool;
  synced : bool
}.

Section Collaborators.

(** The network [DQNNetwork] and the environment [GameEnv] are not part
    of the agent: weights, forward pass, loss, the gradient step
    (gradient tape, clipping and [Adam.apply_gradients]) and the
    environment are parameters. *)
Variable Params : Type.
Variable forward : Params -> Frame -> Row.
Variable huber : list Q -> list Q -> Q.
Variable optimizer_step :
  Params -> list Frame -> list Z -> list Q -> Params.
Variable Env : Type.
Variable env_reset : Env -> Frame * Env.
Variable env_step : Env -> Z -> (Frame * Q * bool) * Env.

Record t : Type := mk {
  env : Env;
  n_actions : Z;
  gamma : Q;
  batch_size : Z;
  update_frequency : Z;
  target_network_update_freq : Z;
  memory : ExperienceReplay.t;
  model : Params;
  target_network : Params;
  epsilon_start : Q;
  epsilon_end : Q;
  epsilon_decay_steps : Z;
  replay_start_size : Z;
  training_frames : Z
}.

Definition __init__ (env0 : Env) (n : Z) (weights target_weights : Params)
  : result t :=
  match ExperienceReplay.__init__ 200 32 with
  | Raise e => Raise e
  | Ok mem =>
      let (_, env1) := env_reset env0 in
      let (_, env2) := env_step env1 0 in
      Ok (mk env2 n (99 # 100) 32 4 1000 mem weights target_weights
             1 (2 # 100) 1000000 250 10000000)
  end.

Definition terminal_eps_default : Q := 1 # 100.
Definition terminal_frame_factor_default : Z := 25.

Definition get_eps (self : t) (current_step : Q) (terminal_eps : Q)
    (terminal_frame_factor : Z) : Q :=
  let terminal_eps_frame := epsilon_decay_steps self * terminal_frame_factor in
  if Qltb current_step (inject_Z (replay_start_size self)) then
    epsilon_start self
  else if Qltb current_step (inject_Z (epsilon_decay_steps self)) then
    ((epsilon_end self - epsilon_start self)
     / (inject_Z (epsilon_decay_steps self)
        - inject_Z (replay_start_size self))
     * (current_step - inject_Z (replay_start_size self))
     + epsilon_start self)%Q
  else if Qltb current_step (inject_Z terminal_eps_frame) then
    ((terminal_eps - epsilon_end self)
     / (inject_Z terminal_eps_frame - inject_Z (epsilon_decay_steps self))
     * (current_step - inject_Z (epsilon_decay_steps self))
     + epsilon_end self)%Q
  else terminal_eps.

(** [expected_q] of [update_main_q_network]. *)
Definition expected_q (self : t) (batch : Batch) : list Q :=
  let next_state_q := map (forward (target_network self)) (new_states batch) in
  let next_state_max_q := map reduce_max next_state_q in
  bootstrap (gamma self) (rewards batch) next_state_max_q (dones batch).

Definition main_q (self : t) (batch : Batch) : list Q :=
  map (fun sa : Frame * Z =>
         reduce_sum_mul (row_list (forward (model self) (fst sa)))
                        (one_hot (snd sa) (n_actions self)))
      (combine (states batch) (actions batch)).

Definition with_model (self : t) (weights : Params) : t :=
  mk (env self) (n_actions self) (gamma self) (batch_size self)
     (update_frequency self) (target_network_update_freq self)
     (memory self) weights (target_network self) (epsilon_start self)
     (epsilon_end self) (epsilon_decay_steps self)
     (replay_start_size self) (training_frames self).

Definition with_target_network (self : t) (weights : Params) : t :=
  mk (env self) (n_actions self) (gamma self) (batch_size self)
     (update_frequency self) (target_network_update_freq self)
     (memory self) (model self) weights (epsilon_start self)
     (epsilon_end self) (epsilon_decay_steps self)
     (replay_start_size self) (training_frames self).

Definition with_memory (self : t) (mem : ExperienceReplay.t) : t :=
  mk (env self) (n_actions self) (gamma self) (batch_size self)
     (update_frequency self) (target_network_update_freq self)
     mem (model self) (target_network self) (epsilon_start self)
     (epsilon_end self) (epsilon_decay_steps self)
     (replay_start_size self) (training_frames self).

Definition with_env (self : t) (e : Env) : t :=
  mk e (n_actions self) (gamma self) (batch_size self)
     (update_frequency self) (target_network_update_freq self)
     (memory self) (model self) (target_network self) (epsilon_start self)
     (epsilon_end self) (epsilon_decay_steps self)
     (replay_start_size self) (training_frames self).

(** Returns the loss; the weights of [model] take one gradient step
    towards the targets, which are constants of the differentiation. *)
Definition update_main_q_network (batch : Batch) : Method t Q :=
  (self <- get_self ;;
   let targets := expected_q self batch in
   let loss := huber targets (main_q self batch) in
   put_self (with_model self
               (optimizer_step (model self) (states batch) (actions batch)
                               targets)) ;;;
   ret loss)%method.

Definition update_target_network : Method t unit :=
  (self <- get_self ;;
   put_self (with_target_network self (model self)))%method.

(** [tf.random.uniform] draws from the same explicit generator as NumPy:
    the entropy sequence is arbitrary, so nothing is lost. *)
Definition get_action (state : Frame) (exploration_rate : Q) : Method t Z :=
  (self <- get_self ;;
   u <- np_random_rand 1 ;;
   if Qltb (hd 0%Q u) exploration_rate then
     np_random_randint 0 (n_actions self)
   else ret (tf_argmax (forward (model self) state)))%method.

(** The locals of [train] together with the agent. *)
Record Run : Type := mkRun {
  self : t;
  total_step : Z;
  episode : Z;
  state : Frame;
  done : bool;
  episode_score : Q;
  history : list StepRecord
}.

Definition on_self {A} (m : Method t A) : Method Run A :=
  fun r g =>
    let '(res, (a, g')) := m (self r) g in
    (res, (mkRun a (total_step r) (episode r) (state r) (done r)
                 (episode_score r) (history r), g')).

Definition on_memory {A} (m : Method ExperienceReplay.t A) : Method t A :=
  fun a g =>
    let '(res, (mem, g')) := m (memory a) g in
    (res, (with_memory a mem, g')).

Definition memory_append (transition : Transition.t)
  : Method ExperienceReplay.t unit :=
  fun mem g => (Ok tt, (ExperienceReplay.append mem transition, g)).

Definition env_step_call (action : Z) : Method t (Frame * Q * bool) :=
  fun a g =>
    let (obs, e) := env_step (env a) action in
    (Ok obs, (with_env a e, g)).

Definition env_reset_call : Method t Frame :=
  fun a g =>
    let (obs, e) := env_reset (env a) in
    (Ok obs, (with_env a e, g)).

Definition modify (f : Run -> Run) : Method Run unit :=
  fun r g => (Ok tt, (f r, g)).

(** [(total_step % freq == 0) and (total_step > self.replay_start_size)];
    [%] raises on a zero divisor. *)
Definition due (freq : Z) (self : t) (total_step : Z) : result bool :=
  if freq =? 0 then Raise ZeroDivisionError
  else Ok ((total_step mod freq =? 0)
           && (replay_start_size self <? total_step)).

(** The body of [while not done].  Rendering, printing, metrics, weight
    saving and the counter [episode_step], which nothing reads, are left
    out. *)
Definition step_body : Method Run unit :=
  (r <- get_self ;;
   let eps := get_eps (self r) (inject_Z (total_step r))
                      terminal_eps_default terminal_frame_factor_default in
   action <- on_self (get_action (state r) eps) ;;
   obs <- on_self (env_step_call action) ;;
   let '(next_state, reward, done') := obs in
   modify (fun r => mkRun (self r) (total_step r) (episode r) (state r)
                          done' (episode_score r + reward)%Q (history r)) ;;;
   on_self (on_memory
              (memory_append
                 (Transition.mk (state r) action reward done' next_state))) ;;;
   modify (fun r => mkRun (self r) (total_step r) (episode r) next_state
                          (done r) (episode_score r) (history r)) ;;;
   learn <- lift_result (due (update_frequency (self r)) (self r)
                             (total_step r)) ;;
   (if learn : bool then
      indices <- on_self (on_memory ExperienceReplay.get_sample_indices) ;;
      batch <- on_self (on_memory (ExperienceReplay.get_sample indices)) ;;
      on_self (update_main_q_network batch) ;;; ret tt
    else ret tt) ;;;
   sync <- lift_result (due (target_network_update_freq (self r)) (self r)
                            (total_step r)) ;;
   (if sync : bool then on_self update_target_network else ret tt) ;;;
   modify (fun r' =>
             mkRun (self r') (total_step r' + 1)
                   (if done r' then episode r' + 1 else episode r')
                   (state r') (done r') (episode_score r')
                   (history r' ++
                    [mkStepRecord (total_step r')
                       (ExperienceReplay.__len__ (memory (self r')))
                       learn sync])))%method.

Fixpoint episode_loop (fuel : nat) : Method Run unit :=
  match fuel with
  | O => raise FuelExhausted
  | S fuel' =>
      (r <- get_self ;;
       if negb (done r) then step_body ;;; episode_loop fuel'
       else ret tt)%method
  end.

Fixpoint train_loop (fuel inner : nat) : Method Run unit :=
  match fuel with
  | O => raise FuelExhausted
  | S fuel' =>
      (r <- get_self ;;
       if total_step r <? training_frames (self r) then
         first <- on_self env_reset_call ;;
         modify (fun r => mkRun (self r) (total_step r) (episode r) first
                                false 0%Q (history r)) ;;;
         episode_loop inner ;;;
         train_loop fuel' inner
       else ret tt)%method
  end.

(** [train]: [fuel] bounds the number of episodes and [inner] the length
    of each. *)
Definition train (fuel inner : nat) (agent : t) (g : RandomState)
  : result unit * (Run * RandomState) :=
  train_loop fuel inner (mkRun agent 0 0 [] false 0%Q []) g.

End Collaborators.

Arguments env {Params Env} _.
Arguments n_actions {Params Env} _.
Arguments gamma {Params Env} _.
Arguments batch_size {Params Env} _.
Arguments update_frequency {Params Env} _.
Arguments target_network_update_freq {Params Env} _.
Arguments memory {Params Env} _.
Arguments model {Params Env} _.
Arguments target_network {Params Env} _.
Arguments epsilon_start {Params Env} _.
Arguments epsilon_end {Params Env} _.
Arguments epsilon_decay_steps {Params Env} _.
Arguments replay_start_size {Params Env} _.
Arguments training_frames {Params Env} _.
Arguments self {Params Env} _.
Arguments total_step {Params Env} _.
Arguments episode {Params Env} _.
Arguments state {Params Env} _.
Arguments done {Params Env} _.
Arguments episode_score {Params Env} _.
Arguments history {Params Env} _.
Arguments mk {Params Env}.
Arguments mkRun {Params Env}.
Arguments __init__ {Params Env}.
Arguments get_eps {Params Env}.
Arguments expected_q {Params} forward {Env}.
Arguments main_q {Params} forward {Env}.
Arguments with_model {Params Env}.
Arguments with_target_network {Params Env}.
Arguments with_memory {Params Env}.
Arguments with_env {Params Env}.
Arguments update_main_q_network {Params} forward huber optimizer_step {Env}.
Arguments update_target_network {Params Env}.
Arguments get_action {Params} forward {Env}.
Arguments on_self {Params Env A}.
Arguments on_memory {Params Env A}.
Arguments env_step_call {Params Env}.
Arguments env_reset_call {Params Env}.
Arguments modify {Params Env}.
Arguments due {Params Env}.
Arguments step_body {Params} forward huber optimizer_step {Env}.
Arguments episode_loop {Params} forward huber optimizer_step {Env}.
Arguments train_loop {Params} forward huber optimizer_step {Env}.
Arguments train {Params} forward huber optimizer_step {Env}.

End Agent.

(** * Environment wrappers ([DeepAgent/utils/game.py])

    Each wrapper holds the environment it wraps.  That environment is a
    parameter: a state [Env], [reset] returning the first observation and
    [step] returning observation, reward, [done] and [info].  Observations
    are kept abstract; the rendering and the [observation_space] metadata
    are left out. *)

(** [range(n)]. *)
Definition py_range (n : Z) : list Z := map Z.of_nat (seq 0 (Z.to_nat n)).

(** The result of a method that ends in [assert]. *)
Inductive asserted (A : Type) : Type :=
| Passed (a : A)
| AssertionError.

Arguments Passed {A} a.
Arguments AssertionError {A}.

Module StepLimit.

Section Wrapped.

Variables Env Obs Info : Type.
Variable env_reset : Env -> Obs * Env.
Variable env_step : Env -> Z -> (Obs * Q * bool * Info) * Env.

Record t : Type := mk {
  env : Env;
  limit : Z;
  step_count : Z
}.

Definition __init__ (env0 : Env) (limit0 : Z) : t := mk env0 limit0 0.

Definition reset (self : t) : Obs * t :=
  let (observation, e) := env_reset (env self) in
  (observation, mk e (limit self) 0).

Definition step (self : t) (action : Z) : (Obs * Q * bool * Info) * t :=
  let '((observation, reward, done, info), e) := env_step (env self) action in
  let step_count' := step_count self + 1 in
  let done := if limit self <=? step_count' then true else done in
  ((observation, reward, done, info), mk e (limit self) step_count').

End Wrapped.

Arguments env {Env} _.
Arguments limit {Env} _.
Arguments step_count {Env} _.
Arguments mk {Env} _ _ _.
Arguments __init__ {Env} _ _.
Arguments reset {Env Obs} _ _.
Arguments step {Env Obs Info} _ _ _.

End StepLimit.

Module StackFrame.

Section Wrapped.

Variables Env Obs Info : Type.
Variable env_reset : Env -> Obs * Env.
Variable env_step : Env -> Z -> (Obs * Q * bool * Info) * Env.

Record t : Type := mk {
  env : Env;
  frame_stack : Z;
  frames : list Obs
}.

(** [deque([], maxlen=frame_stack)] raises [ValueError] for a negative
    bound. *)
Definition __init__ (env0 : Env) (frame_stack0 : Z) : result t :=
  if frame_stack0 <? 0 then Raise ValueError
  else Ok (mk env0 frame_stack0 []).

(** [LazyFrames(list(self.frames))]: the frames, oldest first. *)
Definition _get_ob (self : t) : asserted (list Obs) :=
  if Z.of_nat (length (frames self)) =? frame_stack self
  then Passed (frames self)
  else AssertionError.

(** [for _ in range(n): self.frames.append(ob)]. *)
Fixpoint append_times (n : nat) (maxlen : Z) (d : list Obs) (ob : Obs)
  : list Obs :=
  match n with
  | O => d
  | S n' => append_times n' maxlen (deque_append maxlen d ob) ob
  end.

Definition reset (self : t) : asserted (list Obs) * t :=
  let (ob, e) := env_reset (env self) in
  let self' :=
    mk e (frame_stack self)
       (append_times (Z.to_nat (frame_stack self)) (frame_stack self)
                     (frames self) ob) in
  (_get_ob self', self').

Definition step (self : t) (action : Z)
  : asserted (list Obs * Q * bool * Info) * t :=
  let '((ob, reward, done, info), e) := env_step (env self) action in
  let self' :=
    mk e (frame_stack self)
       (deque_append (frame_stack self) (frames self) ob) in
  (match _get_ob self' with
   | Passed obs => Passed (obs, reward, done, info)
   | AssertionError => AssertionError
   end, self').

End Wrapped.

Arguments env {Env Obs} _.
Arguments frame_stack {Env Obs} _.
Arguments frames {Env Obs} _.
Arguments mk {Env Obs} _ _ _.
Arguments __init__ {Env Obs} _ _.
Arguments _get_ob {Env Obs} _.
Arguments append_times {Obs} _ _ _ _.
Arguments reset {Env Obs} _ _.
Arguments step {Env Obs Info} _ _ _.

End StackFrame.

Module MaxAndSkip.

Section Wrapped.

Variables Env Obs Info : Type.
Variable env_reset : Env -> Obs * Env.
Variable env_step : Env -> Z -> (Obs * Q * bool * Info) * Env.

(** [np.zeros(shape, dtype=np.uint8)] and [np.amax] over the two rows of
    [_obs_buffer].  The observations of the wrapped environment have the
    shape and type of a row, so that storing one keeps it as it is. *)
Variable zeros : Obs.
Variable amax : Obs -> Obs -> Obs.

Record t : Type := mk {
  env : Env;
  _obs_buffer : Obs * Obs;
  _skip : Z
}.

Definition __init__ (env0 : Env) (skip : Z) : t := mk env0 (zeros, zeros) skip.

(** The locals of [step]; [done] and [info] start as [None]. *)
Record Locals : Type := mkLocals {
  total_reward : Q;
  done : option bool;
  info : option Info
}.

(** [for i in range(self._skip)], left at the first [done]. *)
Fixpoint step_loop (indices : list Z) (action : Z) (self : t) (l : Locals)
  : Locals * t :=
  match indices with
  | [] => (l, self)
  | i :: rest =>
      let '((obs, reward, done', info'), e) := env_step (env self) action in
      let buffer := _obs_buffer self in
      let buffer := if i =? _skip self - 2 then (obs, snd buffer) else buffer in
      let buffer := if i =? _skip self - 1 then (fst buffer, obs) else buffer in
      let self' := mk e buffer (_skip self) in
      let l' := mkLocals (total_reward l + reward)%Q (Some done') (Some info') in
      if done' then (l', self') else step_loop rest action self' l'
  end.

Definition step (self : t) (action : Z)
  : (Obs * Q * option bool * option Info) * t :=
  let (l, self') :=
    step_loop (py_range (_skip self)) action self (mkLocals 0%Q None None) in
  let max_frame := amax (fst (_obs_buffer self')) (snd (_obs_buffer self')) in
  ((max_frame, total_reward l, done l, info l), self').

Definition reset (self : t) : Obs * t :=
  let (obs, e) := env_reset (env self) in
  (obs, mk e (_obs_buffer self) (_skip self)).

End Wrapped.

Arguments env {Env Obs} _.
Arguments _obs_buffer {Env Obs} _.
Arguments _skip {Env Obs} _.
Arguments total_reward {Info} _.
Arguments done {Info} _.
Arguments info {Info} _.
Arguments mk {Env Obs} _ _ _.
Arguments mkLocals {Info} _ _ _.
Arguments __init__ {Env Obs} _ _ _.
Arguments step_loop {Env Obs Info} _ _ _ _ _.
Arguments step {Env Obs Info} _ _ _ _.
Arguments reset {Env Obs} _ _.

End MaxAndSkip.

(** * Reward shaping ([atari_config.py]) *)

(** [np.sign] of a number. *)
Definition np_sign (x : Q) : Q :=
  if Qltb 0 x then 1%Q else if Qltb x 0 then (-1)%Q else 0%Q.

Definition demon_attack_reward (reward : Q) : Q :=
  let reward := np_sign reward in
  if Qltb 0 reward then (1 # 2)%Q else (reward - (1 # 10000000))%Q.

Definition pong_reward (reward : Q) : Q := np_sign reward.

(** * Vocabulary of the properties *)

(** ** Frames *)

(** A method is read-only when the object after the call is the object
    before it, whether the call returns or raises. *)
Definition read_only {Self A} (m : Method Self A) : Prop :=
  forall s g, self_after (m s g) = s.

(** A method keeps a view of the object when the view is the same after
    the call as before, whether the call returns or raises. *)
Definition keeps {Self A V} (view : Self -> V) (m : Method Self A) : Prop :=
  forall s g, view (self_after (m s g)) = view s.

(** ** Order *)

(** [m] is the largest entry of [a]. *)
Definition is_max (a : list Q) (m : Q) : Prop :=
  In m a /\ Forall (fun q => (q <= m)%Q) a.

(** [idx] is the first index holding the smallest entry of [a]. *)
Definition is_first_min (a : list Q) (idx : nat) : Prop :=
  exists p, a !! idx = Some p /\
    forall j q, a !! j = Some q ->
      (p <= q)%Q /\ ((j < idx)%nat -> (p < q)%Q).

(** ** Histories of a memory *)

(** The mutating calls of the prioritized memory. *)
Inductive call : Type :=
| Append (transition : Transition.t)
| UpdatePriorities (indices : list Z) (abs_errors : list Q).

(** The object after a call of the prioritized memory; a call that raises
    has assigned nothing. *)
Definition after_call (b : PrioritizedExperienceReplay.t) (c : call)
  : PrioritizedExperienceReplay.t :=
  match c with
  | Append transition =>
      match PrioritizedExperienceReplay.append b transition with
      | Ok b' => b'
      | Raise _ => b
      end
  | UpdatePriorities indices abs_errors =>
      match PrioritizedExperienceReplay.update_priorities b indices abs_errors with
      | Ok b' => b'
      | Raise _ => b
      end
  end.

Definition after_calls (b : PrioritizedExperienceReplay.t) (cs : list call)
  : PrioritizedExperienceReplay.t :=
  fold_left after_call cs b.

Definition after_appends (b : ExperienceReplay.t) (ts : list Transition.t)
  : ExperienceReplay.t :=
  fold_left ExperienceReplay.append ts b.

(** The invariant of the prioritized memory: [current_size] is the number
    of stored transitions, there is one priority per stored transition and
    the capacity is respected.  It holds after [__init__] and is kept by
    every call. *)
Record per_inv (b : PrioritizedExperienceReplay.t) : Prop := {
  inv_current_size :
    PrioritizedExperienceReplay.current_size b
    = Z.of_nat (length (PrioritizedExperienceReplay._buffer b));
  inv_priorities :
    length (PrioritizedExperienceReplay.priorities b)
    = length (PrioritizedExperienceReplay._buffer b);
  inv_capacity :
    Z.of_nat (length (PrioritizedExperienceReplay._buffer b))
    <= PrioritizedExperienceReplay.size b
}.

(** The abs errors handed to [update_priorities] are non-negative. *)
Definition nonneg_errors (c : call) : Prop :=
  match c with
  | Append _ => True
  | UpdatePriorities _ abs_errors => Forall (fun e => (0 <= e)%Q) abs_errors
  end.

(** No priority is below [epsilon]. *)
Definition above_floor (b : PrioritizedExperienceReplay.t) : Prop :=
  Forall (fun p => (PrioritizedExperienceReplay.epsilon b <= p)%Q)
         (PrioritizedExperienceReplay.priorities b).

(** ** Weighted choice *)

(** The index selected by a uniform variate [x] through the renormalised
    cumulative sums of the weights [p], as in [choice_loop]. *)
Definition inverse_cdf (p : list Q) (x : Q) : nat :=
  let cdf := np_cumsum p in
  searchsorted_right (map (fun c => (c / List.last cdf 0)%Q) cdf) x.

(** [x] falls in the [i]-th cell of the partition of [[0, 1)] by the
    partial sums of [p]; the cell has length [p_i]. *)
Definition in_cell (p : list Q) (x : Q) (i : nat) : Prop :=
  (np_sum (take i p) <= x < np_sum (take (S i) p))%Q.

(** ** Cadence of a training run *)

Section CadenceVocabulary.

Variables Params Env : Type.

(** The attributes the two gates read. *)
Definition cadence (a : Agent.t Params Env) : Z * Z * Z :=
  (Agent.update_frequency a, Agent.target_network_update_freq a,
   Agent.replay_start_size a).

(** What the cadence of a run is about. *)
Definition progress (r : Agent.Run Params Env)
  : Z * Z * Z * Z * list Agent.StepRecord :=
  (cadence (Agent.self r), Agent.total_step r, Agent.history r).

End CadenceVocabulary.

Arguments cadence {Params Env} _.
Arguments progress {Params Env} _.

(** The calls recorded for a step are the ones the gates on the step
    counter allow. *)
Definition gated (c : Z * Z * Z) (e : Agent.StepRecord) : Prop :=
  let '(update_frequency, target_sync_freq, replay_start_size) := c in
  update_frequency <> 0 /\ target_sync_freq <> 0 /\
  Agent.learned e
  = (Agent.at_step e mod update_frequency =? 0)
    && (replay_start_size <? Agent.at_step e) /\
  Agent.synced e
  = (Agent.at_step e mod target_sync_freq =? 0)
    && (replay_start_size <? Agent.at_step e).

(** The step counters [0, 1, ..., n - 1]. *)
Definition steps_upto (n : Z) : list Z := map Z.of_nat (seq 0 (Z.to_nat n)).

(** Every completed iteration is recorded, in order, and every record is
    gated. *)
Definition on_schedule (c : Z * Z * Z)
    (v : Z * Z * Z * Z * list Agent.StepRecord) : Prop :=
  let '(c', total_step, history) := v in
  c' = c /\ 0 <= total_step /\
  map Agent.at_step history = steps_upto total_step /\
  Forall (gated c) history.

(** ** Concrete inputs *)

Definition blank_transition : Transition.t := Transition.mk [] 0 0%Q false [].

Definition fresh_transition : Transition.t :=
  Transition.mk [1] 1 1%Q true [2].

(** A generator that yields the word [r] for ever. *)
Definition constant_entropy (r : N) : RandomState := mkRandomState (fun _ => r) 0.

(** [x ** a] for an integral exponent [a]. *)
Definition integral_power (x a : Q) : Q := (x ^ Qfloor a)%Q.

(** A full prioritized memory of capacity 3 with priorities
    [[0.1, 0.9, 0.5]]. *)
Definition spec_example_per : PrioritizedExperienceReplay.t :=
  PrioritizedExperienceReplay.mk 3 1 3
    [blank_transition; blank_transition; blank_transition]
    [1 # 10; 9 # 10; 5 # 10]%Q (6 # 10) (1 # 1000).

(** The same priorities with batch size 2 and [prob_alpha = 1]. *)
Definition sampling_example_per : PrioritizedExperienceReplay.t :=
  PrioritizedExperienceReplay.mk 3 2 3
    [blank_transition; fresh_transition; blank_transition]
    [1 # 10; 9 # 10; 5 # 10]%Q 1 (1 # 1000).

Definition example_calls : list call :=
  [Append blank_transition; UpdatePriorities [0] [1 # 2]%Q;
   Append fresh_transition; Append blank_transition].

(** A batch of one terminal transition. *)
Definition terminal_batch : Batch :=
  mkBatch [[0]] [1] [(1 # 2)%Q] [true] [[7]].

(** A network with constant output and no learning, and an environment
    whose observation is its step count and which never ends an episode. *)
Definition toy_forward (_ : unit) (_ : Frame) : Row := (0%Q, [1%Q; (1 # 2)%Q]).

Definition toy_huber (_ _ : list Q) : Q := 0%Q.

Definition toy_optimizer_step (w : unit) (_ : list Frame) (_ : list Z)
    (_ : list Q) : unit := w.

Definition toy_reset (e : nat) : Frame * nat := ([Z.of_nat e], e).

Definition toy_step (e : nat) (_ : Z) : (Frame * Q * bool) * nat :=
  (([Z.of_nat e], 0%Q, false), S e).

(** The agent [__init__] builds on the toy collaborators, from the
    environment state 0 and six actions. *)
Definition default_agent : Agent.t unit nat :=
  Agent.mk 1%nat 6 (99 # 100) 32 4 1000 (ExperienceReplay.mk 200 32 0 [])
           tt tt 1 (2 # 100) 1000000 250 10000000.

(** The locals of [train] after a run of the default agent. *)
Definition toy_train (fuel inner : nat) (entropy_word : N) : Agent.Run unit nat :=
  self_after (Agent.train toy_forward toy_huber toy_optimizer_step
                          toy_reset toy_step fuel inner default_agent
                          (constant_entropy entropy_word)).

(** ** More vocabulary *)

(** The last [n] entries of [l], in order (all of [l] when it is shorter). *)
Definition last_n {A} (n : nat) (l : list A) : list A :=
  drop (length l - n) l.

(** The transition a Python index denotes in a store, if any. *)
Definition item_at (buffer : list Transition.t) (index : Z)
  : option Transition.t :=
  py_index (length buffer) index ≫= (fun k => buffer !! k).

(** The batch [get_sample] stacks from a sequence of transitions. *)
Definition batch_of (items : list Transition.t) : Batch :=
  mkBatch (map Transition.state items) (map Transition.action items)
          (map Transition.reward items) (map Transition.done items)
          (map Transition.new_state items).

(** [idx] is the first index holding the largest entry of [a]. *)
Definition is_first_max (a : list Q) (idx : nat) : Prop :=
  exists p, a !! idx = Some p /\
    forall j q, a !! j = Some q ->
      (q <= p)%Q /\ ((j < idx)%nat -> (q < p)%Q).

(** The default agent with as many actions as [toy_forward] has values. *)
Definition three_action_agent : Agent.t unit nat :=
  Agent.mk 1%nat 3 (99 # 100) 32 4 1000 (ExperienceReplay.mk 200 32 0 [])
           tt tt 1 (2 # 100) 1000000 250 10000000.

(** ** Runs of the training loop *)

Section RunVocabulary.

Variables Params Env : Type.

(** The attributes of the agent that are set once in [__init__]. *)
Definition hyperparameters (a : Agent.t Params Env)
  : Z * Q * Z * Z * Z * Q * Q * Z * Z * Z * Z * Z :=
  (Agent.n_actions a, Agent.gamma a, Agent.batch_size a,
   Agent.update_frequency a, Agent.target_network_update_freq a,
   Agent.epsilon_start a, Agent.epsilon_end a, Agent.epsilon_decay_steps a,
   Agent.replay_start_size a, Agent.training_frames a,
   ExperienceReplay.size (Agent.memory a),
   ExperienceReplay.batch_size (Agent.memory a)).

(** What one iteration of [while not done] needs in order not to raise:
    non-zero periods for the two [%], a number of actions and a capacity
    that [np.random.randint] accepts, and, once the step counter has passed
    [replay_start_size], a memory that is full after the next store. *)
Definition ready (r : Agent.Run Params Env) : Prop :=
  let a := Agent.self r in
  Agent.update_frequency a <> 0 /\
  Agent.target_network_update_freq a <> 0 /\
  1 <= Agent.n_actions a <= int32_max + 1 /\
  0 < ExperienceReplay.size (Agent.memory a) <= int32_max + 1 /\
  (Agent.replay_start_size a < Agent.total_step r ->
   ExperienceReplay.size (Agent.memory a)
   <= ExperienceReplay.__len__ (Agent.memory a) + 1).

(** The effect of one iteration that took [action], from the locals and
    agent [r] to [r']: the environment answered [action]; the transition
    from the state before to the state after is stored; score, state,
    [done] and the counters are advanced; the iteration is recorded; the
    main network is untouched unless the iteration learned and the target
    network is a copy of the main one exactly when it synchronised. *)
Definition step_effect (env_step : Env -> Z -> (Frame * Q * bool) * Env)
    (r : Agent.Run Params Env) (action : Z) (r' : Agent.Run Params Env)
  : Prop :=
  let a := Agent.self r in
  let obs := env_step (Agent.env a) action in
  let next_state := fst (fst (fst obs)) in
  let reward := snd (fst (fst obs)) in
  let done' := snd (fst obs) in
  let transition :=
    Transition.mk (Agent.state r) action reward done' next_state in
  let learn := (Agent.total_step r mod Agent.update_frequency a =? 0)
               && (Agent.replay_start_size a <? Agent.total_step r) in
  let sync := (Agent.total_step r mod Agent.target_network_update_freq a =? 0)
              && (Agent.replay_start_size a <? Agent.total_step r) in
  Agent.memory (Agent.self r')
  = ExperienceReplay.append (Agent.memory a) transition /\
  Agent.env (Agent.self r') = snd obs /\
  hyperparameters (Agent.self r') = hyperparameters a /\
  Agent.total_step r' = Agent.total_step r + 1 /\
  Agent.episode r'
  = (if done' then Agent.episode r + 1 else Agent.episode r) /\
  Agent.state r' = next_state /\
  Agent.done r' = done' /\
  Agent.episode_score r' = (Agent.episode_score r + reward)%Q /\
  Agent.history r'
  = Agent.history r
    ++ [Agent.mkStepRecord (Agent.total_step r)
          (ExperienceReplay.__len__
             (ExperienceReplay.append (Agent.memory a) transition))
          learn sync] /\
  (learn = false -> Agent.model (Agent.self r') = Agent.model a) /\
  Agent.target_network (Agent.self r')
  = (if sync then Agent.model (Agent.self r')
     else Agent.target_network a).

(** The same for a whole run from [agent]: the memory is consistent and
    its capacity is reached by the first iteration that can learn. *)
Definition trainable (agent : Agent.t Params Env) : Prop :=
  let mem := Agent.memory agent in
  Agent.update_frequency agent <> 0 /\
  Agent.target_network_update_freq agent <> 0 /\
  1 <= Agent.n_actions agent <= int32_max + 1 /\
  0 < ExperienceReplay.size mem <= int32_max + 1 /\
  ExperienceReplay.__len__ mem <= ExperienceReplay.size mem /\
  ExperienceReplay.size mem
  <= ExperienceReplay.__len__ mem
     + Z.max 0 (Agent.replay_start_size agent + 1) + 1.

(** What holds between the iterations of a run from a trainable [agent]. *)
Definition run_inv (agent : Agent.t Params Env) (r : Agent.Run Params Env)
  : Prop :=
  let mem := Agent.memory agent in
  hyperparameters (Agent.self r) = hyperparameters agent /\
  0 <= Agent.total_step r /\
  ExperienceReplay.__len__ (Agent.memory (Agent.self r))
  = Z.min (ExperienceReplay.__len__ mem + Agent.total_step r)
          (ExperienceReplay.size mem) /\
  Forall (fun e => Agent.stored e
                   = Z.min (ExperienceReplay.__len__ mem + Agent.at_step e + 1)
                           (ExperienceReplay.size mem))
         (Agent.history r) /\
  (Agent.total_step r <= Agent.replay_start_size agent + 1 ->
   Agent.model (Agent.self r) = Agent.model agent /\
   Agent.target_network (Agent.self r) = Agent.target_network agent).

End RunVocabulary.

Arguments hyperparameters {Params Env} _.
Arguments ready {Params Env} _.
Arguments step_effect {Params Env} _ _ _ _.
Arguments trainable {Params Env} _.
Arguments run_inv {Params Env} _ _.

(** ** Traces of an environment *)

(** The answers of an environment, or of a wrapper around one, to a
    sequence of actions, and its state afterwards. *)
Fixpoint run_steps {W O} (step : W -> Z -> O * W) (w : W) (actions : list Z)
  : list O * W :=
  match actions with
  | [] => ([], w)
  | action :: rest =>
      let (o, w') := step w action in
      let (os, w'') := run_steps step w' rest in
      (o :: os, w'')
  end.

Section TraceVocabulary.

Variables Obs Info : Type.

Definition obs_of (o : Obs * Q * bool * Info) : Obs := fst (fst (fst o)).
Definition reward_of (o : Obs * Q * bool * Info) : Q := snd (fst (fst o)).
Definition done_of (o : Obs * Q * bool * Info) : bool := snd (fst o).
Definition info_of (o : Obs * Q * bool * Info) : Info := snd o.

(** The answers up to and including the first one with [done]. *)
Fixpoint until_done (trace : list (Obs * Q * bool * Info))
  : list (Obs * Q * bool * Info) :=
  match trace with
  | [] => []
  | o :: rest => if done_of o then [o] else o :: until_done rest
  end.

(** The observation of answer [k], counted from 0, and [default] when
    there is no such answer. *)
Definition obs_at (trace : list (Obs * Q * bool * Info)) (k : Z)
    (default : Obs) : Obs :=
  if k <? 0 then default
  else match trace !! Z.to_nat k with
       | Some o => obs_of o
       | None => default
       end.

End TraceVocabulary.

Arguments obs_of {Obs Info} _.
Arguments reward_of {Obs Info} _.
Arguments done_of {Obs Info} _.
Arguments info_of {Obs Info} _.
Arguments until_done {Obs Info} _.
Arguments obs_at {Obs Info} _ _ _.

(** A game that counts its steps: the observation is the number of steps
    since [reset], every step is rewarded 1 and the third one ends the
    episode. *)
Definition counting_reset (_ : nat) : Z * nat := (0, 0%nat).

Definition counting_step (e : nat) (_ : Z) : (Z * Q * bool * unit) * nat :=
  ((Z.of_nat (S e), 1%Q, Nat.eqb e 2, tt), S e).

(** * Properties *)

(** ** Methods that do not assign to the object *)

Lemma read_only_ret {Self A} (a : A) : read_only (@ret Self A a).
Proof. intros s g. reflexivity. Qed.

Lemma read_only_raise {Self A} (e : exn) : read_only (@raise Self A e).
Proof. intros s g. reflexivity. Qed.

Lemma read_only_get_self {Self} : read_only (@get_self Self).
Proof. intros s g. reflexivity. Qed.

Lemma read_only_lift_result {Self A} (r : result A) :
  read_only (@lift_result Self A r).
Proof. intros s g. reflexivity. Qed.

Lemma read_only_bind {Self A B} (m : Method Self A) (k : A -> Method Self B) :
  read_only m -> (forall a, read_only (k a)) -> read_only (bind m k).
Proof.
  intros Hm Hk s g. unfold bind.
  specialize (Hm s g). unfold self_after in *.
  destruct (m s g) as [[a | e] [s' g']]; simpl in *; subst.
  - apply Hk.
  - reflexivity.
Qed.

Lemma read_only_randint {Self} (low high : Z) :
  read_only (@np_random_randint Self low high).
Proof.
  intros s g. unfold np_random_randint.
  destruct (_ || _); reflexivity.
Qed.

Lemma read_only_rand {Self} (k : nat) : read_only (@np_random_rand Self k).
Proof.
  intros s g. unfold np_random_rand.
  destruct (rand_from k g). reflexivity.
Qed.

Create HintDb frame.
#[local] Hint Resolve read_only_ret read_only_raise read_only_get_self
  read_only_lift_result read_only_randint read_only_rand : frame.

Ltac frame_step :=
  first [ apply read_only_bind; [ | intros ? ]
        | match goal with |- read_only (if ?c then _ else _) => destruct c end
        | solve [ auto with frame ] ].

Lemma read_only_sample_loop (fuel : nat) (indices : list Z) :
  read_only (ExperienceReplay.sample_loop fuel indices).
Proof.
  revert indices. induction fuel as [| fuel IH]; intros indices; simpl.
  - auto with frame.
  - repeat frame_step.
Qed.

Lemma read_only_choice_loop {Self} (fuel size : nat) (p : list Q)
    (found : list nat) :
  read_only (@choice_loop Self fuel size p found).
Proof.
  revert p found. induction fuel as [| fuel IH]; intros p found; simpl.
  - auto with frame.
  - repeat frame_step.
Qed.

Lemma read_only_choice {Self} (a size : Z) (p : list Q) :
  read_only (@np_random_choice Self a size p).
Proof.
  unfold np_random_choice.
  repeat frame_step; apply read_only_choice_loop.
Qed.

#[local] Hint Resolve read_only_sample_loop read_only_choice_loop
  read_only_choice : frame.

Lemma read_only_apply {Self A} (m : Method Self A) (s : Self) (g : RandomState) :
  read_only m -> self_after (m s g) = s.
Proof. intros H. apply H. Qed.

(** C10.  Sampling never assigns to the memory: after
    [get_sample_indices] or [get_sample], on either variant and whether the
    call returns or raises, the object (capacity, batch size,
    [current_size], the stored transitions in their order and, for the
    prioritized variant, the priorities) is the one before the call. *)
Theorem sampling_leaves_memory_unchanged :
  (forall b g,
     self_after (ExperienceReplay.get_sample_indices b g) = b) /\
  (forall indices b g,
     self_after (ExperienceReplay.get_sample indices b g) = b) /\
  (forall float_power b g,
     self_after
       (PrioritizedExperienceReplay.get_sample_indices float_power b g) = b) /\
  (forall indices b g,
     self_after (PrioritizedExperienceReplay.get_sample indices b g) = b).
Proof.
  repeat split; intros; apply read_only_apply;
    unfold ExperienceReplay.get_sample_indices, ExperienceReplay.get_sample,
      PrioritizedExperienceReplay.get_sample_indices,
      PrioritizedExperienceReplay.get_sample;
    repeat frame_step.
Qed.

(** ** The uniform memory: what [get_sample_indices] draws from *)

Lemma randint_ok {Self} (low high : Z) (s : Self) (g : RandomState) :
  low < high -> int32_min <= low -> high <= int32_max + 1 ->
  np_random_randint low high s g
  = (Ok (low + Z.of_N (entropy g (cursor g)) mod (high - low)),
     (s, mkRandomState (entropy g) (S (cursor g)))).
Proof.
  intros H1 H2 H3. unfold np_random_randint.
  replace ((high <=? low) || (low <? int32_min) || (int32_max + 1 <? high))
    with false; [reflexivity |].
  symmetry. rewrite !orb_false_iff. repeat split.
  - apply Z.leb_gt. lia.
  - apply Z.ltb_ge. lia.
  - apply Z.ltb_ge. lia.
Qed.

Lemma sample_loop_returns (fuel : nat) (indices : list Z)
    (b : ExperienceReplay.t) (g : RandomState) :
  0 < ExperienceReplay.size b <= int32_max + 1 ->
  (Z.to_nat (ExperienceReplay.batch_size b) - length indices < fuel)%nat ->
  Forall (fun i => 0 <= i < ExperienceReplay.size b) indices ->
  exists out g',
    ExperienceReplay.sample_loop fuel indices b g = (Ok out, (b, g')) /\
    Forall (fun i => 0 <= i < ExperienceReplay.size b) out /\
    Z.of_nat (length out)
    = Z.max (Z.of_nat (length indices)) (ExperienceReplay.batch_size b).
Proof.
  intros Hsize. revert indices g.
  induction fuel as [| fuel IH]; intros indices g Hfuel Hall; [lia |].
  simpl. unfold bind, get_self.
  destruct (Z.of_nat (length indices) <? ExperienceReplay.batch_size b) eqn:E.
  - apply Z.ltb_lt in E.
    rewrite randint_ok by (unfold int32_min; lia).
    pose proof (Z.mod_pos_bound (Z.of_N (entropy g (cursor g)))
                  (ExperienceReplay.size b - 0)) as Hr.
    match goal with
    | |- context [ExperienceReplay.sample_loop fuel ?l b ?g1] =>
        destruct (IH l g1) as (out & g' & Hrun & Hout & Hlen)
    end.
    + rewrite length_app. simpl. lia.
    + apply Forall_app. split; [assumption |]. constructor; [lia | constructor].
    + exists out, g'. repeat split; try assumption.
      rewrite Hlen, length_app. simpl. lia.
  - apply Z.ltb_ge in E. exists indices, g. repeat split; [assumption | lia].
Qed.

(** What the code does: [batch_size] indices, each in [[0, size)], the
    capacity, whatever the number of stored transitions. *)
Lemma uniform_indices_below_capacity (b : ExperienceReplay.t) (g : RandomState) :
  0 < ExperienceReplay.size b <= int32_max + 1 ->
  exists indices g',
    ExperienceReplay.get_sample_indices b g = (Ok indices, (b, g')) /\
    Forall (fun i => 0 <= i < ExperienceReplay.size b) indices /\
    Z.of_nat (length indices) = Z.max 0 (ExperienceReplay.batch_size b).
Proof.
  intros Hsize. unfold ExperienceReplay.get_sample_indices, bind, get_self.
  destruct (sample_loop_returns (S (Z.to_nat (ExperienceReplay.batch_size b)))
              [] b g Hsize) as (out & g' & Hrun & Hout & Hlen).
  - simpl. lia.
  - constructor.
  - exists out, g'. repeat split; assumption.
Qed.

(** C1 (the code departs from the specification).  A memory of capacity
    3 holding one transition ([current_size = 1]), batch size 1: when the
    generator yields 2, [get_sample_indices] returns the index 2, which is
    not in [[0, current_size)] and refers to no stored transition:
    [get_sample] raises [IndexError] on it. *)
Theorem uniform_sample_index_not_stored :
  exists b0 b g',
    ExperienceReplay.__init__ 3 1 = Ok b0 /\
    b = ExperienceReplay.append b0 blank_transition /\
    ExperienceReplay.current_size b = 1 /\
    ExperienceReplay.get_sample_indices b (constant_entropy 2)
    = (Ok [2], (b, g')) /\
    outcome (ExperienceReplay.get_sample [2] b g') = Raise IndexError.
Proof.
  eexists _, _, _. repeat split.
Qed.

(** ** Order facts about [np_max] and [np_argmin] *)

Lemma Qltb_lt (x y : Q) : Qltb x y = true <-> (x < y)%Q.
Proof.
  unfold Qltb. rewrite negb_true_iff. split; intros H.
  - apply Qnot_le_lt. intros Hle. apply Qle_bool_iff in Hle. congruence.
  - destruct (Qle_bool y x) eqn:E; [| reflexivity].
    apply Qle_bool_iff in E. lra.
Qed.

Lemma Qltb_ge (x y : Q) : Qltb x y = false <-> (y <= x)%Q.
Proof.
  unfold Qltb. rewrite negb_false_iff. apply Qle_bool_iff.
Qed.

Lemma fold_Qmaxb_max (xs : list Q) (x : Q) :
  is_max (x :: xs) (fold_left Qmaxb xs x).
Proof.
  revert x. induction xs as [| y ys IH]; intros x; simpl.
  - split; [left; reflexivity | constructor; [lra | constructor]].
  - destruct (IH (Qmaxb x y)) as [Hin Hall].
    inversion Hall as [| ? ? Hhd Htl]; subst.
    unfold Qmaxb in *. destruct (Qltb x y) eqn:E.
    + apply Qltb_lt in E. split.
      * destruct Hin as [<- | Hin]; [right; left; reflexivity | right; right; exact Hin].
      * constructor; [lra |]. constructor; assumption.
    + apply Qltb_ge in E. split.
      * destruct Hin as [<- | Hin]; [left; reflexivity | right; right; exact Hin].
      * constructor; [assumption |]. constructor; [lra | assumption].
Qed.

Lemma np_max_spec (a : list Q) :
  a <> [] -> exists m, np_max a = Ok m /\ is_max a m.
Proof.
  destruct a as [| x xs]; [congruence |]. intros _.
  eexists. split; [reflexivity | apply fold_Qmaxb_max].
Qed.

Lemma argmin_from_spec (xs : list Q) :
  forall (pre : list Q) (best : nat) (m : Q),
    pre !! best = Some m ->
    (forall j q, pre !! j = Some q ->
       (m <= q)%Q /\ ((j < best)%nat -> (m < q)%Q)) ->
    is_first_min (pre ++ xs) (argmin_from xs (length pre) best m).
Proof.
  induction xs as [| y ys IH]; intros pre best m Hbest Hmin; simpl.
  - rewrite app_nil_r. exists m. split; assumption.
  - replace (pre ++ y :: ys) with ((pre ++ [y]) ++ ys)
      by (rewrite <- app_assoc; reflexivity).
    replace (S (length pre)) with (length (pre ++ [y]))
      by (rewrite length_app; simpl; lia).
    pose proof (lookup_lt_Some _ _ _ Hbest) as Hlt.
    destruct (Qltb y m) eqn:E.
    + apply Qltb_lt in E. apply IH.
      * rewrite lookup_app_r by lia.
        replace (length pre - length pre)%nat with O by lia. reflexivity.
      * intros j q Hj.
        destruct (decide (j < length pre)%nat) as [Hjl | Hjl].
        -- rewrite lookup_app_l in Hj by assumption.
           destruct (Hmin j q Hj) as [Hle _]. split; [lra | intros _; lra].
        -- rewrite lookup_app_r in Hj by lia.
           destruct (j - length pre)%nat eqn:Ej; simpl in Hj; [| discriminate].
           injection Hj as <-. split; [lra | lia].
    + apply Qltb_ge in E. apply IH.
      * rewrite lookup_app_l by assumption. assumption.
      * intros j q Hj.
        destruct (decide (j < length pre)%nat) as [Hjl | Hjl].
        -- rewrite lookup_app_l in Hj by assumption. apply Hmin. assumption.
        -- rewrite lookup_app_r in Hj by lia.
           destruct (j - length pre)%nat eqn:Ej; simpl in Hj; [| discriminate].
           injection Hj as <-. split; [assumption | lia].
Qed.

Lemma np_argmin_spec (a : list Q) :
  a <> [] -> exists idx, np_argmin a = Ok idx /\ is_first_min a idx.
Proof.
  destruct a as [| x xs]; [congruence |]. intros _.
  eexists. split; [reflexivity |].
  apply (argmin_from_spec xs [x] 0%nat x); [reflexivity |].
  intros [| j] q Hj; simpl in Hj; [| discriminate].
  injection Hj as <-. split; [lra | lia].
Qed.

Lemma is_first_min_lt (a : list Q) (idx : nat) :
  is_first_min a idx -> (idx < length a)%nat.
Proof. intros (p & Hp & _). eapply lookup_lt_Some. eassumption. Qed.

(** ** The capacity invariant *)

Lemma deque_append_length {A} (maxlen : Z) (d : list A) (x : A) :
  0 <= maxlen -> Z.of_nat (length d) <= maxlen ->
  Z.of_nat (length (deque_append maxlen d x)) <= maxlen.
Proof.
  intros H0 Hd. unfold deque_append.
  destruct (maxlen <? Z.of_nat (length (d ++ [x]))) eqn:E.
  - rewrite length_app in E. simpl in E. apply Z.ltb_lt in E.
    destruct (d ++ [x]) as [| y l] eqn:El.
    + simpl. lia.
    + assert (length (y :: l) = S (length d)) as Hl
        by (rewrite <- El, length_app; simpl; lia).
      simpl in *. lia.
  - apply Z.ltb_ge in E. assumption.
Qed.

Lemma uniform_append_inv (b : ExperienceReplay.t) (tr : Transition.t) :
  0 <= ExperienceReplay.size b ->
  Z.of_nat (length (ExperienceReplay._buffer b)) <= ExperienceReplay.size b ->
  let b' := ExperienceReplay.append b tr in
  ExperienceReplay.size b' = ExperienceReplay.size b /\
  Z.of_nat (length (ExperienceReplay._buffer b')) <= ExperienceReplay.size b' /\
  ExperienceReplay.current_size b'
  = Z.of_nat (length (ExperienceReplay._buffer b')).
Proof.
  intros H0 Hle. simpl. repeat split.
  apply deque_append_length; assumption.
Qed.

Lemma uniform_appends_inv (ts : list Transition.t) (b : ExperienceReplay.t) :
  0 <= ExperienceReplay.size b ->
  Z.of_nat (length (ExperienceReplay._buffer b)) <= ExperienceReplay.size b ->
  let b' := after_appends b ts in
  ExperienceReplay.size b' = ExperienceReplay.size b /\
  Z.of_nat (length (ExperienceReplay._buffer b')) <= ExperienceReplay.size b'.
Proof.
  revert b. induction ts as [| tr ts IH]; intros b H0 Hle; simpl.
  - split; [reflexivity | assumption].
  - destruct (uniform_append_inv b tr H0 Hle) as (Hs & Hl & _).
    destruct (IH (ExperienceReplay.append b tr)) as [Hs' Hl'].
    + rewrite Hs. assumption.
    + assumption.
    + split; [rewrite Hs', Hs; reflexivity | assumption].
Qed.

Lemma per_append_inv (b : PrioritizedExperienceReplay.t) (tr : Transition.t) :
  per_inv b -> per_inv (after_call b (Append tr)).
Proof.
  intros [Hc Hp Hcap]. simpl. unfold PrioritizedExperienceReplay.append.
  destruct (PrioritizedExperienceReplay.current_size b
            <? PrioritizedExperienceReplay.size b) eqn:E.
  - apply Z.ltb_lt in E.
    destruct (if (length (PrioritizedExperienceReplay.priorities b) =? 0)%nat
              then Ok (PrioritizedExperienceReplay.epsilon b)
              else np_max (PrioritizedExperienceReplay.priorities b));
      [| split; assumption].
    split; simpl; rewrite ?length_app; simpl; lia.
  - destruct (np_argmin (PrioritizedExperienceReplay.priorities b));
      [| split; assumption].
    destruct (_ <? _)%nat; [| split; assumption].
    destruct (np_max (PrioritizedExperienceReplay.priorities b));
      [| split; assumption].
    split; simpl; rewrite ?length_insert; lia.
Qed.

Lemma assign_all_length {A} (ks : list nat) (vs a : list A) :
  length (assign_all a ks vs) = length a.
Proof.
  revert vs a. induction ks as [| k ks IH]; intros vs a; simpl; [reflexivity |].
  destruct vs as [| v vs]; [reflexivity |].
  rewrite IH. apply length_insert.
Qed.

Lemma np_setitem_length {A} (a : list A) (indices : list Z) (values a' : list A) :
  np_setitem a indices values = Ok a' -> length a' = length a.
Proof.
  unfold np_setitem.
  destruct (broadcast_to _ _); [| discriminate].
  destruct (resolve_indices _ _); [| discriminate].
  intros [= <-]. apply assign_all_length.
Qed.

Lemma per_update_inv (b : PrioritizedExperienceReplay.t) (indices : list Z)
    (abs_errors : list Q) :
  per_inv b -> per_inv (after_call b (UpdatePriorities indices abs_errors)).
Proof.
  intros [Hc Hp Hcap]. simpl.
  unfold PrioritizedExperienceReplay.update_priorities.
  destruct (np_setitem _ _ _) as [a' |] eqn:E; [| split; assumption].
  apply np_setitem_length in E.
  split; simpl; [assumption | lia | assumption].
Qed.

Lemma per_calls_inv (cs : list call) (b : PrioritizedExperienceReplay.t) :
  per_inv b -> per_inv (after_calls b cs).
Proof.
  revert b. induction cs as [| c cs IH]; intros b Hb; simpl; [assumption |].
  apply IH. destruct c; [apply per_append_inv | apply per_update_inv]; assumption.
Qed.

Lemma per_calls_size (cs : list call) (b : PrioritizedExperienceReplay.t) :
  PrioritizedExperienceReplay.size (after_calls b cs)
  = PrioritizedExperienceReplay.size b /\
  PrioritizedExperienceReplay.epsilon (after_calls b cs)
  = PrioritizedExperienceReplay.epsilon b /\
  PrioritizedExperienceReplay.prob_alpha (after_calls b cs)
  = PrioritizedExperienceReplay.prob_alpha b.
Proof.
  revert b. induction cs as [| c cs IH]; intros b; simpl; [auto |].
  destruct (IH (after_call b c)) as (-> & -> & ->).
  destruct c; simpl.
  - unfold PrioritizedExperienceReplay.append.
    destruct (_ <? _).
    + destruct (if (_ =? _)%nat then _ else _); simpl; auto.
    + destruct (np_argmin _); simpl; auto.
      destruct (_ <? _)%nat; simpl; auto.
      destruct (np_max _); simpl; auto.
  - unfold PrioritizedExperienceReplay.update_priorities.
    destruct (np_setitem _ _ _); simpl; auto.
Qed.

Lemma per_init_inv (size batch_size : Z) (alpha eps : Q)
    (b0 : PrioritizedExperienceReplay.t) :
  PrioritizedExperienceReplay.__init__ size batch_size alpha eps = Ok b0 ->
  per_inv b0 /\ PrioritizedExperienceReplay.size b0 = size /\
  PrioritizedExperienceReplay.epsilon b0 = eps /\
  PrioritizedExperienceReplay.priorities b0 = [].
Proof.
  unfold PrioritizedExperienceReplay.__init__, ExperienceReplay.__init__.
  destruct (size <? 0) eqn:E; [discriminate |].
  apply Z.ltb_ge in E. intros [= <-]. repeat split; simpl; auto.
Qed.

(** C3.  From construction on, whatever calls follow: the uniform memory
    never stores more transitions than the capacity given to [__init__];
    neither does the prioritized memory, whose priorities array has the
    length of the transition store after every [append] and every
    [update_priorities]. *)
Theorem capacity_invariant :
  (forall size batch_size b0 ts,
     ExperienceReplay.__init__ size batch_size = Ok b0 ->
     Z.of_nat (length (ExperienceReplay._buffer (after_appends b0 ts)))
     <= size) /\
  (forall size batch_size alpha eps b0 cs,
     PrioritizedExperienceReplay.__init__ size batch_size alpha eps = Ok b0 ->
     Z.of_nat (length (PrioritizedExperienceReplay._buffer (after_calls b0 cs)))
     <= size /\
     length (PrioritizedExperienceReplay.priorities (after_calls b0 cs))
     = length (PrioritizedExperienceReplay._buffer (after_calls b0 cs))).
Proof.
  split.
  - intros size batch_size b0 ts. unfold ExperienceReplay.__init__.
    destruct (size <? 0) eqn:E; [discriminate |].
    apply Z.ltb_ge in E. intros [= <-].
    destruct (uniform_appends_inv ts (ExperienceReplay.mk size batch_size 0 []))
      as [Hs Hl]; [simpl; lia | simpl; lia |].
    rewrite Hs in Hl. exact Hl.
  - intros size batch_size alpha eps b0 cs Hinit.
    destruct (per_init_inv _ _ _ _ _ Hinit) as (Hinv & Hsize & _).
    destruct (per_calls_inv cs b0 Hinv) as [_ Hp Hcap].
    destruct (per_calls_size cs b0) as (Hs & _).
    split; [lia | assumption].
Qed.

Lemma capacity_invariant_witness :
  (exists b0,
     ExperienceReplay.__init__ 2 1 = Ok b0 /\
     Z.of_nat (length (ExperienceReplay._buffer
                         (after_appends b0 [blank_transition; fresh_transition;
                                            blank_transition]))) <= 2) /\
  (exists b0,
     PrioritizedExperienceReplay.__init__ 2 1 1 (1 # 1000) = Ok b0 /\
     length (PrioritizedExperienceReplay.priorities
               (after_calls b0 example_calls))
     = length (PrioritizedExperienceReplay._buffer
                 (after_calls b0 example_calls))).
Proof.
  destruct capacity_invariant as [Huniform Hper].
  split.
  - eexists. split; [reflexivity |].
    apply (Huniform 2 1 _ _ eq_refl).
  - eexists. split; [reflexivity |].
    apply (Hper 2 1 1%Q (1 # 1000)%Q _ example_calls eq_refl).
Defined.

(** ** Insertion policy of the prioritized memory *)

(** C2.  In a state satisfying the invariant, with a positive capacity,
    [append] returns.  Under capacity the transition is added at the end
    with priority [epsilon] when the memory is empty and the largest
    priority present otherwise.  At capacity the transition replaces the
    one at the first index of smallest priority, and that slot receives the
    largest priority held before the overwrite.  Memory [[0.1, 0.9, 0.5]]
    of capacity 3: slot 0 is overwritten and gets priority 0.9. *)
Theorem per_append_policy :
  (forall b tr,
     per_inv b -> 0 < PrioritizedExperienceReplay.size b ->
     exists b',
       PrioritizedExperienceReplay.append b tr = Ok b' /\
       (PrioritizedExperienceReplay.current_size b
        < PrioritizedExperienceReplay.size b ->
        PrioritizedExperienceReplay._buffer b'
        = PrioritizedExperienceReplay._buffer b ++ [tr] /\
        exists p,
          PrioritizedExperienceReplay.priorities b'
          = PrioritizedExperienceReplay.priorities b ++ [p] /\
          (PrioritizedExperienceReplay._buffer b = [] ->
           p = PrioritizedExperienceReplay.epsilon b) /\
          (PrioritizedExperienceReplay._buffer b <> [] ->
           is_max (PrioritizedExperienceReplay.priorities b) p)) /\
       (PrioritizedExperienceReplay.size b
        <= PrioritizedExperienceReplay.current_size b ->
        exists idx m,
          is_first_min (PrioritizedExperienceReplay.priorities b) idx /\
          is_max (PrioritizedExperienceReplay.priorities b) m /\
          PrioritizedExperienceReplay._buffer b'
          = <[idx := tr]> (PrioritizedExperienceReplay._buffer b) /\
          PrioritizedExperienceReplay.priorities b'
          = <[idx := m]> (PrioritizedExperienceReplay.priorities b) /\
          PrioritizedExperienceReplay._buffer b' !! idx = Some tr /\
          PrioritizedExperienceReplay.priorities b' !! idx = Some m)) /\
  (exists b',
     PrioritizedExperienceReplay.append spec_example_per fresh_transition
     = Ok b' /\
     PrioritizedExperienceReplay._buffer b'
     = [fresh_transition; blank_transition; blank_transition] /\
     PrioritizedExperienceReplay.priorities b' = [9 # 10; 9 # 10; 5 # 10]%Q).
Proof.
  split; [| eexists; repeat split].
  intros b tr [Hc Hp Hcap] Hsize.
  unfold PrioritizedExperienceReplay.append.
  destruct (PrioritizedExperienceReplay.current_size b
            <? PrioritizedExperienceReplay.size b) eqn:E.
  - apply Z.ltb_lt in E.
    destruct (PrioritizedExperienceReplay.priorities b) as [| q qs] eqn:Eq.
    + simpl. eexists. split; [reflexivity |]. split; [| lia].
      intros _. simpl. split; [reflexivity |].
      exists (PrioritizedExperienceReplay.epsilon b).
      split; [reflexivity |]. split; [reflexivity |].
      intros Hne. simpl in Hp.
      destruct (PrioritizedExperienceReplay._buffer b); [congruence | discriminate].
    + destruct (np_max_spec (q :: qs)) as (m & Hm & Hmax); [discriminate |].
      cbn [length Nat.eqb]. rewrite Hm.
      eexists. split; [reflexivity |]. split; [| lia].
      intros _. simpl. split; [reflexivity |].
      exists m. split; [reflexivity |]. split; [| intros _; exact Hmax].
      intros Hnil. rewrite Hnil in Hp. discriminate.
  - apply Z.ltb_ge in E.
    assert (PrioritizedExperienceReplay.priorities b <> []) as Hne.
    { intros Hnil. rewrite Hnil in Hp. simpl in Hp. lia. }
    destruct (np_argmin_spec _ Hne) as (idx & Hidx & Hmin).
    destruct (np_max_spec _ Hne) as (m & Hm & Hmax).
    pose proof (is_first_min_lt _ _ Hmin) as Hlt.
    rewrite Hidx, Hm.
    replace (idx <? length (PrioritizedExperienceReplay._buffer b))%nat
      with true by (symmetry; apply Nat.ltb_lt; lia).
    eexists. split; [reflexivity |]. split; [lia |].
    intros _. exists idx, m. simpl. repeat split; try assumption;
      try apply Hmax.
    + apply list_lookup_insert_eq. lia.
    + apply list_lookup_insert_eq. lia.
Qed.

Lemma per_append_policy_witness :
  per_inv spec_example_per /\
  0 < PrioritizedExperienceReplay.size spec_example_per /\
  exists b',
    PrioritizedExperienceReplay.append spec_example_per fresh_transition
    = Ok b'.
Proof.
  assert (per_inv spec_example_per) as Hinv
    by (split; simpl; [reflexivity | reflexivity | lia]).
  assert (0 < PrioritizedExperienceReplay.size spec_example_per) as Hsize
    by (simpl; lia).
  split; [exact Hinv |]. split; [exact Hsize |].
  destruct per_append_policy as [H _].
  destruct (H spec_example_per fresh_transition Hinv Hsize) as (b' & Hb & _).
  exists b'. exact Hb.
Defined.

(** ** Priority updates *)

Lemma py_index_lt (n : nat) (i : Z) (k : nat) :
  py_index n i = Some k -> (k < n)%nat.
Proof.
  unfold py_index.
  destruct (_ && _) eqn:E; [| discriminate].
  apply andb_true_iff in E as [E1 E2].
  apply Z.leb_le in E1. apply Z.ltb_lt in E2.
  intros [= <-]. lia.
Qed.

Lemma resolve_indices_spec (n : nat) (indices : list Z) (ks : list nat) :
  resolve_indices n indices = Ok ks ->
  length ks = length indices /\
  Forall (fun k => (k < n)%nat) ks /\
  forall pos, ks !! pos = (indices !! pos) ≫= py_index n.
Proof.
  revert ks. induction indices as [| i rest IH]; intros ks; simpl.
  - intros [= <-]. split; [reflexivity |]. split; [constructor |].
    intros pos. reflexivity.
  - destruct (py_index n i) as [k |] eqn:Ek; [| discriminate].
    destruct (resolve_indices n rest) as [ks' |]; [| discriminate].
    intros [= <-]. destruct (IH ks' eq_refl) as (Hlen & Hall & Hlook).
    split; [simpl; lia |]. split.
    + constructor; [eapply py_index_lt; eassumption | assumption].
    + intros [| pos]; simpl; [symmetry; assumption | apply Hlook].
Qed.

Lemma resolve_indices_valid (n : nat) (indices : list Z) :
  Forall (fun i => is_Some (py_index n i)) indices ->
  exists ks, resolve_indices n indices = Ok ks.
Proof.
  induction 1 as [| i rest [k Hk] _ [ks Hks]]; simpl.
  - eexists. reflexivity.
  - rewrite Hk, Hks. eexists. reflexivity.
Qed.

Lemma assign_all_other {A} (ks : list nat) (vs a : list A) (j : nat) :
  ~ In j ks -> assign_all a ks vs !! j = a !! j.
Proof.
  revert vs a. induction ks as [| k ks IH]; intros vs a Hj; simpl;
    [reflexivity |].
  destruct vs as [| v vs]; [reflexivity |].
  rewrite IH by (intros Hin; apply Hj; right; assumption).
  apply list_lookup_insert_ne. intros ->. apply Hj. left. reflexivity.
Qed.

Lemma assign_all_last {A} (ks : list nat) (vs a : list A) (pos j : nat) (v : A) :
  Forall (fun k => (k < length a)%nat) ks ->
  ks !! pos = Some j -> vs !! pos = Some v ->
  (forall pos', (pos < pos')%nat -> ks !! pos' <> Some j) ->
  assign_all a ks vs !! j = Some v.
Proof.
  revert vs a pos. induction ks as [| k ks IH]; intros vs a pos Hall Hk Hv Hlast.
  - discriminate.
  - destruct vs as [| v0 vs]; [destruct pos; discriminate |].
    inversion Hall as [| ? ? Hk0 Hall']; subst. simpl.
    destruct pos as [| pos]; simpl in *.
    + injection Hk as ->. injection Hv as ->.
      rewrite assign_all_other.
      * apply list_lookup_insert_eq. assumption.
      * intros Hin. apply list_elem_of_In, list_elem_of_lookup in Hin
          as [pos' Hpos'].
        apply (Hlast (S pos')); [lia | exact Hpos'].
    + apply (IH vs _ pos); try assumption.
      * rewrite length_insert. assumption.
      * intros pos' Hlt. apply (Hlast (S pos')). lia.
Qed.

(** C6.  [update_priorities] on in-range indices and as many errors
    returns; afterwards every listed slot holds the error paired with it
    plus [epsilon], exactly (for an index listed more than once, the error
    paired with its last occurrence), the priorities of the slots not listed
    are the ones before the call, and nothing else of the memory changed. *)
Theorem update_priorities_round_trip
    (b : PrioritizedExperienceReplay.t) (indices : list Z)
    (abs_errors : list Q) :
  let n := length (PrioritizedExperienceReplay.priorities b) in
  length abs_errors = length indices ->
  Forall (fun i => is_Some (py_index n i)) indices ->
  exists b',
    PrioritizedExperienceReplay.update_priorities b indices abs_errors = Ok b' /\
    (forall pos idx err j,
       indices !! pos = Some idx -> abs_errors !! pos = Some err ->
       py_index n idx = Some j ->
       (forall pos' idx', (pos < pos')%nat -> indices !! pos' = Some idx' ->
                          py_index n idx' <> Some j) ->
       PrioritizedExperienceReplay.priorities b' !! j
       = Some (err + PrioritizedExperienceReplay.epsilon b)%Q) /\
    (forall j,
       (forall idx, In idx indices -> py_index n idx <> Some j) ->
       PrioritizedExperienceReplay.priorities b' !! j
       = PrioritizedExperienceReplay.priorities b !! j) /\
    PrioritizedExperienceReplay._buffer b' = PrioritizedExperienceReplay._buffer b /\
    PrioritizedExperienceReplay.current_size b'
    = PrioritizedExperienceReplay.current_size b /\
    PrioritizedExperienceReplay.epsilon b' = PrioritizedExperienceReplay.epsilon b.
Proof.
  intros n Hlen Hvalid.
  destruct (resolve_indices_valid n indices Hvalid) as [ks Hks].
  destruct (resolve_indices_spec n indices ks Hks) as (Hlk & Hall & Hlook).
  unfold PrioritizedExperienceReplay.update_priorities, np_setitem, broadcast_to.
  rewrite length_map.
  replace (length abs_errors =? length indices)%nat with true
    by (symmetry; apply Nat.eqb_eq; assumption).
  fold n. rewrite Hks.
  eexists. split; [reflexivity |]. simpl. repeat split.
  - intros pos idx err j Hidx Herr Hj Hlast.
    apply (assign_all_last ks _ _ pos); try assumption.
    + rewrite Hlook, Hidx. exact Hj.
    + rewrite list_lookup_fmap, Herr. reflexivity.
    + intros pos' Hlt. rewrite Hlook.
      destruct (indices !! pos') as [idx' |] eqn:E'; simpl; [| discriminate].
      apply (Hlast pos' idx'); assumption.
  - intros j Hj. apply assign_all_other.
    intros Hin. apply list_elem_of_In, list_elem_of_lookup in Hin as [pos Hpos].
    rewrite Hlook in Hpos.
    destruct (indices !! pos) as [idx |] eqn:E; simpl in Hpos; [| discriminate].
    apply (Hj idx); [| assumption].
    apply list_elem_of_In, list_elem_of_lookup. exists pos. assumption.
Qed.

Lemma update_priorities_round_trip_witness :
  exists b',
    PrioritizedExperienceReplay.update_priorities spec_example_per [2; -3]
      [7 # 10; 3 # 10]%Q = Ok b' /\
    PrioritizedExperienceReplay.priorities b' !! 2%nat
    = Some ((7 # 10) + (1 # 1000))%Q /\
    PrioritizedExperienceReplay.priorities b' !! 0%nat
    = Some ((3 # 10) + (1 # 1000))%Q /\
    PrioritizedExperienceReplay.priorities b' !! 1%nat = Some (9 # 10)%Q.
Proof.
  destruct (update_priorities_round_trip spec_example_per [2; -3]
              [7 # 10; 3 # 10]%Q) as (b' & Hb & Hset & Hother & _).
  - reflexivity.
  - repeat constructor; eexists; reflexivity.
  - exists b'. split; [exact Hb |]. repeat split.
    + apply (Hset 0%nat 2 (7 # 10)%Q 2%nat); try reflexivity.
      intros [| [| pos']] idx' Hlt Hidx; simpl in Hidx; try lia;
        [injection Hidx as <-; discriminate | discriminate].
    + apply (Hset 1%nat (-3) (3 # 10)%Q 0%nat); try reflexivity.
      intros [| [| pos']] idx' Hlt Hidx; simpl in Hidx; try lia; discriminate.
    + rewrite (Hother 1%nat); [reflexivity |].
      intros idx [<- | [<- | []]]; discriminate.
Defined.

(** ** The priority floor *)

Lemma is_max_Forall (P : Q -> Prop) (a : list Q) (m : Q) :
  is_max a m -> Forall P a -> P m.
Proof.
  intros [Hin _] Hall. rewrite Forall_forall in Hall. apply Hall.
  apply list_elem_of_In. exact Hin.
Qed.

Lemma np_max_Forall (P : Q -> Prop) (a : list Q) (m : Q) :
  np_max a = Ok m -> Forall P a -> P m.
Proof.
  intros Hm. apply is_max_Forall.
  destruct a as [| x xs]; [discriminate |].
  injection Hm as <-. apply fold_Qmaxb_max.
Qed.

Lemma append_above_floor (b : PrioritizedExperienceReplay.t) (tr : Transition.t) :
  above_floor b -> above_floor (after_call b (Append tr)).
Proof.
  unfold above_floor. intros Hb. simpl.
  unfold PrioritizedExperienceReplay.append.
  destruct (_ <? _).
  - destruct (length (PrioritizedExperienceReplay.priorities b) =? 0)%nat.
    + simpl. apply Forall_app. split; [assumption |].
      constructor; [lra | constructor].
    + destruct (np_max _) as [m |] eqn:Em; [| assumption].
      simpl. apply Forall_app. split; [assumption |].
      constructor; [| constructor].
      apply (np_max_Forall _ _ _ Em Hb).
  - destruct (np_argmin _); [| assumption].
    destruct (_ <? _)%nat; [| assumption].
    destruct (np_max _) as [m |] eqn:Em; [| assumption].
    simpl. apply Forall_insert; [assumption |].
    apply (np_max_Forall _ _ _ Em Hb).
Qed.

Lemma assign_all_Forall {A} (P : A -> Prop) (ks : list nat) (vs a : list A) :
  Forall P a -> Forall P vs -> Forall P (assign_all a ks vs).
Proof.
  revert vs a. induction ks as [| k ks IH]; intros vs a Ha Hvs; simpl;
    [assumption |].
  destruct vs as [| v vs]; [assumption |].
  inversion Hvs; subst. apply IH; [apply Forall_insert |]; assumption.
Qed.

Lemma broadcast_to_Forall {A} (P : A -> Prop) (n : nat) (values vs : list A) :
  broadcast_to n values = Ok vs -> Forall P values -> Forall P vs.
Proof.
  unfold broadcast_to. destruct (_ =? _)%nat; [intros [= <-]; auto |].
  destruct values as [| v [| ? ?]]; try discriminate.
  intros [= <-] Hv. inversion Hv; subst.
  apply Forall_forall. intros x Hx.
  apply list_elem_of_In, repeat_spec in Hx. subst. assumption.
Qed.

Lemma update_above_floor (b : PrioritizedExperienceReplay.t)
    (indices : list Z) (abs_errors : list Q) :
  Forall (fun e => (0 <= e)%Q) abs_errors ->
  above_floor b ->
  above_floor (after_call b (UpdatePriorities indices abs_errors)).
Proof.
  unfold above_floor. intros Herr Hb. simpl.
  unfold PrioritizedExperienceReplay.update_priorities, np_setitem.
  destruct (broadcast_to _ _) as [vs |] eqn:Ev; [| assumption].
  destruct (resolve_indices _ _) as [ks |]; [| assumption].
  simpl. apply assign_all_Forall; [assumption |].
  apply (broadcast_to_Forall _ _ _ _ Ev).
  apply Forall_map. eapply Forall_impl; [exact Herr |].
  simpl. intros e He. lra.
Qed.

Lemma calls_above_floor (cs : list call) (b : PrioritizedExperienceReplay.t) :
  Forall nonneg_errors cs -> above_floor b -> above_floor (after_calls b cs).
Proof.
  revert b. induction cs as [| c cs IH]; intros b Hcs Hb; simpl; [assumption |].
  inversion Hcs as [| ? ? Hc Hcs']; subst.
  apply IH; [assumption |].
  destruct c; [apply append_above_floor | apply update_above_floor]; assumption.
Qed.

Lemma np_sum_nonneg (a : list Q) :
  Forall (fun w => (0 < w)%Q) a -> (0 <= np_sum a)%Q.
Proof.
  induction 1 as [| w a Hw _ IH]; unfold np_sum in *; simpl; lra.
Qed.

Lemma np_sum_pos (a : list Q) :
  a <> [] -> Forall (fun w => (0 < w)%Q) a -> (0 < np_sum a)%Q.
Proof.
  intros Hne Hall. destruct Hall as [| w a Hw Hall]; [congruence |].
  pose proof (np_sum_nonneg a Hall) as H0.
  unfold np_sum in *. simpl. lra.
Qed.

Lemma Qdiv_pos (w s : Q) : (0 < w)%Q -> (0 < s)%Q -> (0 < w / s)%Q.
Proof.
  intros Hw Hs. apply Qlt_shift_div_l; [assumption | lra].
Qed.

Lemma sampling_probs_pos (float_power : Q -> Q -> Q)
    (b : PrioritizedExperienceReplay.t) :
  (forall x a, (0 < x)%Q -> (0 < float_power x a)%Q) ->
  Forall (fun p => (0 < p)%Q) (PrioritizedExperienceReplay.priorities b) ->
  Forall (fun q => (0 < q)%Q)
         (PrioritizedExperienceReplay.sampling_probs float_power b).
Proof.
  intros Hpow Hpos. unfold PrioritizedExperienceReplay.sampling_probs.
  set (ws := map _ (PrioritizedExperienceReplay.priorities b)).
  assert (Forall (fun w => (0 < w)%Q) ws) as Hws.
  { subst ws. apply Forall_map. eapply Forall_impl; [exact Hpos |].
    simpl. intros p Hp. apply Hpow. assumption. }
  destruct ws as [| w ws'] eqn:E; [constructor |].
  rewrite <- E in *.
  assert (0 < np_sum ws)%Q as Hsum by (apply np_sum_pos; [congruence | assumption]).
  apply Forall_map. eapply Forall_impl; [exact Hws |].
  simpl. intros x Hx. apply Qdiv_pos; assumption.
Qed.

(** C9.  With a positive [epsilon], in every state reached from
    construction by [append] and by [update_priorities] with non-negative
    errors, every stored priority is at least [epsilon], hence positive;
    there is one sampling probability per stored transition and each is
    positive ([**] maps positive numbers to positive numbers). *)
Theorem priorities_never_below_epsilon
    (float_power : Q -> Q -> Q)
    (size batch_size : Z) (alpha eps : Q)
    (b0 : PrioritizedExperienceReplay.t) (cs : list call) :
  (forall x a, (0 < x)%Q -> (0 < float_power x a)%Q) ->
  (0 < eps)%Q ->
  PrioritizedExperienceReplay.__init__ size batch_size alpha eps = Ok b0 ->
  Forall nonneg_errors cs ->
  let b := after_calls b0 cs in
  Forall (fun p => (eps <= p)%Q /\ (0 < p)%Q)
         (PrioritizedExperienceReplay.priorities b) /\
  length (PrioritizedExperienceReplay.sampling_probs float_power b)
  = length (PrioritizedExperienceReplay._buffer b) /\
  Forall (fun q => (0 < q)%Q)
         (PrioritizedExperienceReplay.sampling_probs float_power b).
Proof.
  intros Hpow Heps Hinit Hcs b.
  destruct (per_init_inv _ _ _ _ _ Hinit) as (Hinv & _ & He & Hnil).
  assert (above_floor b) as Hfloor.
  { apply calls_above_floor; [assumption |].
    unfold above_floor. rewrite Hnil. constructor. }
  unfold above_floor in Hfloor.
  destruct (per_calls_size cs b0) as (_ & Heb & _). fold b in Heb.
  rewrite Heb, He in Hfloor.
  assert (Forall (fun p => (eps <= p)%Q /\ (0 < p)%Q)
                 (PrioritizedExperienceReplay.priorities b)) as Hpri.
  { eapply Forall_impl; [exact Hfloor |]. simpl. intros p Hp. split; lra. }
  split; [exact Hpri |]. split.
  - unfold PrioritizedExperienceReplay.sampling_probs.
    rewrite !length_map. apply (per_calls_inv cs b0 Hinv).
  - apply sampling_probs_pos; [assumption |].
    eapply Forall_impl; [exact Hpri |]. simpl. intros p [_ Hp]. exact Hp.
Qed.

Lemma priorities_never_below_epsilon_witness :
  exists b0,
    PrioritizedExperienceReplay.__init__ 2 1 1 (1 # 1000) = Ok b0 /\
    Forall nonneg_errors example_calls /\
    Forall (fun p => (1 # 1000 <= p)%Q /\ (0 < p)%Q)
           (PrioritizedExperienceReplay.priorities
              (after_calls b0 example_calls)) /\
    Forall (fun q => (0 < q)%Q)
           (PrioritizedExperienceReplay.sampling_probs integral_power
              (after_calls b0 example_calls)).
Proof.
  eexists. split; [reflexivity |].
  assert (Forall nonneg_errors example_calls) as Hcs.
  { repeat constructor. simpl. discriminate. }
  split; [exact Hcs |].
  match goal with
  | |- context [after_calls ?b0 _] =>
      destruct (priorities_never_below_epsilon integral_power 2 1 1 (1 # 1000)
                  b0 example_calls) as (Hp & _ & Hq)
  end.
  - intros x a Hx. apply Qpower_0_lt. exact Hx.
  - reflexivity.
  - reflexivity.
  - exact Hcs.
  - split; [exact Hp | exact Hq].
Defined.

(** ** The bootstrapped target and the exploration schedule *)

Lemma bootstrap_lookup (gamma : Q) (rewards maxq : list Q) (dones : list bool)
    (i : nat) (r m : Q) (d : bool) :
  rewards !! i = Some r -> maxq !! i = Some m -> dones !! i = Some d ->
  bootstrap gamma rewards maxq dones !! i
  = Some (r + gamma * m * (1 - cast_bool d))%Q.
Proof.
  revert maxq dones i.
  induction rewards as [| r0 rs IH]; intros maxq dones i Hr Hm Hd;
    [discriminate |].
  destruct maxq as [| m0 ms]; [discriminate |].
  destruct dones as [| d0 ds]; [discriminate |].
  destruct i as [| i]; simpl in *.
  - injection Hr as ->. injection Hm as ->. injection Hd as ->. reflexivity.
  - apply IH; assumption.
Qed.

Lemma bootstrap_length (gamma : Q) (rewards maxq : list Q) (dones : list bool) :
  length maxq = length rewards -> length dones = length rewards ->
  length (bootstrap gamma rewards maxq dones) = length rewards.
Proof.
  revert maxq dones.
  induction rewards as [| r0 rs IH]; intros maxq dones Hm Hd; [reflexivity |].
  destruct maxq as [| m0 ms]; [discriminate |].
  destruct dones as [| d0 ds]; [discriminate |].
  simpl in *. f_equal. apply IH; lia.
Qed.

Lemma reduce_max_is_max (row : Row) : is_max (row_list row) (reduce_max row).
Proof. destruct row as [x xs]. apply fold_Qmaxb_max. Qed.

Section AgentFacts.

Variable Params : Type.
Variable forward : Params -> Frame -> Row.
Variable Env : Type.



End AgentFacts.



(** ** The cadence of the training loop *)

Lemma read_only_keeps {Self A V} (view : Self -> V) (m : Method Self A) :
  read_only m -> keeps view m.
Proof. intros H s g. rewrite H. reflexivity. Qed.

Lemma keeps_bind {Self A B V} (view : Self -> V) (m : Method Self A)
    (k : A -> Method Self B) :
  keeps view m -> (forall a, keeps view (k a)) -> keeps view (bind m k).
Proof.
  intros Hm Hk s g. unfold bind.
  specialize (Hm s g). unfold self_after in *.
  destruct (m s g) as [[a | e] [s' g']]; simpl in *.
  - specialize (Hk a s' g'). unfold self_after in Hk. congruence.
  - assumption.
Qed.

Lemma after_bind {Self A B} (m : Method Self A) (k : A -> Method Self B)
    (s : Self) (g : RandomState) :
  self_after (bind m k s g)
  = match m s g with
    | (Ok a, (s', g')) => self_after (k a s' g')
    | (Raise _, (s', _)) => s'
    end.
Proof.
  unfold bind, self_after. destruct (m s g) as [[a | e] [s' g']]; reflexivity.
Qed.

(** Running [m] and then [k] establishes [P] of the view when [m] keeps the
    view and every continuation establishes [P] from a state with that
    view. *)
Lemma bind_keeps_then {Self A B V} (view : Self -> V) (P : V -> Prop)
    (m : Method Self A) (k : A -> Method Self B) (s : Self) (g : RandomState) :
  keeps view m -> P (view s) ->
  (forall a s' g', view s' = view s -> P (view (self_after (k a s' g')))) ->
  P (view (self_after (bind m k s g))).
Proof.
  intros Hm HP Hk. rewrite after_bind.
  specialize (Hm s g). unfold self_after in Hm.
  destruct (m s g) as [[a | e] [s' g']]; simpl in Hm.
  - apply Hk. assumption.
  - rewrite Hm. assumption.
Qed.

Section Cadence.

Variable Params : Type.
Variable forward : Params -> Frame -> Row.
Variable huber : list Q -> list Q -> Q.
Variable optimizer_step : Params -> list Frame -> list Z -> list Q -> Params.
Variable Env : Type.
Variable env_reset : Env -> Frame * Env.
Variable env_step : Env -> Z -> (Frame * Q * bool) * Env.

Lemma keeps_on_memory {A} (m : Method ExperienceReplay.t A) :
  keeps (@cadence Params Env) (Agent.on_memory (Params := Params) (Env := Env) m).
Proof.
  intros a g. unfold Agent.on_memory, self_after.
  destruct (m (Agent.memory a) g) as [res [mem g']]. reflexivity.
Qed.

Lemma keeps_env_step (action : Z) :
  keeps (@cadence Params Env) (Agent.env_step_call env_step action).
Proof.
  intros a g. unfold Agent.env_step_call, self_after.
  destruct (env_step (Agent.env a) action). reflexivity.
Qed.

Lemma keeps_env_reset : keeps (@cadence Params Env) (Agent.env_reset_call env_reset).
Proof.
  intros a g. unfold Agent.env_reset_call, self_after.
  destruct (env_reset (Agent.env a)). reflexivity.
Qed.

Lemma keeps_get_action (s : Frame) (eps : Q) :
  keeps (@cadence Params Env) (Agent.get_action forward (Env := Env) s eps).
Proof.
  apply read_only_keeps. unfold Agent.get_action. repeat frame_step.
Qed.

Lemma keeps_update_main (batch : Batch) :
  keeps (@cadence Params Env)
    (Agent.update_main_q_network forward huber optimizer_step (Env := Env)
                                 batch).
Proof. intros a g. reflexivity. Qed.

Lemma keeps_update_target :
  keeps (@cadence Params Env) (Agent.update_target_network (Params := Params) (Env := Env)).
Proof. intros a g. reflexivity. Qed.

Lemma keeps_on_self {A} (m : Method (Agent.t Params Env) A) :
  keeps (@cadence Params Env) m -> keeps (@progress Params Env) (Agent.on_self m).
Proof.
  intros Hm r g. specialize (Hm (Agent.self r) g).
  unfold Agent.on_self, self_after, progress in *.
  destruct (m (Agent.self r) g) as [res [a g']]. simpl in *.
  rewrite Hm. reflexivity.
Qed.

Lemma keeps_modify (f : Agent.Run Params Env -> Agent.Run Params Env) :
  (forall r, progress (f r) = progress r) -> keeps (@progress Params Env) (Agent.modify f).
Proof. intros Hf r g. apply Hf. Qed.

Lemma keeps_ret {Self A V} (view : Self -> V) (a : A) :
  keeps view (@ret Self A a).
Proof. intros s g. reflexivity. Qed.

Lemma steps_upto_succ (n : Z) :
  0 <= n -> steps_upto (n + 1) = steps_upto n ++ [n].
Proof.
  intros Hn. unfold steps_upto.
  replace (Z.to_nat (n + 1)) with (S (Z.to_nat n)) by lia.
  rewrite seq_S, map_app. simpl. f_equal. f_equal. lia.
Qed.

Lemma due_spec (freq : Z) (a : Agent.t Params Env) (total_step : Z) (b : bool) :
  Agent.due freq a total_step = Ok b ->
  freq <> 0 /\
  b = (total_step mod freq =? 0) && (Agent.replay_start_size a <? total_step).
Proof.
  unfold Agent.due. destruct (freq =? 0) eqn:E; [discriminate |].
  apply Z.eqb_neq in E. intros [= <-]. split; [assumption | reflexivity].
Qed.

Lemma step_body_on_schedule (c : Z * Z * Z) (r : Agent.Run Params Env)
    (g : RandomState) :
  on_schedule c (progress r) ->
  on_schedule c
    (progress (self_after
                 (Agent.step_body forward huber optimizer_step env_step r g))).
Proof.
  intros Hr. unfold Agent.step_body.
  rewrite after_bind. unfold get_self at 1.
  apply bind_keeps_then;
    [apply keeps_on_self, keeps_get_action | assumption |].
  intros action r1 g1 H1. rewrite <- H1 in Hr.
  apply bind_keeps_then;
    [apply keeps_on_self, keeps_env_step | assumption |].
  intros [[next_state reward] done'] r2 g2 H2. rewrite <- H2 in Hr.
  apply bind_keeps_then; [apply keeps_modify; reflexivity | assumption |].
  intros _ r2' g2' H2'. rewrite <- H2' in Hr.
  apply bind_keeps_then;
    [apply keeps_on_self, keeps_on_memory | assumption |].
  intros _ r3 g3 H3. rewrite <- H3 in Hr.
  apply bind_keeps_then; [apply keeps_modify; reflexivity | assumption |].
  intros _ r4 g4 H4. rewrite <- H4 in Hr.
  rewrite after_bind. unfold lift_result at 1.
  destruct (Agent.due (Agent.update_frequency (Agent.self r)) (Agent.self r)
              (Agent.total_step r)) as [learn | e] eqn:Elearn;
    [| assumption].
  apply bind_keeps_then; [| assumption |].
  { destruct learn; [| apply keeps_ret].
    repeat (apply keeps_bind; [| intros ?]);
      try apply keeps_ret; apply keeps_on_self;
      [apply keeps_on_memory | apply keeps_on_memory | apply keeps_update_main]. }
  intros _ r5 g5 H5. rewrite <- H5 in Hr.
  rewrite after_bind. unfold lift_result at 1.
  destruct (Agent.due (Agent.target_network_update_freq (Agent.self r))
              (Agent.self r) (Agent.total_step r)) as [sync | e] eqn:Esync;
    [| assumption].
  apply bind_keeps_then; [| assumption |].
  { destruct sync; [| apply keeps_ret].
    apply keeps_on_self, keeps_update_target. }
  intros _ r6 g6 H6. rewrite <- H6 in Hr.
  assert (progress r6 = progress r) as Hsame by congruence.
  clear H1 H2 H2' H3 H4 H5 H6.
  unfold Agent.modify, self_after. simpl.
  unfold progress, cadence in *. simpl.
  injection Hsame as Euf Etf Erss Estep Ehist.
  destruct c as [[uf tf] rss].
  destruct Hr as (Hc & Hnonneg & Hsteps & Hall).
  apply due_spec in Elearn as [Huf Hlearn].
  apply due_spec in Esync as [Htf Hsync].
  injection Hc as Huf' Htf' Hrss'.
  rewrite <- Euf, Huf' in *. rewrite <- Etf, Htf' in *.
  rewrite <- Erss, Hrss' in *. rewrite <- Estep in *.
  split; [reflexivity |]. split; [lia |]. split.
  - rewrite map_app, Hsteps. simpl. symmetry. apply steps_upto_succ. assumption.
  - apply Forall_app. split; [assumption |].
    constructor; [| constructor].
    simpl. repeat split; assumption.
Qed.

Lemma episode_loop_on_schedule (c : Z * Z * Z) (fuel : nat)
    (r : Agent.Run Params Env) (g : RandomState) :
  on_schedule c (progress r) ->
  on_schedule c
    (progress (self_after
                 (Agent.episode_loop forward huber optimizer_step env_step
                                     fuel r g))).
Proof.
  revert r g. induction fuel as [| fuel IH]; intros r g Hr;
    cbn [Agent.episode_loop]; [assumption |].
  rewrite after_bind. unfold get_self at 1.
  destruct (negb (Agent.done r)); [| assumption].
  rewrite after_bind.
  pose proof (step_body_on_schedule c r g Hr) as Hbody.
  unfold self_after in Hbody at 1.
  destruct (Agent.step_body forward huber optimizer_step env_step r g)
    as [[[] | e] [r' g']]; simpl in Hbody; [| assumption].
  apply IH. assumption.
Qed.

Lemma train_loop_on_schedule (c : Z * Z * Z) (fuel inner : nat)
    (r : Agent.Run Params Env) (g : RandomState) :
  on_schedule c (progress r) ->
  on_schedule c
    (progress (self_after
                 (Agent.train_loop forward huber optimizer_step env_reset
                                   env_step fuel inner r g))).
Proof.
  revert r g. induction fuel as [| fuel IH]; intros r g Hr;
    cbn [Agent.train_loop]; [assumption |].
  rewrite after_bind. unfold get_self at 1.
  destruct (Agent.total_step r <? Agent.training_frames (Agent.self r));
    [| assumption].
  apply bind_keeps_then;
    [apply keeps_on_self, keeps_env_reset | assumption |].
  intros first r1 g1 H1. rewrite <- H1 in Hr.
  apply bind_keeps_then; [apply keeps_modify; reflexivity | assumption |].
  intros _ r2 g2 H2. rewrite <- H2 in Hr.
  rewrite after_bind.
  pose proof (episode_loop_on_schedule c inner r2 g2 Hr) as Hep.
  unfold self_after in Hep at 1.
  destruct (Agent.episode_loop forward huber optimizer_step env_step inner
                               r2 g2) as [[[] | e] [r' g']];
    simpl in Hep; [| assumption].
  apply IH. assumption.
Qed.

(** C7, as the code has it.  In every run of [train], however long and
    whether it ends, raises or is cut short: the completed iterations are
    recorded in order, one per value of the step counter from 0 on;
    [update_main_q_network] was called in an iteration exactly when its
    step counter is a multiple of [update_frequency] and greater than
    [replay_start_size]; [update_target_network] exactly when it is a
    multiple of [target_network_update_freq] and greater than
    [replay_start_size]; so neither is called at a step counter up to
    [replay_start_size].  The gate reads the step counter, not the
    number of stored transitions. *)
Theorem train_cadence (fuel inner : nat) (agent : Agent.t Params Env)
    (g : RandomState) :
  let r := self_after (Agent.train forward huber optimizer_step env_reset
                                   env_step fuel inner agent g) in
  map Agent.at_step (Agent.history r) = steps_upto (Agent.total_step r) /\
  forall e, In e (Agent.history r) ->
    (Agent.learned e = true <->
     Agent.at_step e mod Agent.update_frequency agent = 0 /\
     Agent.replay_start_size agent < Agent.at_step e) /\
    (Agent.synced e = true <->
     Agent.at_step e mod Agent.target_network_update_freq agent = 0 /\
     Agent.replay_start_size agent < Agent.at_step e) /\
    (Agent.at_step e <= Agent.replay_start_size agent ->
     Agent.learned e = false /\ Agent.synced e = false).
Proof.
  intros r.
  assert (on_schedule (cadence agent) (progress r)) as Hr.
  { apply train_loop_on_schedule. simpl. repeat split; [lia | constructor]. }
  destruct Hr as (_ & _ & Hsteps & Hall).
  split; [exact Hsteps |].
  intros e He. rewrite Forall_forall in Hall.
  apply list_elem_of_In in He.
  destruct (Hall e He) as (_ & _ & Hl & Hs).
  rewrite Hl, Hs, !andb_true_iff, !andb_false_iff, !Z.eqb_eq, !Z.ltb_lt,
    !Z.ltb_ge.
  repeat split; try tauto; intros; right; assumption.
Qed.

End Cadence.

(** C7, as stated, fails on the agent that [__init__] builds: its memory
    has capacity 200 and [replay_start_size] is 250.  In the iteration with
    step counter 252 the memory holds 200 transitions, fewer than
    [replay_start_size], and [update_main_q_network] is called. *)
Lemma learn_fires_below_replay_start_size :
  Agent.__init__ toy_reset toy_step 0%nat 6 tt tt = Ok default_agent /\
  let r := toy_train 1 253 0 in
  ~ (forall e, In e (Agent.history r) ->
       Agent.learned e = true ->
       Agent.replay_start_size default_agent <= Agent.stored e).
Proof.
  split; [reflexivity |].
  intros r H.
  specialize (H (Agent.mkStepRecord 252 200 true false)).
  assert (Agent.history r !! 252%nat
          = Some (Agent.mkStepRecord 252 200 true false)) as Hlook
    by (vm_compute; reflexivity).
  apply list_elem_of_lookup_2, list_elem_of_In in Hlook.
  specialize (H Hlook eq_refl). simpl in H. lia.
Qed.

Lemma train_cadence_witness :
  let r := self_after (Agent.train toy_forward toy_huber toy_optimizer_step
                                   toy_reset toy_step 1 253 default_agent
                                   (constant_entropy 0)) in
  In (Agent.mkStepRecord 252 200 true false) (Agent.history r) /\
  252 mod Agent.update_frequency default_agent = 0 /\
  Agent.replay_start_size default_agent < 252.
Proof.
  intros r.
  assert (In (Agent.mkStepRecord 252 200 true false) (Agent.history r)) as Hin.
  { assert (Agent.history r !! 252%nat
            = Some (Agent.mkStepRecord 252 200 true false)) as Hlook
      by (vm_compute; reflexivity).
    apply list_elem_of_lookup_2, list_elem_of_In in Hlook. exact Hlook. }
  split; [exact Hin |].
  pose proof (train_cadence unit toy_forward toy_huber toy_optimizer_step nat
                toy_reset toy_step 1 253 default_agent (constant_entropy 0))
    as Hcadence.
  cbv zeta in Hcadence. fold r in Hcadence.
  destruct Hcadence as [_ Hall].
  destruct (Hall (Agent.mkStepRecord 252 200 true false) Hin)
    as ((Hlearn & _) & _).
  exact (Hlearn eq_refl).
Defined.


(** ** Weighted choice without replacement *)

Lemma uniform01_range (r : N) : (0 <= uniform01 r < 1)%Q.
Proof.
  unfold uniform01, Qle, Qlt. simpl.
  pose proof (N.mod_lt r (2 ^ 53)%N) as H.
  assert ((2 ^ 53)%N <> 0%N) as Hne by discriminate.
  specialize (H Hne).
  assert (Z.of_N (2 ^ 53) = Z.pos (2 ^ 53)) as E by reflexivity.
  apply N2Z.inj_lt in H. rewrite E in H.
  pose proof (N2Z.is_nonneg (r mod 2 ^ 53)) as H0.
  clear E Hne.
  generalize dependent (Z.of_N (r mod 2 ^ 53)).
  generalize (Z.pos (2 ^ 53)). intros d a Ha H0. lia.
Qed.

Lemma rand_from_spec (k : nat) (g : RandomState) :
  length (fst (rand_from k g)) = k /\
  Forall (fun x => (0 <= x < 1)%Q) (fst (rand_from k g)) /\
  (k <> 0%nat ->
   head (fst (rand_from k g)) = Some (uniform01 (entropy g (cursor g)))).
Proof.
  revert g. induction k as [| k IH]; intros g; simpl.
  - split; [reflexivity |]. split; [constructor | congruence].
  - specialize (IH (mkRandomState (entropy g) (S (cursor g)))).
    destruct (rand_from k _) as [xs g'']. simpl in *.
    destruct IH as (Hlen & Hall & _).
    split; [lia |]. split; [| reflexivity].
    constructor; [apply uniform01_range | assumption].
Qed.

Lemma zero_at_length (found : list nat) (p : list Q) :
  length (zero_at found p) = length p.
Proof.
  unfold zero_at. revert p.
  induction found as [| j found IH]; intros p; simpl; [reflexivity |].
  rewrite IH. apply length_insert.
Qed.

Lemma zero_at_lookup (found : list nat) (p : list Q) (i : nat) :
  zero_at found p !! i
  = if decide (i ∈ found) then (fun _ => 0%Q) <$> p !! i else p !! i.
Proof.
  unfold zero_at. revert p.
  induction found as [| j found IH]; intros p; simpl.
  - destruct (decide (i ∈ [])) as [H | _]; [inversion H | reflexivity].
  - rewrite IH.
    destruct (decide (j = i)) as [-> | Hne].
    + destruct (decide (i ∈ i :: found)) as [_ | Hn];
        [| exfalso; apply Hn; left].
      destruct (decide (i < length p)%nat) as [Hlt | Hge].
      * rewrite list_lookup_insert_eq by assumption.
        destruct (lookup_lt_is_Some_2 p i Hlt) as [w Hw]. rewrite Hw.
        destruct (decide (i ∈ found)); reflexivity.
      * rewrite list_insert_ge by lia.
        destruct (decide (i ∈ found)); [reflexivity |].
        rewrite lookup_ge_None_2 by lia. reflexivity.
    + rewrite list_lookup_insert_ne by assumption.
      destruct (decide (i ∈ found)) as [Hin | Hin],
               (decide (i ∈ j :: found)) as [Hin' | Hin'];
        try reflexivity.
      * exfalso. apply Hin'. right. assumption.
      * exfalso. apply elem_of_cons in Hin' as [-> | Hin']; congruence.
Qed.

Lemma zero_at_nonneg (found : list nat) (p : list Q) :
  Forall (fun w => (0 <= w)%Q) p -> Forall (fun w => (0 <= w)%Q) (zero_at found p).
Proof.
  unfold zero_at. revert p.
  induction found as [| j found IH]; intros p Hp; simpl; [assumption |].
  apply IH. apply Forall_insert; [assumption | lra].
Qed.

Lemma np_sum_nonneg_weak (a : list Q) :
  Forall (fun w => (0 <= w)%Q) a -> (0 <= np_sum a)%Q.
Proof.
  induction 1 as [| w a Hw _ IH]; unfold np_sum in *; simpl; lra.
Qed.

Lemma np_sum_pos_at (a : list Q) (i : nat) (w : Q) :
  Forall (fun w => (0 <= w)%Q) a -> a !! i = Some w -> (0 < w)%Q ->
  (0 < np_sum a)%Q.
Proof.
  intros Hall. revert i.
  induction Hall as [| v a Hv Hall IH]; intros i Hi Hw; [discriminate |].
  pose proof (np_sum_nonneg_weak a Hall) as H0.
  destruct i as [| i]; simpl in Hi.
  - injection Hi as ->. unfold np_sum in *. simpl. lra.
  - specialize (IH i Hi Hw). unfold np_sum in *. simpl. lra.
Qed.

Lemma np_sum_app (a b : list Q) : (np_sum (a ++ b) == np_sum a + np_sum b)%Q.
Proof.
  induction a as [| x a IH]; unfold np_sum in *; simpl; [ring |].
  rewrite IH. ring.
Qed.

Lemma np_sum_take_mono (a : list Q) (j k : nat) :
  Forall (fun w => (0 <= w)%Q) a -> (j <= k)%nat ->
  (np_sum (take j a) <= np_sum (take k a))%Q.
Proof.
  intros Hall. revert j k.
  induction Hall as [| x a Hx Hall IH]; intros j k Hjk.
  - destruct j, k; simpl; lra.
  - destruct j as [| j].
    + apply (np_sum_nonneg_weak (take k (x :: a))).
      apply Forall_take. constructor; assumption.
    + destruct k as [| k]; [lia |].
      specialize (IH j k ltac:(lia)).
      unfold np_sum in *. simpl. lra.
Qed.

Lemma cumsum_from_length (acc : Q) (a : list Q) :
  length (cumsum_from acc a) = length a.
Proof.
  revert acc. induction a as [| x a IH]; intros acc; simpl; [reflexivity |].
  rewrite IH. reflexivity.
Qed.

Lemma last_cumsum_from (a : list Q) (acc d : Q) :
  a <> [] -> (List.last (cumsum_from acc a) d == acc + np_sum a)%Q.
Proof.
  revert acc. induction a as [| x a IH]; intros acc Hne; [congruence |].
  destruct a as [| y a'].
  - unfold np_sum. simpl. ring.
  - change (List.last (cumsum_from acc (x :: y :: a')) d)
      with (List.last (cumsum_from (acc + x) (y :: a')) d).
    rewrite IH by discriminate. unfold np_sum. simpl. ring.
Qed.

Lemma Qdiv_le_iff (c T x : Q) :
  (0 < T)%Q -> (c / T <= x)%Q <-> (c <= x * T)%Q.
Proof.
  intros HT. split; intros H.
  - assert (c == c / T * T)%Q as E by (field; lra).
    rewrite E. apply Qmult_le_compat_r; lra.
  - apply Qle_shift_div_r; assumption.
Qed.

Lemma searchsorted_scan (q : list Q) :
  forall acc T x : Q,
    (0 < T)%Q -> (acc + np_sum q == T)%Q -> (acc <= x * T)%Q -> (x * T < T)%Q ->
    Forall (fun w => (0 <= w)%Q) q ->
    let idx := searchsorted_right
                 (map (fun c => (c / T)%Q) (cumsum_from acc q)) x in
    exists w, q !! idx = Some w /\ (0 < w)%Q /\
      (acc + np_sum (take idx q) <= x * T)%Q /\
      (x * T < acc + np_sum (take (S idx) q))%Q.
Proof.
  induction q as [| v q IH]; intros acc T x HT Hsum Hacc Hx Hall.
  - unfold np_sum in Hsum. simpl in Hsum. lra.
  - inversion Hall as [| ? ? Hv Hall']; subst. simpl.
    destruct (Qle_bool ((acc + v) / T) x) eqn:E.
    + apply Qle_bool_iff, Qdiv_le_iff in E; [| assumption].
      destruct (IH (acc + v)%Q T x HT) as (w & Hw & Hpos & Hlo & Hhi);
        try assumption.
      { unfold np_sum in *. simpl in Hsum. lra. }
      exists w. split; [exact Hw |]. split; [exact Hpos |].
      unfold np_sum in *. simpl in *. split; lra.
    + assert (x * T < acc + v)%Q as Hlt.
      { apply Qnot_le_lt. intros Hle.
        apply (Qdiv_le_iff _ _ _ HT), Qle_bool_iff in Hle. congruence. }
      exists v. split; [reflexivity |].
      unfold np_sum. simpl. repeat split; lra.
Qed.

Lemma inverse_cdf_spec (p : list Q) (x : Q) :
  Forall (fun w => (0 <= w)%Q) p -> (0 < np_sum p)%Q -> (0 <= x < 1)%Q ->
  exists w, p !! inverse_cdf p x = Some w /\ (0 < w)%Q /\
    (np_sum (take (inverse_cdf p x) p) <= x * np_sum p)%Q /\
    (x * np_sum p < np_sum (take (S (inverse_cdf p x)) p))%Q.
Proof.
  intros Hall Hsum [Hx0 Hx1]. unfold inverse_cdf, np_cumsum.
  assert (p <> []) as Hne.
  { intros ->. unfold np_sum in Hsum. simpl in Hsum. lra. }
  pose proof (last_cumsum_from p 0%Q 0%Q Hne) as HT.
  set (T := List.last (cumsum_from 0%Q p) 0%Q) in *.
  assert (T == np_sum p)%Q as HT' by (rewrite HT; ring).
  assert (0 < T)%Q as HTpos by lra.
  assert (x * T == x * np_sum p)%Q as Hprod by (rewrite HT'; reflexivity).
  assert (0 <= x * T)%Q as H0 by (apply Qmult_le_0_compat; lra).
  assert (x * T < T)%Q as H1.
  { assert (x * T < 1 * T)%Q by (apply Qmult_lt_compat_r; assumption). lra. }
  destruct (searchsorted_scan p 0%Q T x HTpos) as (w & Hw & Hpos & Hlo & Hhi);
    try assumption; [lra |].
  exists w. split; [exact Hw |]. split; [exact Hpos |]. split; lra.
Qed.

Lemma in_cell_unique (p : list Q) (x : Q) (i j : nat) :
  Forall (fun w => (0 <= w)%Q) p -> in_cell p x i -> in_cell p x j -> i = j.
Proof.
  intros Hall [Hi1 Hi2] [Hj1 Hj2].
  destruct (lt_eq_lt_dec i j) as [[Hlt | ->] | Hlt]; [| reflexivity |].
  - pose proof (np_sum_take_mono p (S i) j Hall ltac:(lia)). lra.
  - pose proof (np_sum_take_mono p (S j) i Hall ltac:(lia)). lra.
Qed.

Lemma existsb_eqb_In (i : nat) (seen : list nat) :
  existsb (Nat.eqb i) seen = true <-> i ∈ seen.
Proof.
  rewrite existsb_exists. split.
  - intros (y & Hy & E). apply Nat.eqb_eq in E. subst.
    apply list_elem_of_In. assumption.
  - intros H. exists i. split; [apply list_elem_of_In; assumption |].
    apply Nat.eqb_refl.
Qed.

Lemma unique_in_order_spec (new seen : list nat) :
  NoDup (unique_in_order seen new) /\
  (forall i, i ∈ unique_in_order seen new -> i ∈ new /\ i ∉ seen) /\
  (length (unique_in_order seen new) <= length new)%nat.
Proof.
  revert seen. induction new as [| i rest IH]; intros seen; simpl.
  - split; [constructor |]. split; [| lia]. intros i H. inversion H.
  - destruct (existsb (Nat.eqb i) seen) eqn:E.
    + destruct (IH seen) as (Hnd & Hin & Hlen).
      split; [assumption |]. split; [| lia].
      intros k Hk. destruct (Hin k Hk). split; [right |]; assumption.
    + assert (i ∉ seen) as Hi.
      { intros H. apply existsb_eqb_In in H. congruence. }
      destruct (IH (i :: seen)) as (Hnd & Hin & Hlen).
      split; [| split; [| simpl; lia]].
      * constructor; [| assumption].
        intros H. destruct (Hin i H) as [_ Hn]. apply Hn. left.
      * intros k Hk. apply elem_of_cons in Hk as [-> | Hk].
        -- split; [left | assumption].
        -- destruct (Hin k Hk) as [H1 H2]. split; [right; assumption |].
           intros H. apply H2. right. assumption.
Qed.

Lemma fresh_index (n : nat) (found : list nat) :
  (length found < n)%nat -> exists i, (i < n)%nat /\ i ∉ found.
Proof.
  intros Hlen.
  destruct (decide (Forall (fun i => i ∈ found) (seq 0 n))) as [Hall | Hex].
  - exfalso. rewrite Forall_forall in Hall.
    assert (seq 0 n ⊆+ found) as Hsub
      by (apply NoDup_submseteq; [apply NoDup_ListNoDup, seq_NoDup | exact Hall]).
    apply submseteq_length in Hsub. rewrite length_seq in Hsub. lia.
  - apply not_Forall_Exists in Hex; [| intros; apply _].
    apply Exists_exists in Hex as (i & Hi & Hn).
    exists i. split; [| exact Hn].
    apply list_elem_of_In, in_seq in Hi. lia.
Qed.

Lemma choice_loop_spec {Self} (p0 : list Q) (size : nat) :
  Forall (fun w => (0 < w)%Q) p0 -> (size <= length p0)%nat ->
  forall (fuel : nat) (p : list Q) (found : list nat) (s : Self)
         (g : RandomState),
    (size - length found < fuel)%nat ->
    length p = length p0 ->
    Forall (fun w => (0 <= w)%Q) p ->
    (forall i, i ∉ found -> p !! i = p0 !! i) ->
    NoDup found -> Forall (fun i => (i < length p0)%nat) found ->
    (length found <= size)%nat ->
    exists out g',
      choice_loop fuel size p found s g = (Ok out, (s, g')) /\
      NoDup out /\ Forall (fun i => (i < length p0)%nat) out /\
      length out = size /\
      (exists rest, out = found ++ rest) /\
      (found = [] -> (0 < size)%nat ->
       head out = Some (inverse_cdf p (uniform01 (entropy g (cursor g))))).
Proof.
  intros Hp0 Hsize.
  induction fuel as [| fuel IH];
    intros p found s g Hfuel Hlen Hnonneg Hout Hnd Hrange Hle; [lia |].
  cbn [choice_loop].
  destruct (length found <? size)%nat eqn:E.
  2:{ apply Nat.ltb_ge in E. exists found, g.
      split; [reflexivity |]. split; [assumption |]. split; [assumption |].
      split; [lia |]. split; [exists []; rewrite app_nil_r; reflexivity |].
      intros -> H. simpl in *. lia. }
  apply Nat.ltb_lt in E.
  unfold bind, np_random_rand.
  pose proof (rand_from_spec (size - length found) g) as (Hxl & Hxr & Hxh).
  destruct (rand_from (size - length found) g) as [xs g1]. simpl in Hxl, Hxr, Hxh.
  set (q := if (0 <? length found)%nat then zero_at found p else p).
  assert (length q = length p0) as Hqlen.
  { subst q. destruct (0 <? length found)%nat; [rewrite zero_at_length |];
      assumption. }
  assert (Forall (fun w => (0 <= w)%Q) q) as Hqnonneg.
  { subst q. destruct (0 <? length found)%nat; [apply zero_at_nonneg |];
      assumption. }
  assert (forall i, i ∉ found -> q !! i = p0 !! i) as Hqout.
  { intros i Hi. subst q. destruct (0 <? length found)%nat; [| auto].
    rewrite zero_at_lookup. destruct (decide (i ∈ found)); [contradiction |].
    auto. }
  assert (forall i w, i ∈ found -> q !! i = Some w -> ~ (0 < w)%Q) as Hqin.
  { intros i w Hi Hw. subst q.
    destruct (0 <? length found)%nat eqn:E0.
    - rewrite zero_at_lookup in Hw.
      destruct (decide (i ∈ found)); [| contradiction].
      destruct (p !! i); simpl in Hw; [| discriminate].
      injection Hw as <-. lra.
    - apply Nat.ltb_ge in E0. destruct found; [inversion Hi | simpl in E0; lia]. }
  assert (0 < np_sum q)%Q as Hsum.
  { destruct (fresh_index (length p0) found ltac:(lia)) as (i & Hi & Hfresh).
    destruct (lookup_lt_is_Some_2 p0 i Hi) as [w Hw].
    apply (np_sum_pos_at q i w); [assumption | rewrite Hqout; assumption |].
    rewrite Forall_forall in Hp0. apply Hp0.
    apply list_elem_of_lookup. exists i. assumption. }
  assert (forall x, (0 <= x < 1)%Q ->
            (inverse_cdf q x < length p0)%nat /\ inverse_cdf q x ∉ found)
    as Hdraw.
  { intros x Hx.
    destruct (inverse_cdf_spec q x Hqnonneg Hsum Hx) as (w & Hw & Hpos & _).
    split.
    - rewrite <- Hqlen. eapply lookup_lt_Some. eassumption.
    - intros Hin. apply (Hqin _ _ Hin Hw). assumption. }
  change (map (searchsorted_right
                 (map (fun c => (c / List.last (np_cumsum q) 0)%Q)
                      (np_cumsum q))) xs)
    with (map (inverse_cdf q) xs).
  set (new := unique_in_order [] (map (inverse_cdf q) xs)).
  destruct (unique_in_order_spec (map (inverse_cdf q) xs) [])
    as (Hnewnd & Hnewin & Hnewlen).
  fold new in Hnewnd, Hnewin, Hnewlen. rewrite length_map in Hnewlen.
  assert (forall i, i ∈ new -> (i < length p0)%nat /\ i ∉ found) as Hnew.
  { intros i Hi. destruct (Hnewin i Hi) as [Hmap _].
    apply list_elem_of_fmap in Hmap as (x & -> & Hx).
    apply Hdraw. rewrite Forall_forall in Hxr. apply Hxr. assumption. }
  assert (exists x0 tl, xs = x0 :: tl /\
            new = inverse_cdf q x0 :: unique_in_order [inverse_cdf q x0]
                                        (map (inverse_cdf q) tl))
    as (x0 & tl & Exs & Enew).
  { destruct xs as [| x0 tl]; [simpl in Hxl; lia |].
    exists x0, tl. split; reflexivity. }
  destruct (IH q (found ++ new) s g1) as (out & g' & Hrun & H1 & H2 & H3 & H4 & _).
  - rewrite length_app, Enew. simpl. lia.
  - assumption.
  - assumption.
  - intros i Hi. apply Hqout. intros Hin. apply Hi.
    apply elem_of_app. left. assumption.
  - apply NoDup_app. split; [assumption |]. split; [| assumption].
    intros i Hi Hin. destruct (Hnew i Hin) as [_ Hn]. contradiction.
  - apply Forall_app. split; [assumption |].
    apply Forall_forall. intros i Hi. apply Hnew. assumption.
  - rewrite length_app. lia.
  - exists out, g'. split; [exact Hrun |].
    split; [assumption |]. split; [assumption |]. split; [assumption |].
    destruct H4 as [rest ->]. split.
    + exists (new ++ rest). rewrite app_assoc. reflexivity.
    + intros -> Hpos. simpl. rewrite Enew. simpl.
      subst q. simpl. f_equal. f_equal.
      rewrite Exs in Hxh. simpl in Hxh.
      assert (size - 0 <> 0)%nat as Hk by lia.
      specialize (Hxh Hk). congruence.
Qed.

Lemma np_sum_scaled (ws : list Q) (W : Q) :
  ~ (W == 0)%Q -> (np_sum (map (fun w => w / W) ws) == np_sum ws / W)%Q.
Proof.
  intros HW. induction ws as [| w ws IH]; unfold np_sum in *; simpl.
  - field. assumption.
  - rewrite IH. field. assumption.
Qed.

Lemma np_sum_take_S (l : list Q) (i : nat) (w : Q) :
  l !! i = Some w -> (np_sum (take (S i) l) == np_sum (take i l) + w)%Q.
Proof.
  intros Hw. rewrite (take_S_r _ _ _ Hw), np_sum_app.
  unfold np_sum. simpl. ring.
Qed.

Lemma existsb_negative_false (p : list Q) :
  Forall (fun w => (0 < w)%Q) p -> existsb (fun x => Qltb x 0) p = false.
Proof.
  induction 1 as [| w p Hw _ IH]; simpl; [reflexivity |].
  rewrite IH, orb_false_r. apply Qltb_ge. lra.
Qed.

Lemma count_positive_all (p : list Q) :
  Forall (fun w => (0 < w)%Q) p -> count_positive p = length p.
Proof.
  unfold count_positive.
  induction 1 as [| w p Hw _ IH]; simpl; [reflexivity |].
  apply Qltb_lt in Hw. rewrite Hw. simpl. rewrite IH. reflexivity.
Qed.

Lemma np_random_choice_checks {Self} (a size : Z) (p : list Q) (s : Self)
    (g : RandomState) :
  0 < a -> Z.of_nat (length p) = a -> Forall (fun w => (0 < w)%Q) p ->
  (np_sum p == 1)%Q -> 0 <= size <= a ->
  np_random_choice a size p s g
  = bind (choice_loop (S (Z.to_nat size)) (Z.to_nat size) p [])
         (fun found => ret (map Z.of_nat found)) s g.
Proof.
  intros Ha Hlen Hpos Hsum Hsize. unfold np_random_choice.
  replace ((a <=? 0) && negb (size =? 0)) with false
    by (symmetry; apply andb_false_iff; left; apply Z.leb_gt; lia).
  replace (negb (Z.of_nat (length p) =? a)) with false
    by (symmetry; apply negb_false_iff, Z.eqb_eq; assumption).
  rewrite existsb_negative_false by assumption.
  replace (Qltb choice_atol (Qabs (np_sum p - 1))) with false.
  2:{ symmetry. apply Qltb_ge.
      assert (np_sum p - 1 == 0)%Q as E by lra.
      rewrite (Qabs_wd _ _ E). vm_compute. discriminate. }
  replace (a <? size) with false by (symmetry; apply Z.ltb_ge; lia).
  replace (size <? 0) with false by (symmetry; apply Z.ltb_ge; lia).
  rewrite count_positive_all by assumption.
  replace (Z.of_nat (length p) <? size) with false
    by (symmetry; apply Z.ltb_ge; lia).
  reflexivity.
Qed.

Lemma np_random_choice_too_many {Self} (a size : Z) (p : list Q) (s : Self)
    (g : RandomState) :
  a < size -> exists e, outcome (np_random_choice a size p s g) = Raise e.
Proof.
  intros H. unfold np_random_choice.
  repeat match goal with
         | |- context [if ?c then _ else _] =>
             destruct c eqn:?; [eexists; reflexivity |]
         end.
  match goal with
  | Hlt : (a <? size) = false |- _ => apply Z.ltb_ge in Hlt; lia
  end.
Qed.

Section PrioritizedSampling.

Variable float_power : Q -> Q -> Q.

Lemma sampling_probs_lookup (b : PrioritizedExperienceReplay.t) (i : nat)
    (pr : Q) :
  PrioritizedExperienceReplay.priorities b !! i = Some pr ->
  PrioritizedExperienceReplay.sampling_probs float_power b !! i
  = Some (float_power pr (PrioritizedExperienceReplay.prob_alpha b)
          / np_sum (map (fun p => float_power p
                                    (PrioritizedExperienceReplay.prob_alpha b))
                        (PrioritizedExperienceReplay.priorities b)))%Q.
Proof.
  intros H. unfold PrioritizedExperienceReplay.sampling_probs.
  rewrite !list_lookup_fmap, H. reflexivity.
Qed.

Lemma sampling_probs_sum (b : PrioritizedExperienceReplay.t) :
  (forall x a, (0 < x)%Q -> (0 < float_power x a)%Q) ->
  Forall (fun p => (0 < p)%Q) (PrioritizedExperienceReplay.priorities b) ->
  PrioritizedExperienceReplay.priorities b <> [] ->
  (np_sum (PrioritizedExperienceReplay.sampling_probs float_power b) == 1)%Q.
Proof.
  intros Hpow Hpos Hne. unfold PrioritizedExperienceReplay.sampling_probs.
  set (ws := map _ (PrioritizedExperienceReplay.priorities b)).
  assert (0 < np_sum ws)%Q as HW.
  { apply np_sum_pos.
    - subst ws. destruct (PrioritizedExperienceReplay.priorities b);
        [congruence | discriminate].
    - subst ws. apply Forall_map. eapply Forall_impl; [exact Hpos |].
      simpl. intros p Hp. apply Hpow. assumption. }
  rewrite np_sum_scaled by lra. field. lra.
Qed.


End PrioritizedSampling.


(** * Further properties of the memories *)

(** ** First in, first out *)

Lemma deque_append_last_n {A} (maxlen : Z) (d : list A) (x : A) :
  0 <= maxlen -> Z.of_nat (length d) <= maxlen ->
  deque_append maxlen d x = last_n (Z.to_nat maxlen) (d ++ [x]).
Proof.
  intros H0 Hd. unfold deque_append, last_n. rewrite length_app. simpl.
  destruct (maxlen <? Z.of_nat (length d + 1)) eqn:E.
  - apply Z.ltb_lt in E.
    replace (length d + 1 - Z.to_nat maxlen)%nat with 1%nat by lia.
    destruct (d ++ [x]); reflexivity.
  - apply Z.ltb_ge in E.
    replace (length d + 1 - Z.to_nat maxlen)%nat with 0%nat by lia.
    reflexivity.
Qed.

Lemma last_n_0 {A} (l : list A) : last_n 0 l = [].
Proof. unfold last_n. rewrite Nat.sub_0_r. apply drop_all. Qed.

Lemma last_n_snoc {A} (n : nat) (l : list A) (x : A) :
  last_n n (last_n n l ++ [x]) = last_n n (l ++ [x]).
Proof.
  destruct n as [| n]; [rewrite !last_n_0; reflexivity |].
  unfold last_n. rewrite !length_app, length_drop. simpl.
  destruct (decide (length l <= S n)%nat) as [Hle | Hgt].
  - replace (length l - S n)%nat with 0%nat by lia.
    rewrite Nat.sub_0_r. reflexivity.
  - replace (length l - (length l - S n) + 1 - S n)%nat with 1%nat by lia.
    replace (length l + 1 - S n)%nat with (S (length l - S n)) by lia.
    rewrite (drop_app_le l) by lia.
    rewrite drop_app_le by (rewrite length_drop; lia).
    rewrite drop_drop. f_equal. f_equal. lia.
Qed.

Lemma after_appends_snoc (b : ExperienceReplay.t) (ts : list Transition.t)
    (t : Transition.t) :
  after_appends b (ts ++ [t]) = ExperienceReplay.append (after_appends b ts) t.
Proof. unfold after_appends. rewrite fold_left_app. reflexivity. Qed.

(** X1.  A uniform memory is first in, first out: after any sequence of
    appends to a fresh memory, the store holds the last [size] transitions
    appended, in the order of their arrival, and [current_size] is the
    smaller of the number of appends and the capacity. *)
Theorem uniform_memory_is_fifo (size batch_size : Z) (b0 : ExperienceReplay.t)
    (ts : list Transition.t) :
  ExperienceReplay.__init__ size batch_size = Ok b0 ->
  ExperienceReplay._buffer (after_appends b0 ts)
  = last_n (Z.to_nat size) ts /\
  ExperienceReplay.current_size (after_appends b0 ts)
  = Z.min (Z.of_nat (length ts)) size /\
  ExperienceReplay.size (after_appends b0 ts) = size.
Proof.
  unfold ExperienceReplay.__init__.
  destruct (size <? 0) eqn:E; [discriminate |].
  apply Z.ltb_ge in E. intros [= <-]. simpl.
  induction ts as [| t ts IH] using rev_ind.
  - simpl. unfold last_n. simpl. repeat split. lia.
  - destruct IH as (Hbuf & Hcur & Hsize).
    rewrite after_appends_snoc. unfold ExperienceReplay.append.
    rewrite Hsize, Hbuf. simpl.
    assert (Z.of_nat (length (last_n (Z.to_nat size) ts)) <= size) as Hlen.
    { unfold last_n. rewrite length_drop. lia. }
    rewrite deque_append_last_n by assumption.
    rewrite last_n_snoc. split; [reflexivity |]. split; [| reflexivity].
    unfold last_n. rewrite length_drop, !length_app. simpl. lia.
Qed.

Lemma uniform_memory_is_fifo_witness :
  exists b0,
    ExperienceReplay.__init__ 2 1 = Ok b0 /\
    ExperienceReplay._buffer
      (after_appends b0 [blank_transition; fresh_transition; blank_transition])
    = [fresh_transition; blank_transition].
Proof.
  eexists. split; [reflexivity |].
  destruct (uniform_memory_is_fifo 2 1 _
              [blank_transition; fresh_transition; blank_transition] eq_refl)
    as (Hbuf & _).
  rewrite Hbuf. reflexivity.
Defined.

(** ** Reading a memory *)

Lemma py_index_Some_iff (n : nat) (i : Z) (k : nat) :
  py_index n i = Some k <->
  (0 <= i < Z.of_nat n /\ k = Z.to_nat i) \/
  (- Z.of_nat n <= i < 0 /\ k = Z.to_nat (i + Z.of_nat n)).
Proof.
  unfold py_index. destruct (i <? 0) eqn:Ei.
  - apply Z.ltb_lt in Ei.
    destruct ((0 <=? i + Z.of_nat n) && (i + Z.of_nat n <? Z.of_nat n)) eqn:E.
    + apply andb_true_iff in E as [E1 E2].
      apply Z.leb_le in E1. apply Z.ltb_lt in E2.
      split; [intros [= <-]; right; lia | intros [[? ?] | [? ->]]; [lia | reflexivity]].
    + apply andb_false_iff in E as [E | E];
        [apply Z.leb_gt in E | apply Z.ltb_ge in E];
        (split; [discriminate | intros [[? ?] | [? ?]]; lia]).
  - apply Z.ltb_ge in Ei.
    destruct ((0 <=? i) && (i <? Z.of_nat n)) eqn:E.
    + apply andb_true_iff in E as [E1 E2].
      apply Z.leb_le in E1. apply Z.ltb_lt in E2.
      split; [intros [= <-]; left; lia | intros [[? ->] | [? ?]]; [reflexivity | lia]].
    + apply andb_false_iff in E as [E | E];
        [apply Z.leb_gt in E | apply Z.ltb_ge in E];
        (split; [discriminate | intros [[? ?] | [? ?]]; lia]).
Qed.

Lemma py_index_None_iff (n : nat) (i : Z) :
  py_index n i = None <-> i < - Z.of_nat n \/ Z.of_nat n <= i.
Proof.
  split.
  - intros H.
    destruct (decide (0 <= i < Z.of_nat n)) as [Hin | Hout].
    + assert (py_index n i = Some (Z.to_nat i)) as E
        by (apply py_index_Some_iff; left; split; [assumption | reflexivity]).
      congruence.
    + destruct (decide (- Z.of_nat n <= i < 0)) as [Hneg | Hout'].
      * assert (py_index n i = Some (Z.to_nat (i + Z.of_nat n))) as E
          by (apply py_index_Some_iff; right; split; [assumption | reflexivity]).
        congruence.
      * lia.
  - intros H. destruct (py_index n i) as [k |] eqn:E; [| reflexivity].
    apply py_index_Some_iff in E. lia.
Qed.

Lemma py_getitem_item_at (buffer : list Transition.t) (i : Z) :
  py_getitem buffer i
  = match item_at buffer i with
    | Some item => Ok item
    | None => Raise IndexError
    end.
Proof.
  unfold py_getitem, item_at.
  destruct (py_index (length buffer) i) as [k |] eqn:E; simpl; [| reflexivity].
  destruct (buffer !! k); reflexivity.
Qed.

Lemma item_at_None_iff (buffer : list Transition.t) (i : Z) :
  item_at buffer i = None <->
  i < - Z.of_nat (length buffer) \/ Z.of_nat (length buffer) <= i.
Proof.
  rewrite <- py_index_None_iff. unfold item_at.
  destruct (py_index (length buffer) i) as [k |] eqn:E; simpl.
  - apply py_index_lt in E. apply lookup_lt_is_Some_2 in E as [x Hx].
    rewrite Hx. split; discriminate.
  - split; reflexivity.
Qed.

Lemma gather_items (buffer : list Transition.t) (indices : list Z)
    (items : list Transition.t) (acc : Batch) :
  Forall2 (fun i item => item_at buffer i = Some item) indices items ->
  ExperienceReplay.gather buffer indices acc
  = Ok (mkBatch (states acc ++ map Transition.state items)
                (actions acc ++ map Transition.action items)
                (rewards acc ++ map Transition.reward items)
                (dones acc ++ map Transition.done items)
                (new_states acc ++ map Transition.new_state items)).
Proof.
  intros H. revert acc.
  induction H as [| i item indices items Hi _ IH]; intros acc; simpl.
  - rewrite !app_nil_r. destruct acc. reflexivity.
  - rewrite py_getitem_item_at, Hi, IH. simpl.
    rewrite <- !app_assoc. reflexivity.
Qed.

Lemma gather_out_of_range (buffer : list Transition.t) (indices : list Z)
    (acc : Batch) :
  Exists (fun i => item_at buffer i = None) indices ->
  ExperienceReplay.gather buffer indices acc = Raise IndexError.
Proof.
  intros H. revert acc.
  induction indices as [| i indices IH]; intros acc; [inversion H |].
  simpl. rewrite py_getitem_item_at.
  destruct (item_at buffer i) as [item |] eqn:E; [| reflexivity].
  apply IH. inversion H; subst; [congruence | assumption].
Qed.



(** X3.  [get_sample] raises [IndexError] as soon as one index lies
    outside [[-n, n)], [n] the number of stored transitions, on either
    variant; in particular on every non-empty index list when the memory is
    empty. *)
Theorem get_sample_out_of_range (indices : list Z) :
  (forall b g,
     Exists (fun i => i < - ExperienceReplay.__len__ b
                      \/ ExperienceReplay.__len__ b <= i) indices ->
     outcome (ExperienceReplay.get_sample indices b g) = Raise IndexError) /\
  (forall b g,
     Exists (fun i => i < - PrioritizedExperienceReplay.__len__ b
                      \/ PrioritizedExperienceReplay.__len__ b <= i) indices ->
     outcome (PrioritizedExperienceReplay.get_sample indices b g)
     = Raise IndexError).
Proof.
  split; intros b g H;
    unfold ExperienceReplay.get_sample, PrioritizedExperienceReplay.get_sample,
      bind, get_self, lift_result, outcome; simpl;
    apply gather_out_of_range;
    (eapply Exists_impl; [exact H |]);
    simpl; intros i Hi; apply item_at_None_iff; exact Hi.
Qed.

Lemma get_sample_out_of_range_witness :
  outcome (ExperienceReplay.get_sample [0; 3; 1]
             (ExperienceReplay.mk 5 1 3
                [blank_transition; fresh_transition; blank_transition])
             (constant_entropy 0))
  = Raise IndexError.
Proof.
  apply (get_sample_out_of_range [0; 3; 1]).
  apply Exists_cons_tl, Exists_cons_hd. right.
  unfold ExperienceReplay.__len__. simpl. lia.
Defined.

Lemma item_at_last (l : list Transition.t) (t : Transition.t) :
  item_at (l ++ [t]) (-1) = Some t.
Proof.
  unfold item_at.
  assert (py_index (length (l ++ [t])) (-1) = Some (length l)) as E.
  { apply py_index_Some_iff. right. rewrite length_app. simpl. lia. }
  rewrite E. simpl. rewrite lookup_app_r by lia.
  replace (length l - length l)%nat with 0%nat by lia. reflexivity.
Qed.

Lemma deque_append_ends_with {A} (maxlen : Z) (d : list A) (x : A) :
  1 <= maxlen -> exists l, deque_append maxlen d x = l ++ [x].
Proof.
  intros H. unfold deque_append.
  destruct (maxlen <? Z.of_nat (length (d ++ [x]))) eqn:E.
  - destruct d as [| y d].
    + apply Z.ltb_lt in E. simpl in E. lia.
    + exists d. reflexivity.
  - exists d. reflexivity.
Qed.

(** X4.  On a uniform memory of capacity at least one, whatever its
    state, the transition just appended is the one the index [-1] denotes,
    and the memory is not empty. *)
Theorem uniform_append_then_last (b : ExperienceReplay.t) (t : Transition.t) :
  1 <= ExperienceReplay.size b ->
  ExperienceReplay.__getitem__ (ExperienceReplay.append b t) (-1) = Ok t /\
  1 <= ExperienceReplay.__len__ (ExperienceReplay.append b t).
Proof.
  intros Hsize.
  unfold ExperienceReplay.__getitem__, ExperienceReplay.__len__,
    ExperienceReplay.append. simpl.
  destruct (deque_append_ends_with (ExperienceReplay.size b)
              (ExperienceReplay._buffer b) t Hsize) as [l ->].
  rewrite py_getitem_item_at, item_at_last. split; [reflexivity |].
  rewrite length_app. simpl. lia.
Qed.

Lemma uniform_append_then_last_witness :
  ExperienceReplay.__getitem__
    (ExperienceReplay.append
       (ExperienceReplay.mk 2 1 2 [blank_transition; blank_transition])
       fresh_transition) (-1)
  = Ok fresh_transition.
Proof.
  apply uniform_append_then_last. simpl. lia.
Defined.

(** ** Sampling from the uniform memory *)

Lemma item_at_in_range (buffer : list Transition.t) (i : Z) :
  0 <= i < Z.of_nat (length buffer) ->
  exists item, item_at buffer i = Some item /\ In item buffer.
Proof.
  intros Hi. unfold item_at.
  assert (py_index (length buffer) i = Some (Z.to_nat i)) as E
    by (apply py_index_Some_iff; left; split; [assumption | reflexivity]).
  rewrite E. simpl.
  destruct (lookup_lt_is_Some_2 buffer (Z.to_nat i) ltac:(lia)) as [item Hitem].
  exists item. split; [assumption |].
  apply list_elem_of_In, list_elem_of_lookup. exists (Z.to_nat i). assumption.
Qed.

Lemma items_of_indices (buffer : list Transition.t) (indices : list Z) :
  Forall (fun i => 0 <= i < Z.of_nat (length buffer)) indices ->
  exists items,
    Forall2 (fun i item => item_at buffer i = Some item) indices items /\
    Forall (fun item => In item buffer) items.
Proof.
  induction 1 as [| i indices Hi _ (items & H2 & Hin)].
  - exists []. split; constructor.
  - destruct (item_at_in_range buffer i Hi) as (item & Hitem & Hmem).
    exists (item :: items). split; constructor; assumption.
Qed.

Lemma uniform_sampling_runs (b : ExperienceReplay.t) (g : RandomState) :
  0 < ExperienceReplay.size b <= int32_max + 1 ->
  ExperienceReplay.size b <= ExperienceReplay.__len__ b ->
  exists indices items g',
    ExperienceReplay.get_sample_indices b g = (Ok indices, (b, g')) /\
    ExperienceReplay.get_sample indices b g' = (Ok (batch_of items), (b, g')) /\
    Z.of_nat (length items) = Z.max 0 (ExperienceReplay.batch_size b) /\
    Forall (fun item => In item (ExperienceReplay._buffer b)) items.
Proof.
  intros Hsize Hfull.
  destruct (uniform_indices_below_capacity b g Hsize)
    as (indices & g' & Hrun & Hrange & Hlen).
  unfold ExperienceReplay.__len__ in Hfull.
  assert (Forall (fun i => 0 <= i < Z.of_nat (length (ExperienceReplay._buffer b)))
                 indices) as Hrange'
    by (eapply Forall_impl; [exact Hrange | simpl; intros; lia]).
  destruct (items_of_indices _ _ Hrange') as (items & Hitems & Hmem).
  exists indices, items, g'. split; [exact Hrun |]. split.
  - unfold ExperienceReplay.get_sample, bind, get_self, lift_result.
    rewrite (gather_items _ _ _ _ Hitems). reflexivity.
  - split; [| exact Hmem].
    apply Forall2_length in Hitems. lia.
Qed.



(** X6.  The three cases of the uniform [get_sample_indices].  With a
    non-positive [batch_size] it returns the empty list without drawing.
    With a positive [batch_size] and a capacity that is not positive or
    exceeds [2 ^ 31] it raises [ValueError] (from [np.random.randint])
    without drawing.  With a capacity between 1 and [2 ^ 31] it returns
    [batch_size] indices, each in [[0, size)], and leaves the memory as it
    was. *)
Theorem uniform_get_sample_indices_cases (b : ExperienceReplay.t)
    (g : RandomState) :
  (ExperienceReplay.batch_size b <= 0 ->
   ExperienceReplay.get_sample_indices b g = (Ok [], (b, g))) /\
  (1 <= ExperienceReplay.batch_size b ->
   ExperienceReplay.size b <= 0 \/ int32_max + 1 < ExperienceReplay.size b ->
   ExperienceReplay.get_sample_indices b g = (Raise ValueError, (b, g))) /\
  (0 < ExperienceReplay.size b <= int32_max + 1 ->
   exists indices g',
     ExperienceReplay.get_sample_indices b g = (Ok indices, (b, g')) /\
     Forall (fun i => 0 <= i < ExperienceReplay.size b) indices /\
     Z.of_nat (length indices) = Z.max 0 (ExperienceReplay.batch_size b)).
Proof.
  split; [| split].
  - intros Hbs.
    unfold ExperienceReplay.get_sample_indices, bind, get_self.
    cbn [ExperienceReplay.sample_loop].
    unfold bind, get_self, ret. change (Z.of_nat (length (@nil Z))) with 0.
    replace (0 <? ExperienceReplay.batch_size b) with false
      by (symmetry; apply Z.ltb_ge; lia).
    reflexivity.
  - intros Hbs Hsize.
    unfold ExperienceReplay.get_sample_indices, bind, get_self.
    cbn [ExperienceReplay.sample_loop].
    unfold bind, get_self, np_random_randint.
    change (Z.of_nat (length (@nil Z))) with 0.
    replace (0 <? ExperienceReplay.batch_size b) with true
      by (symmetry; apply Z.ltb_lt; lia).
    replace ((ExperienceReplay.size b <=? 0) || (0 <? int32_min)
             || (int32_max + 1 <? ExperienceReplay.size b)) with true;
      [reflexivity |].
    symmetry. destruct Hsize as [H | H].
    + apply orb_true_iff. left. apply orb_true_iff. left. apply Z.leb_le. lia.
    + apply orb_true_iff. right. apply Z.ltb_lt. lia.
  - apply uniform_indices_below_capacity.
Qed.

Lemma uniform_get_sample_indices_cases_witness :
  ExperienceReplay.get_sample_indices (ExperienceReplay.mk 0 4 0 [])
    (constant_entropy 1)
  = (Raise ValueError, (ExperienceReplay.mk 0 4 0 [], constant_entropy 1)) /\
  ExperienceReplay.get_sample_indices (ExperienceReplay.mk 3 0 0 [])
    (constant_entropy 1)
  = (Ok [], (ExperienceReplay.mk 3 0 0 [], constant_entropy 1)) /\
  exists (indices : list Z) g',
    ExperienceReplay.get_sample_indices
      (ExperienceReplay.mk 3 2 1 [blank_transition]) (constant_entropy 7)
    = (Ok indices, (ExperienceReplay.mk 3 2 1 [blank_transition], g')) /\
    Z.of_nat (length indices) = 2.
Proof.
  split; [| split].
  - apply uniform_get_sample_indices_cases; simpl; lia.
  - apply uniform_get_sample_indices_cases; simpl; lia.
  - destruct (uniform_get_sample_indices_cases
                (ExperienceReplay.mk 3 2 1 [blank_transition])
                (constant_entropy 7))
      as (_ & _ & Hvalid).
    destruct Hvalid as (indices & g' & Hrun & _ & Hlen).
    + simpl. unfold int32_max. lia.
    + exists indices, g'. split; [exact Hrun | exact Hlen].
Defined.

(** ** The prioritized memory when priorities are never updated *)

Lemma Qmaxb_same (x : Q) : Qmaxb x x = x.
Proof.
  unfold Qmaxb. replace (Qltb x x) with false; [reflexivity |].
  symmetry. apply Qltb_ge. lra.
Qed.

Lemma np_max_repeat (x : Q) (k : nat) :
  np_max (repeat x (S k)) = Ok x.
Proof.
  simpl. f_equal. induction k as [| k IH]; simpl; [reflexivity |].
  rewrite Qmaxb_same. exact IH.
Qed.

Lemma argmin_from_repeat (x : Q) (k i best : nat) :
  argmin_from (repeat x k) i best x = best.
Proof.
  revert i. induction k as [| k IH]; intros i; simpl; [reflexivity |].
  replace (Qltb x x) with false by (symmetry; apply Qltb_ge; lra).
  apply IH.
Qed.

Lemma np_argmin_repeat (x : Q) (k : nat) :
  np_argmin (repeat x (S k)) = Ok 0%nat.
Proof. simpl. rewrite argmin_from_repeat. reflexivity. Qed.

Lemma after_calls_snoc (b : PrioritizedExperienceReplay.t) (cs : list call)
    (c : call) :
  after_calls b (cs ++ [c]) = after_call (after_calls b cs) c.
Proof. unfold after_calls. rewrite fold_left_app. reflexivity. Qed.

Lemma append_with_equal_priorities (b : PrioritizedExperienceReplay.t)
    (t : Transition.t) :
  per_inv b -> 1 <= PrioritizedExperienceReplay.size b ->
  PrioritizedExperienceReplay.priorities b
  = repeat (PrioritizedExperienceReplay.epsilon b)
           (length (PrioritizedExperienceReplay._buffer b)) ->
  exists b',
    PrioritizedExperienceReplay.append b t = Ok b' /\
    PrioritizedExperienceReplay.size b' = PrioritizedExperienceReplay.size b /\
    PrioritizedExperienceReplay.epsilon b'
    = PrioritizedExperienceReplay.epsilon b /\
    PrioritizedExperienceReplay.priorities b'
    = repeat (PrioritizedExperienceReplay.epsilon b)
             (length (PrioritizedExperienceReplay._buffer b')) /\
    (Z.of_nat (length (PrioritizedExperienceReplay._buffer b))
     < PrioritizedExperienceReplay.size b ->
     PrioritizedExperienceReplay._buffer b'
     = PrioritizedExperienceReplay._buffer b ++ [t]) /\
    (PrioritizedExperienceReplay.size b
     <= Z.of_nat (length (PrioritizedExperienceReplay._buffer b)) ->
     PrioritizedExperienceReplay._buffer b'
     = <[0%nat := t]> (PrioritizedExperienceReplay._buffer b)).
Proof.
  intros [Hc Hp Hcap] Hsize Hpri.
  unfold PrioritizedExperienceReplay.append. rewrite Hc.
  destruct (Z.of_nat (length (PrioritizedExperienceReplay._buffer b))
            <? PrioritizedExperienceReplay.size b) eqn:E.
  - apply Z.ltb_lt in E.
    assert ((if (length (PrioritizedExperienceReplay.priorities b) =? 0)%nat
             then Ok (PrioritizedExperienceReplay.epsilon b)
             else np_max (PrioritizedExperienceReplay.priorities b))
            = Ok (PrioritizedExperienceReplay.epsilon b)) as Hnew.
    { rewrite Hpri, repeat_length.
      destruct (length (PrioritizedExperienceReplay._buffer b)) as [| k];
        [reflexivity |].
      simpl Nat.eqb. cbv iota. apply np_max_repeat. }
    rewrite Hnew. eexists. split; [reflexivity |]. simpl.
    split; [reflexivity |]. split; [reflexivity |]. split.
    + rewrite Hpri, length_app. simpl. rewrite Nat.add_1_r. simpl.
      symmetry. apply repeat_cons.
    + split; [intros _; reflexivity | lia].
  - apply Z.ltb_ge in E.
    destruct (length (PrioritizedExperienceReplay._buffer b)) as [| k] eqn:Ek;
      [simpl in E; lia |].
    rewrite Hpri, np_argmin_repeat, np_max_repeat.
    replace (0 <? S k)%nat with true by reflexivity.
    eexists. split; [reflexivity |]. simpl.
    split; [reflexivity |]. split; [reflexivity |]. split.
    + rewrite length_insert, Ek. reflexivity.
    + split; [lia | intros _; reflexivity].
Qed.

Lemma appends_only_state (size batch_size : Z) (alpha eps : Q)
    (b0 : PrioritizedExperienceReplay.t) (ts : list Transition.t) :
  PrioritizedExperienceReplay.__init__ size batch_size alpha eps = Ok b0 ->
  1 <= size ->
  let b := after_calls b0 (map Append ts) in
  let capacity := Z.to_nat size in
  per_inv b /\
  PrioritizedExperienceReplay.size b = size /\
  PrioritizedExperienceReplay.epsilon b = eps /\
  PrioritizedExperienceReplay.priorities b
  = repeat eps (length (PrioritizedExperienceReplay._buffer b)) /\
  ((length ts <= capacity)%nat ->
   PrioritizedExperienceReplay._buffer b = ts) /\
  ((capacity < length ts)%nat ->
   exists us t, ts = us ++ [t] /\
     PrioritizedExperienceReplay._buffer b = <[0%nat := t]> (take capacity us)).
Proof.
  intros Hinit Hsize. simpl.
  destruct (per_init_inv _ _ _ _ _ Hinit) as (Hinv0 & Hsize0 & Heps0 & Hnil0).
  induction ts as [| t ts IH] using rev_ind.
  - simpl. split; [assumption |]. split; [assumption |]. split; [assumption |].
    assert (PrioritizedExperienceReplay._buffer b0 = []) as Hb0.
    { destruct Hinv0 as [_ Hp _]. rewrite Hnil0 in Hp.
      destruct (PrioritizedExperienceReplay._buffer b0); [reflexivity | discriminate]. }
    rewrite Hb0, Hnil0. split; [reflexivity |]. split; [reflexivity |].
    simpl. lia.
  - destruct IH as (Hinv & Hs & He & Hpri & Hsmall & Hlarge).
    rewrite map_app. simpl map. rewrite after_calls_snoc.
    set (b := after_calls b0 (map Append ts)) in *.
    pose proof (per_append_inv b t Hinv) as Hinv'.
    destruct (append_with_equal_priorities b t Hinv)
      as (b' & Hb' & Hs' & He' & Hpri' & Hunder & Hat);
      [lia | rewrite He; exact Hpri |].
    unfold after_call in *. rewrite Hb' in *.
    rewrite He in Hpri'. rewrite Hs in *. rewrite He in He'.
    split; [assumption |]. split; [assumption |]. split; [assumption |].
    split; [assumption |].
    assert (length (PrioritizedExperienceReplay._buffer b)
            = Nat.min (length ts) (Z.to_nat size)) as Hlen.
    { destruct (decide (length ts <= Z.to_nat size)%nat) as [H | H].
      - rewrite (Hsmall H). lia.
      - destruct (Hlarge ltac:(lia)) as (us & t0 & -> & ->).
        rewrite length_app in *. simpl in H.
        rewrite length_insert, length_take. lia. }
    rewrite length_app. simpl. split.
    + intros H. rewrite Hunder by lia. rewrite Hsmall by lia. reflexivity.
    + intros H. exists ts, t. split; [reflexivity |].
      rewrite Hat by lia.
      destruct (decide (length ts <= Z.to_nat size)%nat) as [H' | H'].
      * rewrite take_ge by lia. rewrite (Hsmall H'). reflexivity.
      * destruct (Hlarge ltac:(lia)) as (us & t0 & -> & ->).
        rewrite length_app in H'. simpl in H'.
        rewrite take_app_le by lia.
        apply list_insert_insert_eq.
Qed.

(** X7.  While [update_priorities] is never called, every priority of the
    prioritized memory is [epsilon]; the first [size] appends fill the
    store in order, and from then on every append overwrites slot 0 (the
    first index of the minimum when all priorities are equal): slots
    [1 .. size - 1] keep the transitions of the first fill for ever. *)
Theorem per_appends_without_updates (size batch_size : Z) (alpha eps : Q)
    (b0 : PrioritizedExperienceReplay.t) :
  PrioritizedExperienceReplay.__init__ size batch_size alpha eps = Ok b0 ->
  1 <= size ->
  let capacity := Z.to_nat size in
  (forall ts,
     PrioritizedExperienceReplay.priorities (after_calls b0 (map Append ts))
     = repeat eps (Nat.min (length ts) capacity)) /\
  (forall ts,
     (length ts <= capacity)%nat ->
     PrioritizedExperienceReplay._buffer (after_calls b0 (map Append ts)) = ts) /\
  (forall ts t,
     (capacity <= length ts)%nat ->
     PrioritizedExperienceReplay._buffer
       (after_calls b0 (map Append (ts ++ [t])))
     = <[0%nat := t]> (take capacity ts)).
Proof.
  intros Hinit Hsize capacity. split; [| split].
  - intros ts.
    destruct (appends_only_state _ _ _ _ _ ts Hinit Hsize)
      as (_ & _ & _ & Hpri & Hsmall & Hlarge).
    rewrite Hpri. f_equal.
    destruct (decide (length ts <= capacity)%nat) as [H | H].
    + rewrite (Hsmall H). lia.
    + destruct (Hlarge ltac:(unfold capacity in *; lia)) as (us & t & -> & ->).
      rewrite length_app in *. simpl in H.
      rewrite length_insert, length_take. unfold capacity in *. lia.
  - intros ts H.
    destruct (appends_only_state _ _ _ _ _ ts Hinit Hsize)
      as (_ & _ & _ & _ & Hsmall & _).
    apply Hsmall. exact H.
  - intros ts t H.
    destruct (appends_only_state _ _ _ _ _ (ts ++ [t]) Hinit Hsize)
      as (_ & _ & _ & _ & _ & Hlarge).
    destruct Hlarge as (us & t' & E & Hbuf).
    + rewrite length_app. simpl. unfold capacity in *. lia.
    + apply app_inj_tail in E as [<- <-]. exact Hbuf.
Qed.

Lemma per_appends_without_updates_witness :
  exists b0,
    PrioritizedExperienceReplay.__init__ 2 1 1 (1 # 1000) = Ok b0 /\
    PrioritizedExperienceReplay._buffer
      (after_calls b0
         (map Append ([blank_transition; blank_transition; blank_transition]
                      ++ [fresh_transition])))
    = [fresh_transition; blank_transition].
Proof.
  eexists. split; [reflexivity |].
  destruct (per_appends_without_updates 2 1 1 (1 # 1000) _ eq_refl ltac:(lia))
    as (_ & _ & Hlate).
  rewrite Hlate; [reflexivity | simpl; lia].
Defined.

(** X8.  A prioritized memory of capacity 0 accepts no transition: in
    every state reached from its construction, [append] raises
    [ValueError] (from [np.argmin] on the empty priorities) and the store
    is empty.  The uniform memory of capacity 0 silently stays empty. *)
Theorem capacity_zero_memories (batch_size : Z) (alpha eps : Q) :
  (forall b0 cs t,
     PrioritizedExperienceReplay.__init__ 0 batch_size alpha eps = Ok b0 ->
     PrioritizedExperienceReplay.append (after_calls b0 cs) t
     = Raise ValueError /\
     PrioritizedExperienceReplay._buffer (after_calls b0 cs) = []) /\
  (forall b0 ts,
     ExperienceReplay.__init__ 0 batch_size = Ok b0 ->
     ExperienceReplay._buffer (after_appends b0 ts) = []).
Proof.
  split.
  - intros b0 cs t Hinit.
    destruct (per_init_inv _ _ _ _ _ Hinit) as (Hinv & Hsize & _).
    destruct (per_calls_inv cs b0 Hinv) as [Hc Hp Hcap].
    destruct (per_calls_size cs b0) as (Hs & _).
    rewrite Hs, Hsize in Hcap.
    assert (PrioritizedExperienceReplay._buffer (after_calls b0 cs) = [])
      as Hbuf.
    { destruct (PrioritizedExperienceReplay._buffer (after_calls b0 cs));
        [reflexivity | simpl in Hcap; lia]. }
    split; [| exact Hbuf].
    rewrite Hbuf in Hc, Hp. simpl in Hc, Hp.
    unfold PrioritizedExperienceReplay.append.
    rewrite Hc, Hs, Hsize. simpl.
    destruct (PrioritizedExperienceReplay.priorities (after_calls b0 cs));
      [reflexivity | discriminate].
  - intros b0 ts Hinit.
    unfold ExperienceReplay.__init__ in Hinit. simpl in Hinit.
    injection Hinit as <-.
    destruct (uniform_appends_inv ts
                (ExperienceReplay.mk 0 batch_size 0 [])) as [Hs Hl];
      [simpl; lia | simpl; lia |].
    rewrite Hs in Hl. simpl in Hl.
    destruct (ExperienceReplay._buffer
                (after_appends (ExperienceReplay.mk 0 batch_size 0 []) ts));
      [reflexivity | simpl in Hl; lia].
Qed.

Lemma capacity_zero_memories_witness :
  exists b0,
    PrioritizedExperienceReplay.__init__ 0 4 1 (1 # 1000) = Ok b0 /\
    PrioritizedExperienceReplay.append
      (after_calls b0 [Append blank_transition]) fresh_transition
    = Raise ValueError.
Proof.
  eexists. split; [reflexivity |].
  destruct (capacity_zero_memories 4 1 (1 # 1000)) as [Hper _].
  apply (Hper _ [Append blank_transition] fresh_transition eq_refl).
Defined.

(** ** Rejected priority updates *)

Lemma resolve_indices_out_of_range (n : nat) (indices : list Z) :
  Exists (fun i => py_index n i = None) indices ->
  resolve_indices n indices = Raise IndexError.
Proof.
  induction indices as [| i indices IH]; intros H; [inversion H |].
  simpl. destruct (py_index n i) as [k |] eqn:E; [| reflexivity].
  rewrite IH; [reflexivity |].
  inversion H; subst; [congruence | assumption].
Qed.

(** X9.  [update_priorities] rejects bad arguments and then changes
    nothing.  With as many errors as indices, an index outside [[-n, n)]
    ([n] the number of priorities) gives [IndexError], also when the other
    indices are valid; with valid indices, a number of errors that is
    neither the number of indices nor one gives [ValueError]. *)
Theorem update_priorities_rejects (b : PrioritizedExperienceReplay.t)
    (indices : list Z) (abs_errors : list Q) :
  let n := Z.of_nat (length (PrioritizedExperienceReplay.priorities b)) in
  (length abs_errors = length indices ->
   Exists (fun i => i < - n \/ n <= i) indices ->
   PrioritizedExperienceReplay.update_priorities b indices abs_errors
   = Raise IndexError /\
   after_call b (UpdatePriorities indices abs_errors) = b) /\
  (Forall (fun i => - n <= i < n) indices ->
   length abs_errors <> length indices -> length abs_errors <> 1%nat ->
   PrioritizedExperienceReplay.update_priorities b indices abs_errors
   = Raise ValueError /\
   after_call b (UpdatePriorities indices abs_errors) = b).
Proof.
  intros n. split.
  - intros Hlen Hex.
    assert (PrioritizedExperienceReplay.update_priorities b indices abs_errors
            = Raise IndexError) as E.
    { unfold PrioritizedExperienceReplay.update_priorities, np_setitem,
        broadcast_to.
      rewrite length_map.
      replace (length abs_errors =? length indices)%nat with true
        by (symmetry; apply Nat.eqb_eq; assumption).
      rewrite resolve_indices_out_of_range; [reflexivity |].
      eapply Exists_impl; [exact Hex |].
      simpl. intros i Hi. apply py_index_None_iff. exact Hi. }
    split; [exact E |]. simpl. rewrite E. reflexivity.
  - intros _ Hlen H1.
    assert (PrioritizedExperienceReplay.update_priorities b indices abs_errors
            = Raise ValueError) as E.
    { unfold PrioritizedExperienceReplay.update_priorities, np_setitem,
        broadcast_to.
      rewrite length_map.
      replace (length abs_errors =? length indices)%nat with false
        by (symmetry; apply Nat.eqb_neq; assumption).
      destruct abs_errors as [| e [| e' rest]]; simpl in *;
        [reflexivity | congruence | reflexivity]. }
    split; [exact E |]. simpl. rewrite E. reflexivity.
Qed.

Lemma update_priorities_rejects_witness :
  PrioritizedExperienceReplay.update_priorities spec_example_per [0; 3]
    [1 # 2; 1 # 3]%Q
  = Raise IndexError /\
  PrioritizedExperienceReplay.update_priorities spec_example_per [0; 1; 2]
    [1 # 2; 1 # 3]%Q
  = Raise ValueError.
Proof.
  destruct (update_priorities_rejects spec_example_per [0; 3] [1 # 2; 1 # 3]%Q)
    as [Hindex _].
  destruct (update_priorities_rejects spec_example_per [0; 1; 2]
              [1 # 2; 1 # 3]%Q) as [_ Hshape].
  split.
  - apply Hindex; [reflexivity |].
    apply Exists_cons_tl, Exists_cons_hd. right. simpl. lia.
  - apply Hshape; [repeat constructor; simpl; lia | simpl; lia | simpl; lia].
Defined.

(** * Further properties of the agent *)

(** ** Action selection *)

Lemma argmax_from_spec (xs : list Q) :
  forall (pre : list Q) (best : nat) (m : Q),
    pre !! best = Some m ->
    (forall j q, pre !! j = Some q ->
       (q <= m)%Q /\ ((j < best)%nat -> (q < m)%Q)) ->
    is_first_max (pre ++ xs) (argmax_from xs (length pre) best m).
Proof.
  induction xs as [| y ys IH]; intros pre best m Hbest Hmax; simpl.
  - rewrite app_nil_r. exists m. split; assumption.
  - replace (pre ++ y :: ys) with ((pre ++ [y]) ++ ys)
      by (rewrite <- app_assoc; reflexivity).
    replace (S (length pre)) with (length (pre ++ [y]))
      by (rewrite length_app; simpl; lia).
    pose proof (lookup_lt_Some _ _ _ Hbest) as Hlt.
    destruct (Qltb m y) eqn:E.
    + apply Qltb_lt in E. apply IH.
      * rewrite lookup_app_r by lia.
        replace (length pre - length pre)%nat with O by lia. reflexivity.
      * intros j q Hj.
        destruct (decide (j < length pre)%nat) as [Hjl | Hjl].
        -- rewrite lookup_app_l in Hj by assumption.
           destruct (Hmax j q Hj) as [Hle _]. split; [lra | intros _; lra].
        -- rewrite lookup_app_r in Hj by lia.
           destruct (j - length pre)%nat eqn:Ej; simpl in Hj; [| discriminate].
           injection Hj as <-. split; [lra | lia].
    + apply Qltb_ge in E. apply IH.
      * rewrite lookup_app_l by assumption. assumption.
      * intros j q Hj.
        destruct (decide (j < length pre)%nat) as [Hjl | Hjl].
        -- rewrite lookup_app_l in Hj by assumption. apply Hmax. assumption.
        -- rewrite lookup_app_r in Hj by lia.
           destruct (j - length pre)%nat eqn:Ej; simpl in Hj; [| discriminate].
           injection Hj as <-. split; [assumption | lia].
Qed.

Lemma tf_argmax_spec (row : Row) :
  exists idx, tf_argmax row = Z.of_nat idx /\ is_first_max (row_list row) idx.
Proof.
  destruct row as [x xs]. eexists. split; [reflexivity |].
  apply (argmax_from_spec xs [x] 0%nat x); [reflexivity |].
  intros [| j] q Hj; simpl in Hj; [| discriminate].
  injection Hj as <-. split; [lra | lia].
Qed.

Lemma is_first_max_lt (a : list Q) (idx : nat) :
  is_first_max a idx -> (idx < length a)%nat.
Proof. intros (p & Hp & _). eapply lookup_lt_Some. eassumption. Qed.

Section ActionSelection.

Variable Params : Type.
Variable forward : Params -> Frame -> Row.
Variable Env : Type.



End ActionSelection.



(** ** The value of the taken action *)

Lemma reduce_sum_mul_one_hot (row : list Q) (a : Z) :
  forall s : nat,
    (reduce_sum_mul row
       (map (fun k => if Z.of_nat k =? a then 1%Q else 0%Q)
            (seq s (length row)))
     == match (if Z.of_nat s <=? a then row !! (Z.to_nat a - s)%nat else None)
        with
        | Some v => v
        | None => 0
        end)%Q.
Proof.
  induction row as [| x row IH]; intros s.
  - simpl. destruct (Z.of_nat s <=? a); [rewrite lookup_nil |]; reflexivity.
  - simpl length. simpl seq. simpl map. simpl reduce_sum_mul. rewrite IH.
    destruct (Z.of_nat s =? a) eqn:E.
    + apply Z.eqb_eq in E.
      replace (Z.of_nat (S s) <=? a) with false
        by (symmetry; apply Z.leb_gt; lia).
      replace (Z.of_nat s <=? a) with true by (symmetry; apply Z.leb_le; lia).
      replace (Z.to_nat a - s)%nat with 0%nat by lia. simpl. ring.
    + apply Z.eqb_neq in E.
      destruct (Z.of_nat s <=? a) eqn:E1.
      * apply Z.leb_le in E1.
        replace (Z.of_nat (S s) <=? a) with true
          by (symmetry; apply Z.leb_le; lia).
        replace (Z.to_nat a - s)%nat with (S (Z.to_nat a - S s)) by lia.
        simpl. destruct (row !! _); ring.
      * apply Z.leb_gt in E1.
        replace (Z.of_nat (S s) <=? a) with false
          by (symmetry; apply Z.leb_gt; lia).
        ring.
Qed.

Lemma combine_lookup {A B} (l1 : list A) (l2 : list B) (k : nat) (x : A)
    (y : B) :
  l1 !! k = Some x -> l2 !! k = Some y -> combine l1 l2 !! k = Some (x, y).
Proof.
  revert l2 k. induction l1 as [| a l1 IH]; intros l2 k H1 H2; [discriminate |].
  destruct l2 as [| b l2]; [discriminate |].
  destruct k as [| k]; simpl in *.
  - congruence.
  - apply IH; assumption.
Qed.

Section TakenAction.

Variable Params : Type.
Variable forward : Params -> Frame -> Row.
Variable Env : Type.

(** X12.  [main_q] gathers the value of the action taken: for the sample
    at position [k], with a network that gives one value per action, it is
    the value the main network gives to the sample's state at the sample's
    action; an action outside [[0, n_actions)] contributes 0. *)
Theorem main_q_gathers_taken_action (self : Agent.t Params Env)
    (batch : Batch) (k : nat) (s : Frame) (a : Z) :
  states batch !! k = Some s -> actions batch !! k = Some a ->
  let row := row_list (forward (Agent.model self) s) in
  Z.of_nat (length row) = Agent.n_actions self ->
  exists q,
    Agent.main_q forward self batch !! k = Some q /\
    (0 <= a < Agent.n_actions self ->
     exists v, row !! Z.to_nat a = Some v /\ (q == v)%Q) /\
    (a < 0 \/ Agent.n_actions self <= a -> (q == 0)%Q).
Proof.
  intros Hs Ha row Hrow.
  unfold Agent.main_q. rewrite list_lookup_fmap.
  rewrite (combine_lookup _ _ _ _ _ Hs Ha). simpl.
  eexists. split; [reflexivity |].
  fold row. unfold one_hot. rewrite <- Hrow, Nat2Z.id.
  pose proof (reduce_sum_mul_one_hot row a 0%nat) as E.
  change (Z.of_nat 0) with 0 in E. rewrite Nat.sub_0_r in E.
  split.
  - intros Hin.
    destruct (lookup_lt_is_Some_2 row (Z.to_nat a) ltac:(lia)) as [v Hv].
    exists v. split; [exact Hv |].
    eapply Qeq_trans; [exact E |]. rewrite Hv.
    replace (0 <=? a) with true by (symmetry; apply Z.leb_le; lia).
    reflexivity.
  - intros Hout. eapply Qeq_trans; [exact E |].
    destruct (0 <=? a) eqn:E0; [| reflexivity].
    apply Z.leb_le in E0.
    rewrite lookup_ge_None_2 by lia. reflexivity.
Qed.

End TakenAction.

Lemma main_q_gathers_taken_action_witness :
  exists q,
    Agent.main_q toy_forward three_action_agent terminal_batch !! 0%nat
    = Some q /\ (q == 1)%Q.
Proof.
  destruct (main_q_gathers_taken_action unit toy_forward nat
              three_action_agent terminal_batch 0%nat [0] 1 eq_refl eq_refl
              eq_refl) as (q & Hq & Hin & _).
  exists q. split; [exact Hq |].
  destruct Hin as (v & Hv & E); [simpl; lia |].
  injection Hv as <-. exact E.
Defined.

(** ** Shape of the exploration schedule *)

(** One linear piece [(b - a) / (hi - lo) * (x - lo) + a] of the schedule,
    for [b <= a]: it stays between [b] and [a] and does not increase. *)
Lemma linear_piece (a b lo hi x y : Q) :
  (b <= a)%Q -> (lo <= x)%Q -> (x <= y)%Q -> (y < hi)%Q ->
  let piece := fun t => ((b - a) / (hi - lo) * (t - lo) + a)%Q in
  (b <= piece y)%Q /\ (piece y <= piece x)%Q /\ (piece x <= a)%Q.
Proof.
  intros Hba Hlo Hxy Hhi piece. unfold piece.
  assert (0 < hi - lo)%Q as Hd by lra.
  set (c := ((a - b) / (hi - lo))%Q).
  assert (0 <= c)%Q as Hc by (apply Qle_shift_div_l; lra).
  assert (c * (hi - lo) == a - b)%Q as Hcd by (unfold c; field; lra).
  assert (forall t, ((b - a) / (hi - lo) * (t - lo) + a == a - c * (t - lo))%Q)
    as E by (intros t; unfold c; field; lra).
  rewrite !E.
  assert (0 <= c * (x - lo))%Q by (apply Qmult_le_0_compat; lra).
  assert (0 <= c * (y - x))%Q by (apply Qmult_le_0_compat; lra).
  assert (0 <= c * (hi - y))%Q by (apply Qmult_le_0_compat; lra).
  assert (c * (y - lo) == c * (x - lo) + c * (y - x))%Q by ring.
  assert (c * (hi - lo) == c * (y - lo) + c * (hi - y))%Q by ring.
  repeat split; lra.
Qed.

Section ScheduleShape.

Variables Params Env : Type.


End ScheduleShape.


(** ** One iteration of the training loop *)

Lemma deque_append_length_eq {A} (maxlen : Z) (d : list A) (x : A) :
  Z.of_nat (length (deque_append maxlen d x))
  = if maxlen <? Z.of_nat (length d) + 1 then Z.of_nat (length d)
    else Z.of_nat (length d) + 1.
Proof.
  unfold deque_append. rewrite length_app. simpl.
  replace (Z.of_nat (length d + 1)) with (Z.of_nat (length d) + 1) by lia.
  destruct (maxlen <? Z.of_nat (length d) + 1).
  - destruct d; simpl; rewrite ?length_app; simpl; lia.
  - rewrite length_app. simpl. lia.
Qed.

Section TrainingRun.

Variable Params : Type.
Variable forward : Params -> Frame -> Row.
Variable huber : list Q -> list Q -> Q.
Variable optimizer_step : Params -> list Frame -> list Z -> list Q -> Params.
Variable Env : Type.
Variable env_reset : Env -> Frame * Env.
Variable env_step : Env -> Z -> (Frame * Q * bool) * Env.

Lemma get_action_runs (self : Agent.t Params Env) (state : Frame)
    (exploration_rate : Q) (g : RandomState) :
  1 <= Agent.n_actions self <= int32_max + 1 ->
  exists action g',
    Agent.get_action forward state exploration_rate self g
    = (Ok action, (self, g')).
Proof.
  intros Hn. unfold Agent.get_action, bind, get_self, np_random_rand.
  destruct (rand_from 1 g) as [u g1].
  destruct (Qltb (hd 0%Q u) exploration_rate).
  - rewrite randint_ok by (unfold int32_min; lia). eexists _, _. reflexivity.
  - eexists _, _. reflexivity.
Qed.

Lemma step_body_runs (r : Agent.Run Params Env) (g : RandomState) :
  ready r ->
  exists action g' r',
    Agent.step_body forward huber optimizer_step env_step r g
    = (Ok tt, (r', g')) /\
    step_effect env_step r action r'.
Proof.
  intros (Huf & Htf & Hn & Hsize & Hfull).
  destruct (get_action_runs (Agent.self r) (Agent.state r)
              (Agent.get_eps (Agent.self r) (inject_Z (Agent.total_step r))
                 Agent.terminal_eps_default Agent.terminal_frame_factor_default)
              g Hn) as (action & g1 & Hact).
  exists action. unfold step_effect.
  unfold Agent.step_body.
  unfold bind at 1. unfold get_self at 1.
  unfold bind at 1. unfold Agent.on_self at 1. rewrite Hact.
  unfold bind at 1. unfold Agent.on_self at 1, Agent.env_step_call. cbn [Agent.self Agent.env].
  destruct (env_step (Agent.env (Agent.self r)) action)
    as [[[next_state reward] done'] env'] eqn:Estep.
  cbn [fst snd].
  unfold Agent.modify, Agent.on_memory, Agent.memory_append, Agent.on_self,
    lift_result, Agent.due, bind, ret.
  cbn [Agent.self Agent.env Agent.memory Agent.with_env Agent.with_memory
       Agent.total_step Agent.episode Agent.state Agent.done
       Agent.episode_score Agent.history Agent.update_frequency
       Agent.target_network_update_freq Agent.replay_start_size].
  apply Z.eqb_neq in Huf as Huf'. apply Z.eqb_neq in Htf as Htf'.
  rewrite Huf', Htf'.
  set (transition := Transition.mk (Agent.state r) action reward done' next_state).
  set (mem' := ExperienceReplay.append (Agent.memory (Agent.self r)) transition).
  assert ((Agent.total_step r mod Agent.update_frequency (Agent.self r) =? 0)
          && (Agent.replay_start_size (Agent.self r) <? Agent.total_step r)
          = true ->
          exists indices items g2,
            ExperienceReplay.get_sample_indices mem' g1
            = (Ok indices, (mem', g2)) /\
            ExperienceReplay.get_sample indices mem' g2
            = (Ok (batch_of items), (mem', g2))) as Hsample.
  { intros E. apply andb_true_iff in E as [_ E]. apply Z.ltb_lt in E.
    specialize (Hfull E).
    destruct (uniform_sampling_runs mem' g1)
      as (indices & items & g2 & H1 & H2 & _).
    - exact Hsize.
    - unfold ExperienceReplay.__len__ in *. unfold mem'. simpl.
      rewrite deque_append_length_eq.
      destruct (ExperienceReplay.size (Agent.memory (Agent.self r))
                <? Z.of_nat (length (ExperienceReplay._buffer
                                       (Agent.memory (Agent.self r)))) + 1)
        eqn:E'; [apply Z.ltb_lt in E' | apply Z.ltb_ge in E']; lia.
    - exists indices, items, g2. split; assumption. }
  destruct ((Agent.total_step r mod Agent.update_frequency (Agent.self r) =? 0)
            && (Agent.replay_start_size (Agent.self r) <? Agent.total_step r))
    eqn:Elearn;
  destruct ((Agent.total_step r
             mod Agent.target_network_update_freq (Agent.self r) =? 0)
            && (Agent.replay_start_size (Agent.self r) <? Agent.total_step r))
    eqn:Esync;
  cbn [Agent.self Agent.env Agent.memory Agent.with_env Agent.with_memory
       Agent.total_step Agent.episode Agent.state Agent.done
       Agent.episode_score Agent.history];
  try (destruct (Hsample eq_refl) as (indices & items & g2 & H1 & H2);
       rewrite H1;
       cbn [Agent.self Agent.env Agent.memory Agent.with_env Agent.with_memory
            Agent.total_step Agent.episode Agent.state Agent.done
            Agent.episode_score Agent.history];
       rewrite H2);
  unfold Agent.update_main_q_network, Agent.update_target_network, bind,
    get_self, put_self, ret;
  (eexists _, _; split; [reflexivity |]);
  cbn [fst snd Agent.self Agent.env Agent.memory Agent.with_env
       Agent.with_memory Agent.with_model Agent.with_target_network
       Agent.model Agent.target_network
       Agent.total_step Agent.episode Agent.state Agent.done
       Agent.episode_score Agent.history];
  repeat match goal with |- _ /\ _ => split end;
  try reflexivity; try discriminate.
Qed.


Lemma run_inv_ready (agent : Agent.t Params Env) (r : Agent.Run Params Env) :
  trainable agent -> run_inv agent r -> ready r.
Proof.
  intros (Huf & Htf & Hn & Hsize & Hlen & Hcap) (Hhyper & Hstep & Hmem & _ & _).
  unfold hyperparameters in Hhyper.
  injection Hhyper as En _ _ Euf Etf _ _ _ Erss _ Esize _.
  unfold ready. cbv zeta. rewrite En, Euf, Etf, Erss, Esize, Hmem.
  repeat match goal with |- _ /\ _ => split end; try assumption; lia.
Qed.

Lemma step_body_run_inv (agent : Agent.t Params Env)
    (r : Agent.Run Params Env) (g : RandomState) :
  trainable agent -> run_inv agent r ->
  exists g' r',
    Agent.step_body forward huber optimizer_step env_step r g
    = (Ok tt, (r', g')) /\
    run_inv agent r'.
Proof.
  intros Hagent Hr.
  destruct (step_body_runs r g (run_inv_ready agent r Hagent Hr))
    as (action & g' & r' & Hrun & Heffect).
  unfold step_effect in Heffect. cbv zeta in Heffect.
  destruct Heffect as (Hmem' & _ & Hhyper' & Hstep' & _ & _ & _ & _
                       & Hhist' & Hmodel' & Htarget').
  exists g', r'. split; [exact Hrun |].
  destruct Hagent as (Huf & Htf & Hn & Hsize & Hlen & Hcap).
  destruct Hr as (Hhyper & Hstep & Hmem & Hhist & Hfrozen).
  assert (ExperienceReplay.__len__ (Agent.memory (Agent.self r'))
          = Z.min (ExperienceReplay.__len__ (Agent.memory agent)
                   + (Agent.total_step r + 1))
                  (ExperienceReplay.size (Agent.memory agent))) as Hlen'.
  { rewrite Hmem'. unfold hyperparameters in Hhyper.
    injection Hhyper as _ _ _ _ _ _ _ _ _ _ Esize _.
    unfold ExperienceReplay.__len__ in *. simpl.
    rewrite deque_append_length_eq, Hmem, Esize.
    match goal with
    | |- context [?a <? ?b] =>
        destruct (a <? b) eqn:E; [apply Z.ltb_lt in E | apply Z.ltb_ge in E]
    end; lia. }
  unfold run_inv. cbv zeta.
  repeat match goal with |- _ /\ _ => split end.
  - congruence.
  - lia.
  - rewrite Hstep'. exact Hlen'.
  - rewrite Hhist'. apply Forall_app. split; [assumption |].
    constructor; [| constructor]. simpl.
    rewrite <- Hmem', Hlen'. f_equal. lia.
  - intros Hwarm. rewrite Hstep' in Hwarm.
    unfold hyperparameters in Hhyper.
    injection Hhyper as _ _ _ _ _ _ _ _ Erss _ _ _.
    assert ((Agent.replay_start_size (Agent.self r) <? Agent.total_step r)
            = false) as Egate by (apply Z.ltb_ge; lia).
    rewrite Egate, !andb_false_r in *.
    destruct Hfrozen as [Hm Ht]; [lia |].
    rewrite Htarget', (Hmodel' eq_refl). split; assumption.
Qed.

Lemma episode_loop_safe (agent : Agent.t Params Env) (fuel : nat)
    (r : Agent.Run Params Env) (g : RandomState) (res : result unit)
    (r' : Agent.Run Params Env) (g' : RandomState) :
  trainable agent -> run_inv agent r ->
  Agent.episode_loop forward huber optimizer_step env_step fuel r g
  = (res, (r', g')) ->
  (res = Ok tt \/ res = Raise FuelExhausted) /\ run_inv agent r'.
Proof.
  intros Hagent. revert r g.
  induction fuel as [| fuel IH]; intros r g Hr Hrun;
    cbn [Agent.episode_loop] in Hrun.
  - injection Hrun as <- <- <-. split; [right; reflexivity | exact Hr].
  - unfold bind at 1 in Hrun. unfold get_self at 1 in Hrun.
    destruct (negb (Agent.done r)).
    + destruct (step_body_run_inv agent r g Hagent Hr)
        as (g1 & r1 & Hbody & Hr1).
      unfold bind in Hrun. rewrite Hbody in Hrun.
      apply (IH r1 g1 Hr1 Hrun).
    + injection Hrun as <- <- <-. split; [left; reflexivity | exact Hr].
Qed.

Lemma train_loop_safe (agent : Agent.t Params Env) (fuel inner : nat)
    (r : Agent.Run Params Env) (g : RandomState) (res : result unit)
    (r' : Agent.Run Params Env) (g' : RandomState) :
  trainable agent -> run_inv agent r ->
  Agent.train_loop forward huber optimizer_step env_reset env_step
                   fuel inner r g
  = (res, (r', g')) ->
  (res = Ok tt \/ res = Raise FuelExhausted) /\
  (res = Ok tt -> Agent.training_frames agent <= Agent.total_step r') /\
  run_inv agent r'.
Proof.
  intros Hagent. revert r g.
  induction fuel as [| fuel IH]; intros r g Hr Hrun;
    cbn [Agent.train_loop] in Hrun.
  - injection Hrun as <- <- <-.
    split; [right; reflexivity |]. split; [discriminate | exact Hr].
  - unfold bind at 1 in Hrun. unfold get_self at 1 in Hrun.
    destruct (Agent.total_step r <? Agent.training_frames (Agent.self r))
      eqn:Eframes.
    + unfold bind at 1 in Hrun.
      unfold Agent.on_self at 1, Agent.env_reset_call in Hrun.
      destruct (env_reset (Agent.env (Agent.self r))) as [first env'].
      unfold bind at 1 in Hrun. unfold Agent.modify at 1 in Hrun.
      cbn [Agent.self Agent.total_step Agent.episode Agent.history] in Hrun.
      unfold bind at 1 in Hrun.
      match type of Hrun with
      | context [Agent.episode_loop _ _ _ _ inner ?r1 ?g1] =>
          assert (run_inv agent r1) as Hr1 by exact Hr;
          destruct (Agent.episode_loop forward huber optimizer_step env_step
                                       inner r1 g1)
            as [res2 [r2 g2]] eqn:Eloop;
          destruct (episode_loop_safe agent inner r1 g1 res2 r2 g2
                      Hagent Hr1 Eloop) as [Hout Hinv]
      end.
      destruct Hout as [-> | ->].
      * apply (IH r2 g2 Hinv Hrun).
      * injection Hrun as <- <- <-.
        split; [right; reflexivity |]. split; [discriminate | exact Hinv].
    + injection Hrun as <- <- <-.
      split; [left; reflexivity |]. split; [| exact Hr].
      intros _. apply Z.ltb_ge in Eframes.
      destruct Hr as (Hhyper & _). unfold hyperparameters in Hhyper.
      injection Hhyper as _ _ _ _ _ _ _ _ _ Eframes' _ _.
      lia.
Qed.


End TrainingRun.



(** * Properties of the environment wrappers *)

Lemma run_steps_app {W O} (step : W -> Z -> O * W) (w : W)
    (actions more : list Z) :
  run_steps step w (actions ++ more)
  = (fst (run_steps step w actions)
     ++ fst (run_steps step (snd (run_steps step w actions)) more),
     snd (run_steps step (snd (run_steps step w actions)) more)).
Proof.
  revert w. induction actions as [| a actions IH]; intros w; simpl.
  - destruct (run_steps step w more). reflexivity.
  - destruct (step w a) as [o w']. rewrite IH.
    destruct (run_steps step w' actions) as [os w'']. simpl.
    reflexivity.
Qed.

Lemma run_steps_length {W O} (step : W -> Z -> O * W) (w : W)
    (actions : list Z) :
  length (fst (run_steps step w actions)) = length actions.
Proof.
  revert w. induction actions as [| a actions IH]; intros w; simpl;
    [reflexivity |].
  destruct (step w a) as [o w']. specialize (IH w').
  destruct (run_steps step w' actions) as [os w'']. simpl in *. lia.
Qed.

(** ** [StepLimit] *)

Section StepLimitFacts.

Variables Env Obs Info : Type.
Variable env_reset : Env -> Obs * Env.
Variable env_step : Env -> Z -> (Obs * Q * bool * Info) * Env.

Lemma step_limit_run (actions : list Z) (w : StepLimit.t Env) :
  let inner := run_steps env_step (StepLimit.env w) actions in
  let outer := run_steps (StepLimit.step env_step) w actions in
  fst outer
  = imap (fun k o =>
            (obs_of o, reward_of o,
             (StepLimit.limit w <=? StepLimit.step_count w + Z.of_nat k + 1)
             || done_of o,
             info_of o))
         (fst inner) /\
  StepLimit.env (snd outer) = snd inner /\
  StepLimit.limit (snd outer) = StepLimit.limit w /\
  StepLimit.step_count (snd outer)
  = StepLimit.step_count w + Z.of_nat (length actions).
Proof.
  revert w. induction actions as [| a actions IH]; intros w; cbv zeta.
  - simpl. repeat split. lia.
  - cbn [run_steps]. unfold StepLimit.step at 1 3 5 7.
    destruct (env_step (StepLimit.env w) a) as [[[[ob r] d] i] e].
    specialize (IH (StepLimit.mk e (StepLimit.limit w)
                                 (StepLimit.step_count w + 1))).
    cbv zeta in IH. cbn [StepLimit.env StepLimit.limit StepLimit.step_count] in IH.
    destruct (run_steps (StepLimit.step env_step)
                (StepLimit.mk e (StepLimit.limit w) (StepLimit.step_count w + 1))
                actions) as [os w''].
    destruct (run_steps env_step e actions) as [ins e''].
    cbn [fst snd] in *.
    destruct IH as (Hos & He & Hl & Hc).
    split; [| split; [exact He | split; [exact Hl |]]].
    + rewrite Hos. cbn [imap]. f_equal.
      * unfold obs_of, reward_of, done_of, info_of. simpl.
        replace (StepLimit.step_count w + Z.of_nat 0 + 1)
          with (StepLimit.step_count w + 1) by lia.
        destruct (StepLimit.limit w <=? StepLimit.step_count w + 1);
          reflexivity.
      * apply imap_ext. intros k o _. simpl.
        replace (StepLimit.step_count w + 1 + Z.of_nat k + 1)
          with (StepLimit.step_count w + Z.of_nat (S k) + 1) by lia.
        reflexivity.
    + rewrite Hc. simpl length. lia.
Qed.

(** X16.  [StepLimit] cuts every episode at [limit] steps and changes
    nothing else: after [reset], the answer to the [k]-th action is the
    wrapped environment's with [done] forced to true from the [limit]-th
    step on, and the wrapped environment is driven exactly as it would be
    without the wrapper. *)
Theorem step_limit_cuts_episodes (w : StepLimit.t Env) (actions : list Z) :
  let start := StepLimit.reset env_reset w in
  let inner := run_steps env_step (snd (env_reset (StepLimit.env w))) actions in
  let outer := run_steps (StepLimit.step env_step) (snd start) actions in
  fst start = fst (env_reset (StepLimit.env w)) /\
  fst outer
  = imap (fun k o =>
            (obs_of o, reward_of o,
             (StepLimit.limit w <=? Z.of_nat k + 1) || done_of o, info_of o))
         (fst inner) /\
  StepLimit.env (snd outer) = snd inner /\
  StepLimit.step_count (snd outer) = Z.of_nat (length actions).
Proof.
  cbv zeta. unfold StepLimit.reset.
  destruct (env_reset (StepLimit.env w)) as [ob e]. cbn [fst snd].
  split; [reflexivity |].
  destruct (step_limit_run actions (StepLimit.mk e (StepLimit.limit w) 0))
    as (Hos & He & _ & Hc).
  cbn [StepLimit.env StepLimit.limit StepLimit.step_count] in *.
  split; [| split; [exact He | rewrite Hc; lia]].
  rewrite Hos. apply imap_ext. intros k o _. simpl. reflexivity.
Qed.

End StepLimitFacts.

(** ** [StackFrame] *)

Lemma last_n_length {A} (n : nat) (l : list A) :
  length (last_n n l) = Nat.min n (length l).
Proof. unfold last_n. rewrite length_drop. lia. Qed.

Lemma last_n_all {A} (n : nat) (l : list A) :
  (length l <= n)%nat -> last_n n l = l.
Proof.
  intros H. unfold last_n.
  replace (length l - n)%nat with 0%nat by lia. reflexivity.
Qed.

Lemma last_n_app {A} (n : nat) (l more : list A) :
  last_n n (last_n n l ++ more) = last_n n (l ++ more).
Proof.
  induction more as [| x more IH] using rev_ind.
  - rewrite !app_nil_r. apply last_n_all. rewrite last_n_length. lia.
  - rewrite !app_assoc, <- last_n_snoc, IH, last_n_snoc. reflexivity.
Qed.

Lemma append_times_last_n {Obs} (n : nat) (maxlen : Z) (d : list Obs)
    (ob : Obs) :
  Z.of_nat (length d) <= maxlen ->
  StackFrame.append_times n maxlen d ob
  = last_n (Z.to_nat maxlen) (d ++ repeat ob n).
Proof.
  revert d. induction n as [| n IH]; intros d Hd; simpl.
  - rewrite app_nil_r. symmetry. apply last_n_all. lia.
  - rewrite IH.
    + rewrite deque_append_last_n by lia.
      rewrite last_n_app, <- app_assoc. reflexivity.
    + apply deque_append_length; lia.
Qed.

Lemma last_n_repeat {A} (n : nat) (l : list A) (x : A) :
  last_n n (l ++ repeat x n) = repeat x n.
Proof.
  unfold last_n. rewrite length_app, repeat_length.
  replace (length l + n - n)%nat with (length l) by lia.
  rewrite drop_app_length. reflexivity.
Qed.

Section StackFrameFacts.

Variables Env Obs Info : Type.
Variable env_reset : Env -> Obs * Env.
Variable env_step : Env -> Z -> (Obs * Q * bool * Info) * Env.

(** X17.  [reset] of a [StackFrame] flushes the stack: whatever frames it
    held, the observation returned is [frame_stack] copies of the first
    frame of the wrapped environment, the assertion of [_get_ob] passes,
    and the stack holds exactly these copies. *)
Theorem stack_frame_reset (self : StackFrame.t Env Obs) :
  Z.of_nat (length (StackFrame.frames self)) <= StackFrame.frame_stack self ->
  let first := fst (env_reset (StackFrame.env self)) in
  let copies := repeat first (Z.to_nat (StackFrame.frame_stack self)) in
  let result := StackFrame.reset env_reset self in
  fst result = Passed copies /\
  StackFrame.frames (snd result) = copies /\
  StackFrame.frame_stack (snd result) = StackFrame.frame_stack self /\
  StackFrame.env (snd result) = snd (env_reset (StackFrame.env self)).
Proof.
  intros Hlen. cbv zeta. unfold StackFrame.reset.
  destruct (env_reset (StackFrame.env self)) as [ob e]. cbn [fst snd].
  rewrite append_times_last_n by assumption.
  rewrite last_n_repeat.
  unfold StackFrame._get_ob. cbn [StackFrame.frames StackFrame.frame_stack].
  rewrite repeat_length.
  replace (Z.of_nat (Z.to_nat (StackFrame.frame_stack self))
           =? StackFrame.frame_stack self) with true
    by (symmetry; apply Z.eqb_eq; lia).
  repeat split.
Qed.

Lemma stack_frame_run (actions : list Z) (self : StackFrame.t Env Obs) :
  Z.of_nat (length (StackFrame.frames self)) <= StackFrame.frame_stack self ->
  let n := Z.to_nat (StackFrame.frame_stack self) in
  let inner := run_steps env_step (StackFrame.env self) actions in
  let outer := run_steps (StackFrame.step env_step) self actions in
  fst outer
  = imap (fun k o =>
            if StackFrame.frame_stack self
               <=? Z.of_nat (length (StackFrame.frames self)) + Z.of_nat k + 1
            then Passed (last_n n (StackFrame.frames self
                                   ++ map obs_of (take (S k) (fst inner))),
                         reward_of o, done_of o, info_of o)
            else AssertionError)
         (fst inner) /\
  StackFrame.frames (snd outer)
  = last_n n (StackFrame.frames self ++ map obs_of (fst inner)) /\
  StackFrame.frame_stack (snd outer) = StackFrame.frame_stack self /\
  StackFrame.env (snd outer) = snd inner.
Proof.
  revert self. induction actions as [| a actions IH]; intros self Hlen; cbv zeta.
  - simpl. rewrite app_nil_r. repeat split.
    symmetry. apply last_n_all. lia.
  - cbn [run_steps]. unfold StackFrame.step at 1 3 5 7.
    destruct (env_step (StackFrame.env self) a) as [[[[ob r] d] i] e].
    set (self' := StackFrame.mk e (StackFrame.frame_stack self)
                    (deque_append (StackFrame.frame_stack self)
                                  (StackFrame.frames self) ob)).
    assert (StackFrame.frames self'
            = last_n (Z.to_nat (StackFrame.frame_stack self))
                (StackFrame.frames self ++ [ob])) as Hframes
      by (apply deque_append_last_n; lia).
    assert (Z.of_nat (length (StackFrame.frames self'))
            <= StackFrame.frame_stack self') as Hlen'
      by (unfold self'; simpl; apply deque_append_length; lia).
    specialize (IH self' Hlen'). cbv zeta in IH.
    destruct (run_steps (StackFrame.step env_step) self' actions) as [os w''].
    change (StackFrame.env self') with e in IH.
    change (StackFrame.frame_stack self') with (StackFrame.frame_stack self) in IH.
    destruct (run_steps env_step e actions) as [ins e''].
    cbn [fst snd] in *.
    destruct IH as (Hos & Hfr & Hfs & He).
    split; [| split; [| split; [exact Hfs | exact He]]].
    + cbn [imap]. f_equal.
      * unfold StackFrame._get_ob.
        change (StackFrame.frame_stack self')
          with (StackFrame.frame_stack self).
        rewrite Hframes, last_n_length, length_app. simpl.
        unfold obs_of, reward_of, done_of, info_of. simpl.
        rewrite <- Hframes.
        destruct (StackFrame.frame_stack self
                  <=? Z.of_nat (length (StackFrame.frames self))
                      + Z.of_nat 0 + 1) eqn:E;
          [apply Z.leb_le in E | apply Z.leb_gt in E].
        -- replace (Z.of_nat (Nat.min (Z.to_nat (StackFrame.frame_stack self))
                                      (length (StackFrame.frames self) + 1))
                    =? StackFrame.frame_stack self) with true
             by (symmetry; apply Z.eqb_eq; lia).
           rewrite Hframes. reflexivity.
        -- replace (Z.of_nat (Nat.min (Z.to_nat (StackFrame.frame_stack self))
                                      (length (StackFrame.frames self) + 1))
                    =? StackFrame.frame_stack self) with false
             by (symmetry; apply Z.eqb_neq; lia).
           reflexivity.
      * rewrite Hos. apply imap_ext. intros k o Hk. cbv beta.
        rewrite Hframes, last_n_length, length_app. cbn [length].
        rewrite last_n_app, <- app_assoc. cbn [app map take compose].
        change (obs_of (ob, r, d, i)) with ob.
        match goal with
        | |- (if ?x <=? ?y then _ else _) = (if ?x <=? ?z then _ else _) =>
            replace (x <=? y) with (x <=? z);
              [reflexivity |
               destruct (Z.leb_spec x z); destruct (Z.leb_spec x y);
               try reflexivity; lia]
        end.
    + rewrite Hfr, Hframes, last_n_app, <- app_assoc. reflexivity.
Qed.

(** X18.  Once the stack is full, as [reset] leaves it, [StackFrame] is a
    sliding window: every step passes the assertion of [_get_ob], and the
    observation of the [k]-th step is the last [frame_stack] frames of the
    frames held before followed by the first [k] frames of the wrapped
    environment, oldest first; reward, [done] and [info] pass through. *)
Theorem stack_frame_window (self : StackFrame.t Env Obs) (actions : list Z) :
  Z.of_nat (length (StackFrame.frames self)) = StackFrame.frame_stack self ->
  let n := Z.to_nat (StackFrame.frame_stack self) in
  let inner := run_steps env_step (StackFrame.env self) actions in
  let outer := run_steps (StackFrame.step env_step) self actions in
  fst outer
  = imap (fun k o =>
            Passed (last_n n (StackFrame.frames self
                              ++ map obs_of (take (S k) (fst inner))),
                    reward_of o, done_of o, info_of o))
         (fst inner) /\
  StackFrame.env (snd outer) = snd inner.
Proof.
  intros Hfull.
  destruct (stack_frame_run actions self ltac:(lia)) as (Hos & _ & _ & He).
  cbv zeta. split; [| exact He].
  rewrite Hos. apply imap_ext. intros k o _. cbv beta.
  replace (StackFrame.frame_stack self
           <=? Z.of_nat (length (StackFrame.frames self)) + Z.of_nat k + 1)
    with true by (symmetry; apply Z.leb_le; lia).
  reflexivity.
Qed.

(** X19.  A [StackFrame] that is stepped before its first [reset] fails
    the assertion of [_get_ob] on each of the first [frame_stack - 1]
    steps, while the stack fills, and from then on returns the last
    [frame_stack] frames. *)
Theorem stack_frame_needs_reset (env0 : Env) (frame_stack : Z)
    (self : StackFrame.t Env Obs) (actions : list Z) :
  StackFrame.__init__ env0 frame_stack = Ok self ->
  let inner := run_steps env_step env0 actions in
  let outer := run_steps (StackFrame.step env_step) self actions in
  fst outer
  = imap (fun k o =>
            if frame_stack <=? Z.of_nat k + 1
            then Passed (last_n (Z.to_nat frame_stack)
                                (map obs_of (take (S k) (fst inner))),
                         reward_of o, done_of o, info_of o)
            else AssertionError)
         (fst inner).
Proof.
  unfold StackFrame.__init__.
  destruct (frame_stack <? 0) eqn:E; [discriminate |].
  apply Z.ltb_ge in E. intros [= <-].
  destruct (stack_frame_run actions (StackFrame.mk env0 frame_stack [])
              ltac:(simpl; lia)) as (Hos & _).
  exact Hos.
Qed.

End StackFrameFacts.

Lemma stack_frame_reset_witness :
  fst (StackFrame.reset counting_reset (StackFrame.mk 5%nat 3 [7; 8]))
  = Passed [0; 0; 0].
Proof.
  destruct (stack_frame_reset nat Z counting_reset
              (StackFrame.mk 5%nat 3 [7; 8])) as [Hob _].
  - simpl. lia.
  - exact Hob.
Defined.

Lemma stack_frame_window_witness :
  fst (run_steps (StackFrame.step counting_step)
         (StackFrame.mk 0%nat 2 [0; 0]) [0; 0; 0])
  = [Passed ([0; 1], 1%Q, false, tt); Passed ([1; 2], 1%Q, false, tt);
     Passed ([2; 3], 1%Q, true, tt)].
Proof.
  destruct (stack_frame_window nat Z unit counting_step
              (StackFrame.mk 0%nat 2 [0; 0]) [0; 0; 0]) as [Hos _].
  - reflexivity.
  - rewrite Hos. reflexivity.
Defined.

Lemma stack_frame_needs_reset_witness :
  fst (run_steps (StackFrame.step counting_step)
         (StackFrame.mk 0%nat 3 []) [0; 0; 0; 0])
  = [AssertionError; AssertionError;
     Passed ([1; 2; 3], 1%Q, true, tt); Passed ([2; 3; 4], 1%Q, false, tt)].
Proof.
  rewrite (stack_frame_needs_reset nat Z unit counting_step 0%nat 3
             (StackFrame.mk 0%nat 3 []) [0; 0; 0; 0] eq_refl).
  reflexivity.
Defined.

(** ** [MaxAndSkip] *)

Lemma obs_at_cons {Obs Info} (o : Obs * Q * bool * Info)
    (trace : list (Obs * Q * bool * Info)) (k : Z) (default : Obs) :
  obs_at (o :: trace) k default
  = obs_at trace (k - 1) (if k =? 0 then obs_of o else default).
Proof.
  unfold obs_at.
  destruct (Z.ltb_spec k 0) as [Hneg | Hpos].
  - replace (k - 1 <? 0) with true by (symmetry; apply Z.ltb_lt; lia).
    replace (k =? 0) with false by (symmetry; apply Z.eqb_neq; lia).
    reflexivity.
  - destruct (Z.eqb_spec k 0) as [-> | Hk].
    + reflexivity.
    + replace (k - 1 <? 0) with false by (symmetry; apply Z.ltb_ge; lia).
      replace (Z.to_nat k) with (S (Z.to_nat (k - 1))) by lia.
      reflexivity.
Qed.

Lemma obs_at_beyond_nil {Obs Info} (k : Z) (default : Obs) :
  obs_at (@nil (Obs * Q * bool * Info)) k default = default.
Proof. unfold obs_at. destruct (k <? 0); reflexivity. Qed.

Lemma obs_at_beyond {Obs Info} (trace : list (Obs * Q * bool * Info)) (k : Z)
    (default : Obs) :
  Z.of_nat (length trace) <= k -> obs_at trace k default = default.
Proof.
  intros Hk. unfold obs_at. destruct (k <? 0); [reflexivity |].
  rewrite lookup_ge_None_2 by lia. reflexivity.
Qed.

Lemma until_done_length {Obs Info} (trace : list (Obs * Q * bool * Info)) :
  (length (until_done trace) <= length trace)%nat.
Proof.
  induction trace as [| o trace IH]; simpl; [lia |].
  destruct (done_of o); simpl; lia.
Qed.

Section MaxAndSkipFacts.

Variables Env Obs Info : Type.
Variable env_step : Env -> Z -> (Obs * Q * bool * Info) * Env.
Variable amax : Obs -> Obs -> Obs.

Lemma step_loop_spec (n i0 : nat) (action : Z) (self : MaxAndSkip.t Env Obs)
    (l : MaxAndSkip.Locals Info) :
  let taken :=
    until_done (fst (run_steps env_step (MaxAndSkip.env self)
                               (repeat action n))) in
  let result :=
    MaxAndSkip.step_loop env_step (map Z.of_nat (seq i0 n)) action self l in
  MaxAndSkip.total_reward (fst result)
  = fold_left Qplus (map reward_of taken) (MaxAndSkip.total_reward l) /\
  MaxAndSkip.done (fst result)
  = match last taken with
    | Some o => Some (done_of o)
    | None => MaxAndSkip.done l
    end /\
  MaxAndSkip.info (fst result)
  = match last taken with
    | Some o => Some (info_of o)
    | None => MaxAndSkip.info l
    end /\
  MaxAndSkip.env (snd result)
  = snd (run_steps env_step (MaxAndSkip.env self)
                   (repeat action (length taken))) /\
  MaxAndSkip._skip (snd result) = MaxAndSkip._skip self /\
  MaxAndSkip._obs_buffer (snd result)
  = (obs_at taken (MaxAndSkip._skip self - 2 - Z.of_nat i0)
            (fst (MaxAndSkip._obs_buffer self)),
     obs_at taken (MaxAndSkip._skip self - 1 - Z.of_nat i0)
            (snd (MaxAndSkip._obs_buffer self))).
Proof.
  revert i0 self l. induction n as [| n IH]; intros i0 self l; cbv zeta.
  - simpl. unfold obs_at. simpl.
    destruct (MaxAndSkip._skip self - 2 - Z.of_nat i0 <? 0);
      destruct (MaxAndSkip._skip self - 1 - Z.of_nat i0 <? 0);
      destruct (MaxAndSkip._obs_buffer self); repeat split.
  - cbn [seq map repeat run_steps MaxAndSkip.step_loop].
    destruct (env_step (MaxAndSkip.env self) action)
      as [[[[obs reward] done'] info'] e] eqn:Estep.
    set (buffer1 := if Z.of_nat i0 =? MaxAndSkip._skip self - 2
                    then (obs, snd (MaxAndSkip._obs_buffer self))
                    else MaxAndSkip._obs_buffer self).
    set (buffer2 := if Z.of_nat i0 =? MaxAndSkip._skip self - 1
                    then (fst buffer1, obs) else buffer1).
    assert (fst buffer2
            = (if MaxAndSkip._skip self - 2 - Z.of_nat i0 =? 0 then obs
               else fst (MaxAndSkip._obs_buffer self)) /\
            snd buffer2
            = (if MaxAndSkip._skip self - 1 - Z.of_nat i0 =? 0 then obs
               else snd (MaxAndSkip._obs_buffer self))) as [Hb1 Hb2].
    { unfold buffer2, buffer1.
      destruct (Z.eqb_spec (Z.of_nat i0) (MaxAndSkip._skip self - 2));
        destruct (Z.eqb_spec (Z.of_nat i0) (MaxAndSkip._skip self - 1));
        destruct (Z.eqb_spec (MaxAndSkip._skip self - 2 - Z.of_nat i0) 0);
        destruct (Z.eqb_spec (MaxAndSkip._skip self - 1 - Z.of_nat i0) 0);
        try lia; split; reflexivity. }
    specialize (IH (S i0) (MaxAndSkip.mk e buffer2 (MaxAndSkip._skip self))
                   (MaxAndSkip.mkLocals
                      (MaxAndSkip.total_reward l + reward)%Q
                      (Some done') (Some info'))).
    cbv zeta in IH.
    cbn [MaxAndSkip.env MaxAndSkip._skip MaxAndSkip._obs_buffer
         MaxAndSkip.total_reward MaxAndSkip.done MaxAndSkip.info] in IH.
    destruct (run_steps env_step e (repeat action n)) as [os e''] eqn:Erest.
    cbn [fst snd] in *. cbn [until_done].
    change (done_of (obs, reward, done', info')) with done'.
    destruct done';
      rewrite !(obs_at_cons (obs, reward, _, info'));
      change (obs_of (obs, reward, _, info')) with obs;
      rewrite <- Hb1, <- Hb2;
      replace (MaxAndSkip._skip self - 2 - Z.of_nat i0 - 1)
        with (MaxAndSkip._skip self - 2 - Z.of_nat (S i0)) by lia;
      replace (MaxAndSkip._skip self - 1 - Z.of_nat i0 - 1)
        with (MaxAndSkip._skip self - 1 - Z.of_nat (S i0)) by lia.
    + cbn [fst snd MaxAndSkip.env MaxAndSkip._skip MaxAndSkip._obs_buffer
           MaxAndSkip.total_reward MaxAndSkip.done MaxAndSkip.info
           map fold_left last length repeat run_steps].
      rewrite Estep. cbn [fst snd].
      rewrite !obs_at_beyond_nil.
      destruct buffer2. repeat split.
    + destruct IH as (Hr & Hd & Hi & He & Hs & Hb).
      cbn [map fold_left length repeat run_steps]. rewrite Estep.
      destruct (run_steps env_step e (repeat action (length (until_done os))))
        as [os' e'''] eqn:Etaken.
      cbn [fst snd] in *.
      split; [exact Hr |].
      rewrite last_cons.
      destruct (last (until_done os)) as [o' |].
      * split; [exact Hd |]. split; [exact Hi |].
        split; [exact He |]. split; [exact Hs | exact Hb].
      * split; [exact Hd |]. split; [exact Hi |].
        split; [exact He |]. split; [exact Hs | exact Hb].
Qed.

(** X20.  One [step] of [MaxAndSkip] repeats the action on the wrapped
    environment until [_skip] steps are made or one reports [done],
    whichever comes first, and no further; the reward returned is the sum
    of the rewards of these steps, and [done] and [info] are those of the
    last of them ([None] when [_skip] is not positive and no step is
    made). *)
Theorem max_and_skip_accumulates (self : MaxAndSkip.t Env Obs) (action : Z) :
  let taken :=
    until_done (fst (run_steps env_step (MaxAndSkip.env self)
                       (repeat action (Z.to_nat (MaxAndSkip._skip self))))) in
  let '((_, reward, done, info), self') :=
    MaxAndSkip.step env_step amax self action in
  reward = fold_left Qplus (map reward_of taken) 0%Q /\
  done = option_map done_of (last taken) /\
  info = option_map info_of (last taken) /\
  MaxAndSkip.env self'
  = snd (run_steps env_step (MaxAndSkip.env self)
                   (repeat action (length taken))) /\
  (length taken <= Z.to_nat (MaxAndSkip._skip self))%nat /\
  MaxAndSkip._skip self' = MaxAndSkip._skip self.
Proof.
  cbv zeta. unfold MaxAndSkip.step, py_range.
  pose proof (step_loop_spec (Z.to_nat (MaxAndSkip._skip self)) 0 action self
                (MaxAndSkip.mkLocals 0%Q None None))
    as (Hr & Hd & Hi & He & Hs & _).
  destruct (MaxAndSkip.step_loop env_step
              (map Z.of_nat (seq 0 (Z.to_nat (MaxAndSkip._skip self))))
              action self (MaxAndSkip.mkLocals 0%Q None None)) as [l self'].
  cbn [fst snd MaxAndSkip.total_reward MaxAndSkip.done MaxAndSkip.info] in *.
  split; [exact Hr |].
  split; [rewrite Hd; destruct (last _); reflexivity |].
  split; [rewrite Hi; destruct (last _); reflexivity |].
  split; [exact He |]. split; [| exact Hs].
  etransitivity; [apply until_done_length |].
  rewrite run_steps_length, repeat_length. lia.
Qed.

(** X21.  The frame that [MaxAndSkip] returns is the maximum over its two
    buffer rows, and a row is only written by the last two of the [_skip]
    repetitions.  So when all [_skip] steps are made the frame is the
    maximum of the last two observations; but when the episode ends more
    than one repetition early, neither row is written and the frame is
    the one of an earlier call, showing no observation of this step. *)
Theorem max_and_skip_frame (self : MaxAndSkip.t Env Obs) (action : Z) :
  let taken :=
    until_done (fst (run_steps env_step (MaxAndSkip.env self)
                       (repeat action (Z.to_nat (MaxAndSkip._skip self))))) in
  let skip := MaxAndSkip._skip self in
  let result := MaxAndSkip.step env_step amax self action in
  let frame := fst (fst (fst (fst result))) in
  (Z.of_nat (length taken) = skip -> 2 <= skip ->
   exists a b,
     taken !! Z.to_nat (skip - 2) = Some a /\
     taken !! Z.to_nat (skip - 1) = Some b /\
     frame = amax (obs_of a) (obs_of b)) /\
  (Z.of_nat (length taken) <= skip - 2 ->
   frame = amax (fst (MaxAndSkip._obs_buffer self))
                (snd (MaxAndSkip._obs_buffer self)) /\
   MaxAndSkip._obs_buffer (snd result) = MaxAndSkip._obs_buffer self).
Proof.
  cbv zeta. unfold MaxAndSkip.step, py_range.
  pose proof (step_loop_spec (Z.to_nat (MaxAndSkip._skip self)) 0 action self
                (MaxAndSkip.mkLocals 0%Q None None))
    as (_ & _ & _ & _ & _ & Hb).
  destruct (MaxAndSkip.step_loop env_step
              (map Z.of_nat (seq 0 (Z.to_nat (MaxAndSkip._skip self))))
              action self (MaxAndSkip.mkLocals 0%Q None None)) as [l self'].
  cbn [fst snd] in *. rewrite Hb. cbn [fst snd].
  change (Z.of_nat 0) with 0. rewrite !Z.sub_0_r.
  split.
  - intros Hfull Hskip.
    destruct (lookup_lt_is_Some_2
                (until_done (fst (run_steps env_step (MaxAndSkip.env self)
                   (repeat action (Z.to_nat (MaxAndSkip._skip self))))))
                (Z.to_nat (MaxAndSkip._skip self - 2)) ltac:(lia)) as [a Ha].
    destruct (lookup_lt_is_Some_2
                (until_done (fst (run_steps env_step (MaxAndSkip.env self)
                   (repeat action (Z.to_nat (MaxAndSkip._skip self))))))
                (Z.to_nat (MaxAndSkip._skip self - 1)) ltac:(lia)) as [b Hb'].
    exists a, b. split; [exact Ha |]. split; [exact Hb' |].
    unfold obs_at.
    replace (MaxAndSkip._skip self - 2 <? 0) with false
      by (symmetry; apply Z.ltb_ge; lia).
    replace (MaxAndSkip._skip self - 1 <? 0) with false
      by (symmetry; apply Z.ltb_ge; lia).
    rewrite Ha, Hb'. reflexivity.
  - intros Hearly.
    rewrite !obs_at_beyond by lia.
    split; [reflexivity |]. destruct (MaxAndSkip._obs_buffer self); reflexivity.
Qed.

End MaxAndSkipFacts.

Lemma max_and_skip_frame_witness :
  (let self := MaxAndSkip.mk 2%nat (10, 20) 4 in
   let result := MaxAndSkip.step counting_step Z.max self 0 in
   fst (fst (fst (fst result))) = 20 /\
   MaxAndSkip._obs_buffer (snd result) = (10, 20)) /\
  (let self := MaxAndSkip.mk 5%nat (10, 20) 2 in
   let result := MaxAndSkip.step counting_step Z.max self 0 in
   fst (fst (fst (fst result))) = 7).
Proof.
  split.
  - intros self result.
    destruct (max_and_skip_frame nat Z unit counting_step Z.max self 0)
      as [_ Hstale].
    apply Hstale. simpl. lia.
  - intros self result.
    destruct (max_and_skip_frame nat Z unit counting_step Z.max self 0)
      as [Hfull _].
    destruct Hfull as (a & b & Ha & Hb & Hframe);
      [reflexivity | simpl; lia |].
    injection Ha as <-. injection Hb as <-. exact Hframe.
Defined.

(** * Properties of the reward shaping *)

(** X22.  [demon_attack_reward] keeps only the sign of a reward, and not
    symmetrically: every positive reward becomes 0.5 whatever its size,
    a reward of zero becomes the small penalty [-1e-7] and every negative
    reward [-1 - 1e-7].  So the shaped reward is never zero, and it is
    positive exactly when the reward is. *)
Theorem demon_attack_reward_values (reward : Q) :
  ((0 < reward)%Q -> (demon_attack_reward reward == 1 # 2)%Q) /\
  ((reward == 0)%Q -> (demon_attack_reward reward == - (1 # 10000000))%Q) /\
  ((reward < 0)%Q ->
   (demon_attack_reward reward == - (10000001 # 10000000))%Q) /\
  ((0 < demon_attack_reward reward)%Q <-> (0 < reward)%Q) /\
  ~ (demon_attack_reward reward == 0)%Q.
Proof.
  unfold demon_attack_reward, np_sign.
  destruct (Qltb 0 reward) eqn:Epos;
    [apply Qltb_lt in Epos | apply Qltb_ge in Epos].
  - replace (Qltb 0 1) with true by reflexivity.
    split; [intros _; reflexivity |].
    split; [intros H; lra |]. split; [intros H; lra |].
    split; [split; intros _; [assumption | reflexivity] | discriminate].
  - destruct (Qltb reward 0) eqn:Eneg;
      [apply Qltb_lt in Eneg | apply Qltb_ge in Eneg].
    + replace (Qltb 0 (-1)) with false by reflexivity.
      split; [intros H; lra |]. split; [intros H; lra |].
      split; [intros _; reflexivity |].
      split; [split; intros H; [discriminate H | lra] | discriminate].
    + replace (Qltb 0 0) with false by reflexivity.
      split; [intros H; lra |]. split; [intros _; reflexivity |].
      split; [intros H; lra |].
      split; [split; intros H; [discriminate H | lra] | discriminate].
Qed.

Lemma demon_attack_reward_values_witness :
  (demon_attack_reward 30 == 1 # 2)%Q /\
  (demon_attack_reward 0 == - (1 # 10000000))%Q /\
  (demon_attack_reward (- (5 # 1)) == - (10000001 # 10000000))%Q.
Proof.
  destruct (demon_attack_reward_values 30) as (Hpos & _).
  destruct (demon_attack_reward_values 0) as (_ & Hzero & _).
  destruct (demon_attack_reward_values (- (5 # 1))) as (_ & _ & Hneg & _).
  split; [apply Hpos; reflexivity |].
  split; [apply Hzero; reflexivity | apply Hneg; reflexivity].
Defined.
